(** * LRUCache: the block pool allocator and the LRU cache

    A shallow embedding of [include/caching/pool_allocator.hpp] and
    [include/caching/lru_cache.hpp], followed by the properties the
    specification states about them.

    Conventions of the embedding
    - [unsigned] members are [N] with the 32-bit wrap-around of [index++]
      written out ([wrap32]); [size_t limit] is only compared with a container
      size and is a [nat].
    - A block of the pool is named by its creation order inside its allocator
      (the oldest block is block 0); the address [&blk->data[i]] is the
      pointer [Slot blk i].
    - Node-based standard containers are modelled by their node storage (a
      finite map from node address to node contents) and their linkage (the
      order of the list, the key index of the hash map); iterators, node
      handles and references to stored values are node addresses.
    - [assert] is enabled; a failing assertion and undefined behaviour (null
      or dangling dereference, construction in a slot outside its block) are
      distinct outcomes. *)

From Stdlib Require Import NArith Lia.
From stdpp Require Import gmap list strings numbers sorting.

#[local] Set Warnings "-clear-no-such-hyp".

Local Open Scope N_scope.

(** ** Outcomes of fallible code *)

Inductive outcome (A : Type) : Type :=
  | Ok (a : A)
  | AssertionFailed (msg : string)
  | Undefined (what : string).
Arguments Ok {A} a.
Arguments AssertionFailed {A} msg.
Arguments Undefined {A} what.

(** ** Pointers *)

(** [Slot blk i] is [&blk->data[i]]; [Array n] is storage for [n] objects
    obtained from the default allocator (the [n != 1] fallback), whose
    identity the pool never looks at. *)
Inductive pointer : Type :=
  | Slot (blk : nat) (idx : N)
  | Array (n : N).

#[global] Instance pointer_eq_dec : EqDecision pointer.
Proof. solve_decision. Defined.

Definition pointer_enc (p : pointer) : nat * N + N :=
  match p with Slot b i => inl (b, i) | Array n => inr n end.
Definition pointer_dec (s : nat * N + N) : pointer :=
  match s with inl (b, i) => Slot b i | inr n => Array n end.

#[global] Instance pointer_countable : Countable pointer.
Proof. by apply (inj_countable' pointer_enc pointer_dec); intros []. Defined.

(** Calls of the global allocation functions made by the pool. *)
Inductive mem_event : Type :=
  | NewBlock (blk : nat) (n : N)   (* Block::create: ::new uint8_t[...] *)
  | DeleteBlock (blk : nat)        (* ::operator delete[] of a block *)
  | NewArray (n : N)               (* ::new aligned_storage_t[n] *)
  | DeleteArray (p : pointer).     (* ::delete[] of such an array *)

Definition is_release (e : mem_event) : bool :=
  match e with DeleteBlock _ | DeleteArray _ => true | _ => false end.

(** ** pool_allocator<T, UseFreeList, BlockSize> *)

Module pool.

Definition wrap32 (n : N) : N := n mod 2 ^ 32.

(** [pool] is the chain [mpool.pool] followed through [Block::next], newest
    block first, each block given by the slot count [n] passed to
    [Block::create]; the empty chain is [nullptr].  [freeList] is
    [mpool.freeList], and [nextFree] holds the [DataField::nextFree] words
    that [deallocate] has written into slots.  What a client writes into a
    slot it holds is not recorded: under the allocator contract such a slot is
    not on the free list, so its word is not read. *)
Record t : Type := mk {
  pool : list N;
  freeList : option pointer;
  nextFree : gmap pointer (option pointer);
  currBlockSize : N;
  index : N
}.

(** [pool_allocator(unsigned reserved = BlockSize)] *)
Definition create (reserved : N) : t :=
  {| pool := []; freeList := None; nextFree := ∅;
     currBlockSize := reserved; index := reserved |}.

(** [pool_allocator(const pool_allocator &other)] and the rebinding copy:
    both delegate to [pool_allocator(other.currBlockSize)]. *)
Definition minCapacity (a : t) : N := currBlockSize a.
Definition copy (other : t) : t := create (minCapacity other).

(** The name of a block whose [next] chain is [nxt]. *)
Definition block_addr (nxt : list N) : nat := length nxt.

(** The slot count of block [blk], if that block is linked. *)
Definition block_slots (a : t) (blk : nat) : option N :=
  reverse (pool a) !! blk.

(** [p] points into the slot array of a linked block. *)
Definition in_bounds (a : t) (p : pointer) : bool :=
  match p with
  | Slot blk i =>
      match block_slots a blk with
      | Some n => bool_decide (i < n)
      | None => false
      end
  | Array _ => false
  end.

Section ops.
(** The template parameters. [static_assert(BlockSize != 0)]. *)
Variable UseFreeList : bool.
Variable BlockSize : N.

(** [pointer allocate(size_t n)] *)
Definition allocate (n : N) (a : t) : outcome (pointer * t * list mem_event) :=
  if negb (n =? 1) then
    Ok (Array n, a, [NewArray n])
  else
    match (if UseFreeList then freeList a else None) with
    | Some fld =>
        Ok (fld,
            {| pool := pool a;
               freeList := default None (nextFree a !! fld);
               nextFree := nextFree a;
               currBlockSize := currBlockSize a;
               index := index a |},
            [])
    | None =>
        if index a =? currBlockSize a then
          match pool a with
          | _ :: _ =>
              Ok (Slot (block_addr (pool a)) 0,
                  {| pool := BlockSize :: pool a;
                     freeList := freeList a;
                     nextFree := nextFree a;
                     currBlockSize := BlockSize;
                     index := 1 |},
                  [NewBlock (block_addr (pool a)) BlockSize])
          | [] =>
              Ok (Slot (block_addr (pool a)) 0,
                  {| pool := currBlockSize a :: pool a;
                     freeList := freeList a;
                     nextFree := nextFree a;
                     currBlockSize := currBlockSize a;
                     index := 1 |},
                  [NewBlock (block_addr (pool a)) (currBlockSize a)])
          end
        else
          match pool a with
          | _ :: nxt =>
              Ok (Slot (block_addr nxt) (index a),
                  {| pool := pool a;
                     freeList := freeList a;
                     nextFree := nextFree a;
                     currBlockSize := currBlockSize a;
                     index := wrap32 (index a + 1) |},
                  [])
          | [] => Undefined "mpool.pool is null"
          end
    end.

(** [void deallocate(pointer ptr, size_t n)] *)
Definition deallocate (ptr : pointer) (n : N) (a : t) : t * list mem_event :=
  if negb (n =? 1) then
    (a, [DeleteArray ptr])
  else if UseFreeList then
    ({| pool := pool a;
        freeList := Some ptr;
        nextFree := <[ptr := freeList a]> (nextFree a);
        currBlockSize := currBlockSize a;
        index := index a |},
     [])
  else
    (a, []).
End ops.

(** [~pool_allocator()]: walks the chain from the newest block, releasing each
    block, and leaves [mpool] null. *)
Fixpoint release_chain (p : list N) : list mem_event :=
  match p with
  | [] => []
  | _ :: nxt => DeleteBlock (block_addr nxt) :: release_chain nxt
  end.

Definition destroy (a : t) : t * list mem_event :=
  ({| pool := []; freeList := None; nextFree := nextFree a;
      currBlockSize := currBlockSize a; index := index a |},
   release_chain (pool a)).

(** Calls a client can make on a live allocator. *)
Inductive call : Type :=
  | Allocate (n : N)
  | Deallocate (ptr : pointer) (n : N).

Section run.
Variable UseFreeList : bool.
Variable BlockSize : N.

Definition step (c : call) (a : t) : outcome (t * list mem_event) :=
  match c with
  | Allocate n =>
      match allocate UseFreeList BlockSize n a with
      | Ok (_, a', ev) => Ok (a', ev)
      | AssertionFailed m => AssertionFailed m
      | Undefined w => Undefined w
      end
  | Deallocate ptr n => Ok (deallocate UseFreeList ptr n a)
  end.

(** States a live allocator constructed with [reserved] can be in, whatever
    the client passes to [deallocate].  Move construction and move assignment,
    which the cache never performs, are not part of the model. *)
Inductive reachable (reserved : N) : t → Prop :=
  | reachable_create : reachable reserved (create reserved)
  | reachable_step c a a' ev :
      reachable reserved a → step c a = Ok (a', ev) → reachable reserved a'.

(** The same for a client that respects the allocator contract: what it
    passes to [deallocate(ptr, 1)] is a slot that [allocate(1)] returned and
    that has not been released since.  [live] collects the pairs [(ptr, n)]
    handed out and not released, [given] all pairs ever handed out. *)
Inductive in_use (reserved : N)
    : t → gset (pointer * N) → gset (pointer * N) → Prop :=
  | in_use_create : in_use reserved (create reserved) ∅ ∅
  | in_use_allocate n a live given p a' ev :
      in_use reserved a live given →
      allocate UseFreeList BlockSize n a = Ok (p, a', ev) →
      in_use reserved a' ({[ (p, n) ]} ∪ live) ({[ (p, n) ]} ∪ given)
  | in_use_deallocate p n a live given :
      in_use reserved a live given →
      (n = 1 → (p, n) ∈ live) →
      in_use reserved (deallocate UseFreeList p n a).1 (live ∖ {[ (p, n) ]})
        given.

(** What construction with [reserved] and any sequence of calls maintain: the
    oldest block has [reserved] slots and every later one [BlockSize];
    [currBlockSize] is the slot count of the newest block; the cursor is inside
    the newest block unless that block has no slot at all. *)
Definition inv (reserved : N) (a : t) : Prop :=
  reserved < 2 ^ 32 ∧ index a < 2 ^ 32 ∧ currBlockSize a < 2 ^ 32 ∧
  match pool a with
  | [] => index a = reserved ∧ currBlockSize a = reserved
  | n :: nxt =>
      n = currBlockSize a ∧
      (1 ≤ index a ≤ n ∨ n = 0) ∧
      pool a = replicate (length nxt) BlockSize ++ [reserved]
  end.
End run.


(** The block names a chain links, newest first. *)
Definition linked_blocks (a : t) : list nat :=
  reverse (seq 0 (length (pool a))).

(** Slots the bump cursor has passed: every slot of an older block, and the
    slots of the newest block below [index] (all of them once [index] has
    wrapped to 0). *)
Definition allocated (a : t) (p : pointer) : Prop :=
  match p with
  | Slot blk i =>
      (S blk < length (pool a))%nat ∨
      (S blk = length (pool a) ∧ (i < index a ∨ index a = 0))
  | Array _ => False
  end.

(** *** Accounting *)

(** The slots of the blocks of a chain, and the slots the bump cursor has
    handed out: all of the older blocks and those below [index] in the newest
    one. *)
Definition slots (p : list N) : N := foldr N.add 0 p.

Definition used (a : t) : N :=
  match pool a with
  | [] => 0
  | _ :: nxt => slots nxt + index a
  end.

(** The least number of blocks that hold [n] slots when the first block has
    [reserved] slots and every later one [BlockSize]. *)
Definition blocks_for (reserved BlockSize n : N) : nat :=
  if n =? 0 then 0%nat
  else if n <=? reserved then 1%nat
  else S (N.to_nat ((n - reserved + BlockSize - 1) / BlockSize)).

Definition is_single (c : call) : bool :=
  match c with Allocate n => n =? 1 | Deallocate _ _ => false end.

(** The number of [allocate(1)] calls in a sequence. *)
Definition singles (cs : list call) : N :=
  N.of_nat (length (filter (λ c, is_single c = true) cs)).

(** The blocks a sequence of memory events creates, with their slot counts. *)
Definition created (evs : list mem_event) : list (nat * N) :=
  omap (λ e, match e with NewBlock b n => Some (b, n) | _ => None end) evs.

(** Block [i] as [allocate] creates it for an allocator constructed with
    [reserved]. *)
Definition block_of (reserved BlockSize : N) (i : nat) : nat * N :=
  (i, if decide (i = 0%nat) then reserved else BlockSize).

Section calls.
Variable UseFreeList : bool.
Variable BlockSize : N.

(** A sequence of calls on a live allocator, with the memory events of all
    of them. *)
Fixpoint run_calls (cs : list call) (a : t) : outcome (t * list mem_event) :=
  match cs with
  | [] => Ok (a, [])
  | c :: rest =>
      match step UseFreeList BlockSize c a with
      | Ok (a', ev) =>
          match run_calls rest a' with
          | Ok (a'', evs) => Ok (a'', ev ++ evs)
          | AssertionFailed m => AssertionFailed m
          | Undefined w => Undefined w
          end
      | AssertionFailed m => AssertionFailed m
      | Undefined w => Undefined w
      end
  end.
End calls.

(** *** The free list as a list *)

(** [l] is the list of slots met when following [nextFree] words from
    [head] to the null pointer; a slot without a recorded word ends the walk
    only if the list ends there. *)
Fixpoint linked (nf : gmap pointer (option pointer)) (head : option pointer)
    (l : list pointer) : Prop :=
  match l with
  | [] => head = None
  | p :: l' => head = Some p ∧ linked nf (default None (nf !! p)) l'
  end.

Definition free_chain (a : t) (l : list pointer) : Prop :=
  linked (nextFree a) (freeList a) l.

(** A client releasing the single slots [ps] one after the other, and a
    client asking for [k] single slots one after the other. *)
Definition deallocate_all (UseFreeList : bool) (ps : list pointer) (a : t) : t :=
  foldl (λ a p, (deallocate UseFreeList p 1 a).1) a ps.

Fixpoint allocate_ones (UseFreeList : bool) (BlockSize : N) (k : nat) (a : t)
    : outcome (list pointer * t * list mem_event) :=
  match k with
  | O => Ok ([], a, [])
  | S k' =>
      match allocate UseFreeList BlockSize 1 a with
      | Ok (p, a', ev) =>
          match allocate_ones UseFreeList BlockSize k' a' with
          | Ok (ps, a'', evs) => Ok (p :: ps, a'', ev ++ evs)
          | AssertionFailed m => AssertionFailed m
          | Undefined w => Undefined w
          end
      | AssertionFailed m => AssertionFailed m
      | Undefined w => Undefined w
      end
  end.

(** [pool_allocator(pool_allocator &&other)]: the new allocator takes over
    [other.mpool], cursor and block size, and [other.mpool] is set to null;
    [other] keeps its cursor and its block size.  The result is the new
    allocator and what is left of [other]. *)
Definition move (other : t) : t * t :=
  (other,
   {| pool := []; freeList := None; nextFree := nextFree other;
      currBlockSize := currBlockSize other; index := index other |}).

(** [operator=(pool_allocator &&other)]: the destructor of [this], then move
    construction in place.  The result is [this], what is left of [other],
    and the memory events. *)
Definition move_assign (this other : t) : t * t * list mem_event :=
  ((move other).1, (move other).2, (destroy this).2).

End pool.

(** ** lru_cache<TKey, TValue, AllocBlockSize> *)

Module lru.

Section cache.
Context {K : Type} `{Countable K} {V : Type}.
(** The template parameter [AllocBlockSize]. *)
Variable AllocBlockSize : N.

(** [ListAllocTy] and [MapAllocTy] are [pool_allocator<_, false,
    AllocBlockSize>]. *)
Definition ListAllocTy_UseFreeList : bool := false.
Definition MapAllocTy_UseFreeList : bool := false.

(** [std::unordered_map<TKey, ListTy::iterator, ..., MapAllocTy>]: its
    allocator, its key index (key to map node) and the contents of its nodes
    (the [const TKey] and the mapped list iterator).  The bucket array, which
    the map requests with [allocate(n)] for [n != 1], is not part of the
    model. *)
Record MapTy : Type := mkMap {
  m_alloc : pool.t;
  m_index : gmap K pointer;
  m_nodes : gmap pointer (K * pointer)
}.

(** [std::list<std::pair<const TKey *, TValue>, ListAllocTy>]: its allocator,
    its nodes from front to back, and the contents of its nodes.  A
    [const TKey *] points at the key stored in a map node and is that node's
    address; [nullptr] is [None]. *)
Record ListTy : Type := mkList {
  l_alloc : pool.t;
  l_order : list pointer;
  l_nodes : gmap pointer (option pointer * V)
}.

Record lru_cache : Type := mkCache {
  dict : MapTy;
  cache : ListTy;
  limit : nat
}.

(** *** The state and error monad of the member functions *)

Definition M (A : Type) : Type := lru_cache → outcome (A * lru_cache).

Definition ret {A} (a : A) : M A := λ c, Ok (a, c).

Definition bind {A B} (m : M A) (f : A → M B) : M B :=
  λ c, match m c with
       | Ok (a, c') => f a c'
       | AssertionFailed msg => AssertionFailed msg
       | Undefined what => Undefined what
       end.

Definition assert (b : bool) (msg : string) : M unit :=
  λ c, if b then Ok (tt, c) else AssertionFailed msg.

Definition undefined {A} (what : string) : M A := λ _, Undefined what.

Notation "'do' x <- m ; k" := (bind m (λ x, k))
  (at level 10, x name, m at level 100, k at level 200).
Notation "'do_' m ; k" := (bind m (λ _, k))
  (at level 10, m at level 100, k at level 200).

Definition with_dict (d : MapTy) (c : lru_cache) : lru_cache :=
  {| dict := d; cache := cache c; limit := limit c |}.
Definition with_cache (l : ListTy) (c : lru_cache) : lru_cache :=
  {| dict := dict c; cache := l; limit := limit c |}.

(** One node from a container's allocator, constructed in place: undefined
    when the slot handed out lies outside its block. *)
Definition new_node (use_free_list : bool) (a : pool.t)
    : outcome (pointer * pool.t) :=
  match pool.allocate use_free_list AllocBlockSize 1 a with
  | Ok (p, a', _) =>
      if pool.in_bounds a' p then Ok (p, a')
      else Undefined "node constructed outside its block"
  | AssertionFailed msg => AssertionFailed msg
  | Undefined what => Undefined what
  end.

(** *** The operations of [dict] used by the cache *)

(** [dict.find(key)]; [None] is [dict.end()]. *)
Definition dict_find (key : K) : M (option pointer) :=
  λ c, Ok (m_index (dict c) !! key, c).

(** [dict.size()] *)
Definition dict_size : M nat := λ c, Ok (size (m_index (dict c)), c).

(** [it->first] and [*ptr] for a [const TKey *ptr] *)
Definition map_key (it : pointer) : M K :=
  λ c, match m_nodes (dict c) !! it with
       | Some (k, _) => Ok (k, c)
       | None => Undefined "no map node at this address"
       end.

(** [it->second] *)
Definition map_mapped (it : pointer) : M pointer :=
  λ c, match m_nodes (dict c) !! it with
       | Some (_, pos) => Ok (pos, c)
       | None => Undefined "no map node at this address"
       end.

(** [dict.try_emplace(key, pos)] *)
Definition dict_try_emplace (key : K) (pos : pointer) : M (pointer * bool) :=
  λ c, let d := dict c in
       match m_index d !! key with
       | Some it => Ok ((it, false), c)
       | None =>
           match new_node MapAllocTy_UseFreeList (m_alloc d) with
           | Ok (p, a') =>
               Ok ((p, true),
                   with_dict {| m_alloc := a';
                                m_index := <[key := p]> (m_index d);
                                m_nodes := <[p := (key, pos)]> (m_nodes d) |} c)
           | AssertionFailed msg => AssertionFailed msg
           | Undefined what => Undefined what
           end
       end.

(** [dict.extract(key)]; [None] is the empty node handle. *)
Definition dict_extract (key : K) : M (option pointer) :=
  λ c, let d := dict c in
       match m_index d !! key with
       | Some nod =>
           Ok (Some nod,
               with_dict {| m_alloc := m_alloc d;
                            m_index := delete key (m_index d);
                            m_nodes := m_nodes d |} c)
       | None => Ok (None, c)
       end.

(** [nod.key() = key] *)
Definition nod_set_key (nod : pointer) (key : K) : M unit :=
  λ c, let d := dict c in
       match m_nodes d !! nod with
       | Some (_, pos) =>
           Ok (tt, with_dict {| m_alloc := m_alloc d;
                                m_index := m_index d;
                                m_nodes := <[nod := (key, pos)]> (m_nodes d) |} c)
       | None => Undefined "no map node at this address"
       end.

(** [nod.mapped() = pos] *)
Definition nod_set_mapped (nod : pointer) (pos : pointer) : M unit :=
  λ c, let d := dict c in
       match m_nodes d !! nod with
       | Some (k, _) =>
           Ok (tt, with_dict {| m_alloc := m_alloc d;
                                m_index := m_index d;
                                m_nodes := <[nod := (k, pos)]> (m_nodes d) |} c)
       | None => Undefined "no map node at this address"
       end.

(** [dict.insert(std::move(nod)).inserted] *)
Definition dict_insert_node (nod : pointer) : M bool :=
  λ c, let d := dict c in
       match m_nodes d !! nod with
       | Some (k, _) =>
           match m_index d !! k with
           | Some _ => Ok (false, c)
           | None =>
               Ok (true,
                   with_dict {| m_alloc := m_alloc d;
                                m_index := <[k := nod]> (m_index d);
                                m_nodes := m_nodes d |} c)
           end
       | None => Undefined "no map node at this address"
       end.

(** *** The operations of [cache] used by the cache *)

(** [cache.empty()] *)
Definition cache_empty : M bool :=
  λ c, Ok (bool_decide (l_order (cache c) = []), c).

(** [cache.begin()] and [&cache.front()]: the first node. *)
Definition cache_front : M pointer :=
  λ c, match l_order (cache c) with
       | it :: _ => Ok (it, c)
       | [] => Undefined "front of an empty list"
       end.

(** [it->first] *)
Definition node_first (it : pointer) : M (option pointer) :=
  λ c, match l_nodes (cache c) !! it with
       | Some (kp, _) => Ok (kp, c)
       | None => Undefined "no list node at this address"
       end.

(** [it->second] read through an iterator or a reference *)
Definition node_second (it : pointer) : M V :=
  λ c, match l_nodes (cache c) !! it with
       | Some (_, v) => Ok (v, c)
       | None => Undefined "no list node at this address"
       end.

(** [it->first = kp] *)
Definition node_set_first (it : pointer) (kp : option pointer) : M unit :=
  λ c, let l := cache c in
       match l_nodes l !! it with
       | Some (_, v) =>
           Ok (tt, with_cache {| l_alloc := l_alloc l;
                                 l_order := l_order l;
                                 l_nodes := <[it := (kp, v)]> (l_nodes l) |} c)
       | None => Undefined "no list node at this address"
       end.

(** [it->second = value] *)
Definition node_set_second (it : pointer) (value : V) : M unit :=
  λ c, let l := cache c in
       match l_nodes l !! it with
       | Some (kp, _) =>
           Ok (tt, with_cache {| l_alloc := l_alloc l;
                                 l_order := l_order l;
                                 l_nodes := <[it := (kp, value)]> (l_nodes l) |} c)
       | None => Undefined "no list node at this address"
       end.

(** [cache.insert(cache.end(), {kp, value})] *)
Definition cache_insert_end (kp : option pointer) (value : V) : M pointer :=
  λ c, let l := cache c in
       match new_node ListAllocTy_UseFreeList (l_alloc l) with
       | Ok (p, a') =>
           Ok (p, with_cache {| l_alloc := a';
                                l_order := l_order l ++ [p];
                                l_nodes := <[p := (kp, value)]> (l_nodes l) |} c)
       | AssertionFailed msg => AssertionFailed msg
       | Undefined what => Undefined what
       end.

(** The list after [cache.splice(cache.end(), cache, it)]. *)
Definition spliced (it : pointer) (l : ListTy) : ListTy :=
  {| l_alloc := l_alloc l;
     l_order := filter (λ x, x ≠ it) (l_order l) ++ [it];
     l_nodes := l_nodes l |}.

(** [cache.splice(cache.end(), cache, it)]: unlink the node [it] and link it
    before [end()]. *)
Definition cache_splice_end (it : pointer) : M unit :=
  λ c, let l := cache c in
       if bool_decide (it ∈ l_order l) then Ok (tt, with_cache (spliced it l) c)
       else Undefined "splice of a node that is not in the list".

(** *** Construction *)

Definition empty (reserved : N) (lim : nat) : lru_cache :=
  {| dict := {| m_alloc := pool.copy (pool.create reserved);
                m_index := ∅; m_nodes := ∅ |};
     cache := {| l_alloc := pool.copy (pool.create reserved);
                 l_order := []; l_nodes := ∅ |};
     limit := lim |}.

(** [explicit lru_cache(size_t limit)] *)
Definition create (lim : nat) : outcome lru_cache :=
  let c := empty (pool.wrap32 (N.min (N.of_nat lim) AllocBlockSize)) lim in
  if bool_decide (lim = 0%nat) then
    AssertionFailed "The cache-limit may not be 0"
  else Ok c.

(** [explicit lru_cache(size_t limit, unsigned initCap)];
    [dict.reserve(initCap)] only sizes the bucket array. *)
Definition create_reserved (lim : nat) (initCap : N) : outcome lru_cache :=
  let c := empty initCap lim in
  if bool_decide (lim = 0%nat) then
    AssertionFailed "The cache-limit may not be 0"
  else Ok c.

(** *** Member functions *)

Definition read_limit : M nat := λ c, Ok (limit c, c).

(** [std::pair<TValue *, bool> insert(K &&key, V &&value, bool update)] *)
Definition insert (key : K) (value : V) (update : bool) : M (pointer * bool) :=
  do it <- dict_find key;
  match it with
  | Some it =>
      do lstIt <- map_mapped it;
      do_ cache_splice_end lstIt;
      let retptr := lstIt in
      do_ (if update then node_set_second retptr value else ret tt);
      ret (retptr, false)
  | None =>
      do sz <- dict_size;
      do lim <- read_limit;
      (if bool_decide (sz ≠ lim) then
         do pos <- cache_insert_end None value;
         do r <- dict_try_emplace key pos;
         do_ node_set_first pos (Some r.1);
         ret (pos, true)
       else
         do e <- cache_empty;
         do_ assert (negb e) "!cache.empty()";
         do front <- cache_front;
         do kp <- node_first front;
         match kp with
         | None => undefined "null key pointer"
         | Some kp =>
             do old <- map_key kp;
             do nod <- dict_extract old;
             match nod with
             | None => λ _, AssertionFailed "!nod.empty()"
             | Some nod =>
                 do_ nod_set_key nod key;
                 do b <- cache_front;
                 do_ nod_set_mapped nod b;
                 do_ node_set_first front (Some nod);
                 do_ node_set_second front value;
                 do inserted <- dict_insert_node nod;
                 do_ assert inserted "ret.inserted";
                 do b <- cache_front;
                 do_ cache_splice_end b;
                 ret (front, true)
             end
         end)
  end.

(** [TValue &getOrInsert(K &&key, V &&value)] *)
Definition getOrInsert (key : K) (value : V) : M pointer :=
  do r <- insert key value false;
  ret r.1.

(** [get(const TKey &key)], const and non-const: the same body. *)
Definition get (key : K) : M (option pointer) :=
  do it <- dict_find key;
  match it with
  | Some it =>
      do pos <- map_mapped it;
      do_ cache_splice_end pos;
      do pos <- map_mapped it;
      ret (Some pos)
  | None => ret None
  end.

(** [peek(const TKey &key)], const and non-const: the same body. *)
Definition peek (key : K) : M (option pointer) :=
  do it <- dict_find key;
  match it with
  | Some it =>
      do pos <- map_mapped it;
      ret (Some pos)
  | None => ret None
  end.

(** [forEach(Fn &&fn)], const and non-const: the same body.  The callback is
    given by its effect [fn key value] on its own state; a callback that
    writes through its arguments or calls back into the cache is outside the
    model. *)
Fixpoint for_each_from {A} (fn : K → V → A → A) (nodes : list pointer)
    (acc : A) : M A :=
  match nodes with
  | [] => ret acc
  | it :: rest =>
      do kp <- node_first it;
      match kp with
      | None => undefined "null key pointer"
      | Some kp =>
          do k <- map_key kp;
          do v <- node_second it;
          for_each_from fn rest (fn k v acc)
      end
  end.

Definition forEach {A} (fn : K → V → A → A) (acc : A) : M A :=
  λ c, for_each_from fn (l_order (cache c)) acc c.

(** *** Sequences of public operations *)

Inductive op : Type :=
  | Insert (key : K) (value : V) (update : bool)
  | GetOrInsert (key : K) (value : V)
  | Get (key : K)
  | Peek (key : K)
  | ForEach.

(** The callback used when a [ForEach] occurs in a sequence: it collects what
    it is called with. *)
Definition collect (k : K) (v : V) (seen : list (K * V)) : list (K * V) :=
  seen ++ [(k, v)].

Definition discard {A} (m : M A) : lru_cache → outcome lru_cache :=
  λ c, match m c with
       | Ok (_, c') => Ok c'
       | AssertionFailed msg => AssertionFailed msg
       | Undefined what => Undefined what
       end.

Definition step (o : op) : lru_cache → outcome lru_cache :=
  match o with
  | Insert key value update => discard (insert key value update)
  | GetOrInsert key value => discard (getOrInsert key value)
  | Get key => discard (get key)
  | Peek key => discard (peek key)
  | ForEach => discard (forEach collect [])
  end.

Fixpoint run (ops : list op) (c : lru_cache) : outcome lru_cache :=
  match ops with
  | [] => Ok c
  | o :: rest =>
      match step o c with
      | Ok c' => run rest c'
      | AssertionFailed msg => AssertionFailed msg
      | Undefined what => Undefined what
      end
  end.

(** A sequence of [insert] calls, given by key, value and update flag. *)
Definition inserts (kvs : list (K * V * bool)) : list op :=
  (λ x, Insert x.1.1 x.1.2 x.2) <$> kvs.

(** A cache as either constructor leaves it; [initCap] is an [unsigned]. *)
Definition constructed (c : lru_cache) : Prop :=
  (∃ lim, create lim = Ok c) ∨
  (∃ lim initCap, initCap < 2 ^ 32 ∧ create_reserved lim initCap = Ok c).

(** A cache constructed with capacity [lim] whose allocators start with room
    for at least one node: always so for [lru_cache(limit)], and for
    [lru_cache(limit, initCap)] when [initCap >= 1]. *)
Definition constructed_with (lim : nat) (c : lru_cache) : Prop :=
  create lim = Ok c ∨
  (∃ initCap, 1 ≤ initCap < 2 ^ 32 ∧ create_reserved lim initCap = Ok c).

(** *** Observations *)

(** The key and value a list node stands for. *)
Definition entry_at (c : lru_cache) (it : pointer) : option (K * V) :=
  match l_nodes (cache c) !! it with
  | Some (Some kp, v) =>
      match m_nodes (dict c) !! kp with
      | Some (k, _) => Some (k, v)
      | None => None
      end
  | _ => None
  end.

(** The cached entries from least to most recently used. *)
Definition entries (c : lru_cache) : list (K * V) :=
  omap (entry_at c) (l_order (cache c)).

Definition keys (c : lru_cache) : list K := (entries c).*1.

(** The value a pointer or reference returned by a member function designates. *)
Definition deref (c : lru_cache) (p : pointer) : option V :=
  snd <$> l_nodes (cache c) !! p.

(** The value stored for a key: what [dict.find(key)->second->second] reads. *)
Definition stored (c : lru_cache) (key : K) : option V :=
  match m_index (dict c) !! key with
  | Some it =>
      match m_nodes (dict c) !! it with
      | Some (_, pos) => deref c pos
      | None => None
      end
  | None => None
  end.

Definition present (c : lru_cache) (key : K) : Prop :=
  is_Some (m_index (dict c) !! key).

(** The key that the next at-capacity insert of an absent key overwrites. *)
Definition lru_key (c : lru_cache) : option K := head (keys c).

(** *** Histories *)

(** The key whose recency an operation bumps in state [c]: every insert, and
    a get that hits. *)
Definition touched (o : op) (c : lru_cache) : option K :=
  match o with
  | Insert key _ _ | GetOrInsert key _ => Some key
  | Get key =>
      match m_index (dict c) !! key with Some _ => Some key | None => None end
  | Peek _ | ForEach => None
  end.

(** The bumps of a run, one entry per operation executed. *)
Fixpoint touches (ops : list op) (c : lru_cache) : list (option K) :=
  match ops with
  | [] => []
  | o :: rest =>
      match step o c with
      | Ok c' => touched o c :: touches rest c'
      | _ => []
      end
  end.

(** The position in the history of the last bump of [k]. *)
Fixpoint last_touch (h : list (option K)) (k : K) : option nat :=
  match h with
  | [] => None
  | x :: h' =>
      match last_touch h' k with
      | Some t => Some (S t)
      | None => if decide (x = Some k) then Some 0%nat else None
      end
  end.

(** The keys a sequence of operations asks to insert. *)
Definition inserted_key (o : op) : gset K :=
  match o with
  | Insert key _ _ | GetOrInsert key _ => {[ key ]}
  | _ => ∅
  end.

Definition inserted_keys (ops : list op) : gset K :=
  ⋃ (inserted_key <$> ops).

(** The list node a key leads to: [dict.find(key)->second]. *)
Definition node_of (c : lru_cache) (key : K) : option pointer :=
  match m_index (dict c) !! key with
  | Some it =>
      match m_nodes (dict c) !! it with
      | Some (_, pos) => Some pos
      | None => None
      end
  | None => None
  end.

(** The key an operation can bump, whether it hits or not. *)
Definition asked_key (o : op) : gset K :=
  match o with
  | Insert key _ _ | GetOrInsert key _ | Get key => {[ key ]}
  | Peek _ | ForEach => ∅
  end.

Definition asked_keys (ops : list op) : gset K := ⋃ (asked_key <$> ops).

(** *** The invariant of the representation *)

(** The list has no node twice; every list node points at a map node that
    holds its key and points back at it, and the index finds that map node
    under that key; every indexed key leads to a map node with that key and
    on to a list node that points back; index and list have the same size, at most [limit]; the nodes come from below the cursors
    of the two allocators, which were constructed with [reserved]. *)
Definition wf (reserved : N) (c : lru_cache) : Prop :=
  NoDup (l_order (cache c)) ∧
  (∀ it, it ∈ l_order (cache c) →
     ∃ kp k v, l_nodes (cache c) !! it = Some (Some kp, v) ∧
               m_nodes (dict c) !! kp = Some (k, it) ∧
               m_index (dict c) !! k = Some kp) ∧
  (∀ k kp, m_index (dict c) !! k = Some kp →
     ∃ it v, m_nodes (dict c) !! kp = Some (k, it) ∧
             it ∈ l_order (cache c) ∧
             l_nodes (cache c) !! it = Some (Some kp, v)) ∧
  size (m_index (dict c)) = length (l_order (cache c)) ∧
  (length (l_order (cache c)) ≤ limit c)%nat ∧
  (1 ≤ limit c)%nat ∧
  (∀ it, it ∈ l_order (cache c) → pool.allocated (l_alloc (cache c)) it) ∧
  (∀ k kp, m_index (dict c) !! k = Some kp →
     pool.allocated (m_alloc (dict c)) kp) ∧
  pool.inv AllocBlockSize reserved (l_alloc (cache c)) ∧
  pool.inv AllocBlockSize reserved (m_alloc (dict c)).

(** *** The cache as the list of its entries *)

(** What the member functions do to [entries], written on the list alone;
    used to reason about sequences of operations. *)
Fixpoint assoc (k : K) (es : list (K * V)) : option V :=
  match es with
  | [] => None
  | (k', v) :: es' => if decide (k' = k) then Some v else assoc k es'
  end.

Definition without (k : K) (es : list (K * V)) : list (K * V) :=
  filter (λ e, e.1 ≠ k) es.

Definition entries_insert (lim : nat) (k : K) (v : V) (update : bool)
    (es : list (K * V)) : list (K * V) :=
  match assoc k es with
  | Some v0 => without k es ++ [(k, if update then v else v0)]
  | None =>
      if decide (length es ≠ lim) then es ++ [(k, v)]
      else tail es ++ [(k, v)]
  end.

Definition entries_get (k : K) (es : list (K * V)) : list (K * V) :=
  match assoc k es with
  | Some v0 => without k es ++ [(k, v0)]
  | None => es
  end.

Definition entries_step (lim : nat) (o : op) (es : list (K * V))
    : list (K * V) :=
  match o with
  | Insert k v update => entries_insert lim k v update es
  | GetOrInsert k v => entries_insert lim k v false es
  | Get k => entries_get k es
  | Peek _ | ForEach => es
  end.

(** [k1] was last bumped before [k2] in the history [h]. *)
Definition bumped_before (h : list (option K)) (k1 k2 : K) : Prop :=
  ∃ t1 t2, last_touch h k1 = Some t1 ∧ last_touch h k2 = Some t2 ∧ (t1 < t2)%nat.

End cache.

End lru.

(** ** A concrete cache

    [lru_cache<unsigned, unsigned, 4> fresh(2)], and the state [warm] it is in
    after [insert(1, 10)], [insert(2, 20)], [get(1)], [insert(3, 30)]. *)

Module example.

Definition AllocBlockSize : N := 4.

Definition fresh : @lru.lru_cache nat _ _ nat := lru.empty 2 2.

Definition warm_up : list (@lru.op nat nat) :=
  [lru.Insert 1%nat 10%nat false; lru.Insert 2%nat 20%nat false;
   lru.Get 1%nat; lru.Insert 3%nat 30%nat false].

Definition warm : @lru.lru_cache nat _ _ nat :=
  match lru.run AllocBlockSize warm_up fresh with
  | Ok c => c
  | _ => fresh
  end.

(** The scenario of the specification, capacity 3, values written as
    strings. *)
Definition scenario_fresh : @lru.lru_cache nat _ _ string := lru.empty 3 3.

Definition scenario (ops : list (@lru.op nat string))
    : option (list (nat * string)) :=
  match lru.run AllocBlockSize ops scenario_fresh with
  | Ok c => Some (lru.entries c)
  | _ => None
  end.

(** A cache with room left, and the full cache after one more insert. *)
Definition first_up : list (@lru.op nat nat) := [lru.Insert 1%nat 10%nat false].

Definition first : @lru.lru_cache nat _ _ nat :=
  match lru.run AllocBlockSize first_up fresh with
  | Ok c => c
  | _ => fresh
  end.

Definition later_up : list (@lru.op nat nat) := [lru.Insert 5%nat 50%nat false].

Definition later : @lru.lru_cache nat _ _ nat :=
  match lru.run AllocBlockSize later_up warm with
  | Ok c => c
  | _ => warm
  end.

(** Calls on a [pool_allocator<T, _, 4>(2)]. *)
Definition calls : list pool.call :=
  [pool.Allocate 1; pool.Allocate 1; pool.Allocate 1;
   pool.Deallocate (Slot 0 0) 1; pool.Allocate 3].

Definition after_calls : pool.t * list mem_event :=
  match pool.run_calls true AllocBlockSize calls (pool.create 2) with
  | Ok x => x
  | _ => (pool.create 2, [])
  end.

End example.

(** ** The test program: memoized Fibonacci numbers *)

Module fibtest.

(** Arithmetic of [uint64_t]. *)
Definition wrap64 (n : N) : N := n mod 2 ^ 64.

Section fib.
(** The template parameter of the cache, and the order in which the compiler
    evaluates the two operands of [fib(n - 1, cache) + fib(n - 2, cache)],
    which the language leaves open: left operand first, or right. *)
Variable AllocBlockSize : N.
Variable left_first : bool.

(** [uint64_t fib(uint64_t n, TCache &cache)], by recursion on [n]. *)
Fixpoint fib (n : nat) : @lru.M N _ _ N N :=
  match n with
  | O => lru.ret 0
  | S O => lru.ret 1
  | S (S m as p) =>
      lru.bind (lru.get (N.of_nat n)) (λ prev,
        match prev with
        | Some it => lru.node_second it
        | None =>
            lru.bind
              (if left_first then
                 lru.bind (fib p) (λ x, lru.bind (fib m) (λ y, lru.ret (x, y)))
               else
                 lru.bind (fib m) (λ y, lru.bind (fib p) (λ x, lru.ret (x, y))))
              (λ xy,
                 let r := wrap64 (xy.1 + xy.2) in
                 lru.bind (lru.insert AllocBlockSize (N.of_nat n) r false)
                   (λ _, lru.ret r))
        end)
  end.
End fib.

(** [uint64_t fibIt(uint64_t n)]: the loop runs for [i = 2 .. n - 1] on the
    pair [(a, b)]. *)
Definition fibIt (n : N) : N :=
  if n <? 2 then n
  else (N.iter (n - 2) (λ ab, (ab.2, wrap64 (ab.1 + ab.2))) (1, 1)).2.

(** [int main()]: the two numbers it prints, with the default
    [AllocBlockSize] of [lru_cache<uint64_t, uint64_t>]. *)
Definition main (left_first : bool) : outcome (N * N) :=
  match lru.create_reserved 10 20 with
  | Ok cache =>
      match fib 1024 left_first 65 cache with
      | Ok (x, _) => Ok (x, fibIt 65)
      | AssertionFailed msg => AssertionFailed msg
      | Undefined what => Undefined what
      end
  | AssertionFailed msg => AssertionFailed msg
  | Undefined what => Undefined what
  end.

(** The Fibonacci numbers, and a cache whose entries are Fibonacci numbers
    as [uint64_t] computes them. *)
Fixpoint fibonacci (n : nat) : N :=
  match n with
  | O => 0
  | S O => 1
  | S (S m as p) => fibonacci p + fibonacci m
  end.

Definition memo_ok (c : @lru.lru_cache N _ _ N) : Prop :=
  ∀ m v, lru.stored c (N.of_nat m) = Some v → v = wrap64 (fibonacci m).

End fibtest.

(** * Properties of the pool allocator *)

(** Linear arithmetic over [N] with the bound of [unsigned] evaluated. *)
Ltac lia32 := change (2 ^ 32) with 4294967296 in *; lia.

Section pool_facts.
Variable UseFreeList : bool.
Variable BlockSize : N.
(** [static_assert(BlockSize != 0)] and the range of [unsigned]. *)
Hypothesis BlockSize_range : 1 ≤ BlockSize < 2 ^ 32.

Local Abbreviation allocate := (pool.allocate UseFreeList BlockSize).
Local Abbreviation deallocate := (pool.deallocate UseFreeList).

Lemma wrap32_small n : n < 2 ^ 32 → pool.wrap32 n = n.
Proof using. intros. unfold pool.wrap32. by apply N.mod_small. Qed.

Lemma wrap32_lt n : pool.wrap32 n < 2 ^ 32.
Proof using. unfold pool.wrap32. by apply N.mod_lt. Qed.

Lemma inv_create reserved :
  reserved < 2 ^ 32 → pool.inv BlockSize reserved (pool.create reserved).
Proof. by intros; repeat split. Qed.

Lemma inv_allocate reserved n a p a' ev :
  pool.inv BlockSize reserved a →
  allocate n a = Ok (p, a', ev) →
  pool.inv BlockSize reserved a'.
Proof.
  intros (Hr & Hi & Hb & Hp) Ha. unfold pool.allocate in Ha.
  destruct (negb (n =? 1)); [by simplify_eq|].
  destruct (if UseFreeList then pool.freeList a else None).
  { simplify_eq. by repeat split. }
  destruct (N.eqb_spec (pool.index a) (pool.currBlockSize a)) as [He|Hne].
  - destruct (pool.pool a) as [|m nxt] eqn:Hpool; simplify_eq; simpl in *.
    + destruct Hp as [_ Hc]. rewrite Hc.
      split; [done|]. split; [simpl; lia32|]. split; [done|]. simpl.
      split; [done|]. split; [|done].
      destruct (decide (reserved = 0)); [by right|left; lia].
    + destruct Hp as (-> & _ & Hshape).
      split; [done|]. split; [simpl; lia32|]. split; [simpl; lia|]. simpl.
      split; [done|]. split; [left; lia|].
      by f_equal.
  - destruct (pool.pool a) as [|m nxt] eqn:Hpool; simplify_eq; simpl in *.
    destruct Hp as (-> & Hc & Hshape).
    split; [done|]. split; [apply wrap32_lt|]. split; [done|]. simpl.
    split; [done|]. split; [|done].
    destruct Hc as [Hc|Hc]; [|by right]. left.
    rewrite wrap32_small by lia32. lia.
Qed.

Lemma inv_deallocate reserved p n a :
  pool.inv BlockSize reserved a →
  pool.inv BlockSize reserved (deallocate p n a).1.
Proof.
  intros Hinv. unfold pool.deallocate.
  destruct (negb (n =? 1)); [done|]. by destruct UseFreeList.
Qed.

Lemma reachable_inv reserved a :
  reserved < 2 ^ 32 →
  pool.reachable UseFreeList BlockSize reserved a →
  pool.inv BlockSize reserved a.
Proof.
  intros Hr. induction 1 as [|c a a' ev _ IH Hstep]; [by apply inv_create|].
  destruct c as [n|p n]; simpl in Hstep.
  - destruct (allocate n a) as [[[q a''] ev']| |] eqn:Ha; simplify_eq.
    eauto using inv_allocate.
  - simplify_eq. replace a' with (deallocate p n a).1 by by rewrite Hstep.
    by apply inv_deallocate.
Qed.

(** *** The bump cursor *)

Lemma pool_shape_head reserved n nxt :
  n :: nxt = replicate (length nxt) BlockSize ++ [reserved] →
  n = BlockSize ∨ n = reserved.
Proof.
  destruct nxt as [|m nxt]; simpl; intros Heq; simplify_eq; [by right|by left].
Qed.

Lemma inv_cursor reserved a n nxt :
  1 ≤ reserved →
  pool.inv BlockSize reserved a →
  pool.pool a = n :: nxt →
  1 ≤ pool.index a ≤ n ∧ n = pool.currBlockSize a.
Proof.
  intros Hr (_ & _ & _ & Hp) Hpool. rewrite Hpool in Hp.
  destruct Hp as (Hn & Hc & Hshape).
  destruct (pool_shape_head _ _ _ Hshape); destruct Hc; split; try done; lia.
Qed.

Lemma block_slots_head n nxt :
  reverse (n :: nxt) !! pool.block_addr nxt = Some n.
Proof using.
  unfold pool.block_addr. rewrite reverse_cons.
  rewrite lookup_app_r by (by rewrite length_reverse).
  by rewrite length_reverse, Nat.sub_diag.
Qed.

Lemma allocate_one_ok reserved a :
  1 ≤ reserved →
  pool.inv BlockSize reserved a →
  UseFreeList = false ∨ pool.freeList a = None →
  ∃ p a' ev, allocate 1 a = Ok (p, a', ev) ∧ pool.in_bounds a' p = true.
Proof.
  intros Hr Hinv Hfl. unfold pool.allocate. simpl.
  replace (if UseFreeList then pool.freeList a else None)
    with (@None pointer) by (by destruct Hfl as [-> | ->]; [|destruct UseFreeList]).
  destruct (N.eqb_spec (pool.index a) (pool.currBlockSize a)) as [He|Hne].
  - destruct (pool.pool a) as [|m nxt] eqn:Hpool.
    + do 3 eexists; split; [done|]. unfold pool.in_bounds, pool.block_slots.
      simpl. destruct Hinv as (_ & _ & _ & Hp). rewrite Hpool in Hp.
      destruct Hp as [_ ->]. apply bool_decide_eq_true. lia.
    + do 3 eexists; split; [done|]. unfold pool.in_bounds, pool.block_slots.
      cbn [pool.pool]. rewrite block_slots_head.
      apply bool_decide_eq_true. lia.
  - destruct (pool.pool a) as [|m nxt] eqn:Hpool.
    + destruct Hinv as (_ & _ & _ & Hp). rewrite Hpool in Hp.
      destruct Hp as [Hx Hy]. by rewrite Hx, Hy in Hne.
    + destruct (inv_cursor _ _ _ _ Hr Hinv Hpool) as [Hc ->].
      do 3 eexists; split; [done|]. unfold pool.in_bounds, pool.block_slots.
      cbn [pool.pool]. rewrite block_slots_head.
      apply bool_decide_eq_true. lia.
Qed.

Lemma allocate_pool n a p a' ev :
  allocate n a = Ok (p, a', ev) →
  pool.pool a' = pool.pool a ∨ ∃ sz, pool.pool a' = sz :: pool.pool a.
Proof using.
  unfold pool.allocate. intros Ha.
  repeat (case_match; simplify_eq; simpl in *); eauto.
Qed.


Lemma wrap32_succ_pos i j :
  j < 2 ^ 32 → i ≤ j → pool.wrap32 (j + 1) ≠ 0 → i < pool.wrap32 (j + 1).
Proof.
  unfold pool.wrap32. intros Hj Hij Hw.
  destruct (decide (j + 1 < 2 ^ 32)) as [Hlt|Hge].
  - rewrite N.mod_small by done. lia.
  - replace (j + 1) with (2 ^ 32) in Hw by lia32. done.
Qed.

Lemma allocated_mono reserved n a p a' ev q :
  pool.inv BlockSize reserved a →
  allocate n a = Ok (p, a', ev) →
  pool.allocated a q → pool.allocated a' q.
Proof.
  intros (Hr & Hi & Hb & Hp) Ha Hq. unfold pool.allocate in Ha.
  destruct q as [blk i|]; [|done].
  destruct (negb (n =? 1)); [by simplify_eq|].
  destruct (if UseFreeList then pool.freeList a else None); [by simplify_eq|].
  destruct (N.eqb_spec (pool.index a) (pool.currBlockSize a)) as [He|Hne].
  - destruct (pool.pool a) as [|m nxt] eqn:Hpool; simplify_eq;
      unfold pool.allocated in *; simpl in *; rewrite ?Hpool in *;
      simpl in *; left; lia.
  - destruct (pool.pool a) as [|m nxt] eqn:Hpool; simplify_eq.
    unfold pool.allocated in *; simpl in *. rewrite Hpool in *.
    destruct Hq as [Hq|[Hq Hq']]; [by left|right; split; [done|]].
    destruct Hp as (-> & Hc & _).
    destruct (decide (pool.wrap32 (pool.index a + 1) = 0)); [by right|left].
    destruct Hq' as [Hq'|Hq']; [apply wrap32_succ_pos; [done|lia|done]|].
    rewrite Hq' in *. destruct Hc as [?|Hc]; [lia|]. by rewrite Hc in Hne.
Qed.

Lemma allocate_one_fresh reserved a p a' ev :
  pool.inv BlockSize reserved a →
  UseFreeList = false ∨ pool.freeList a = None →
  allocate 1 a = Ok (p, a', ev) →
  ¬ pool.allocated a p ∧ pool.allocated a' p.
Proof.
  intros (Hr & Hi & Hb & Hp) Hfl Ha. unfold pool.allocate in Ha. simpl in Ha.
  replace (if UseFreeList then pool.freeList a else None)
    with (@None pointer) in Ha
    by (by destruct Hfl as [-> | ->]; [|destruct UseFreeList]).
  destruct (N.eqb_spec (pool.index a) (pool.currBlockSize a)) as [He|Hne].
  - destruct (pool.pool a) as [|m nxt] eqn:Hpool; simplify_eq;
      unfold pool.allocated, pool.block_addr; simpl; rewrite ?Hpool; simpl;
      (split; [lia|right; split; [done|left; lia]]).
  - destruct (pool.pool a) as [|m nxt] eqn:Hpool; simplify_eq.
    destruct Hp as (-> & Hc & _).
    unfold pool.allocated, pool.block_addr; simpl; rewrite ?Hpool; simpl.
    split.
    + intros [?|[_ [?|H0]]]; [lia..|]. rewrite H0 in *. destruct Hc; lia.
    + right. split; [done|].
      destruct (decide (pool.wrap32 (pool.index a + 1) = 0)); [by right|left].
      apply wrap32_succ_pos; [done|lia|done].
Qed.

Lemma in_use_reachable reserved a live given :
  pool.in_use UseFreeList BlockSize reserved a live given →
  pool.reachable UseFreeList BlockSize reserved a.
Proof.
  induction 1 as [|n a live given p a' ev _ IH Ha|p n a live given _ IH Hin].
  - constructor.
  - apply (pool.reachable_step _ _ _ (pool.Allocate n) a a' ev IH).
    simpl. by rewrite Ha.
  - apply (pool.reachable_step _ _ _ (pool.Deallocate p n) a _
             (deallocate p n a).2 IH).
    simpl. by destruct (deallocate p n a).
Qed.

Lemma in_use_inv reserved a live given :
  reserved < 2 ^ 32 →
  pool.in_use UseFreeList BlockSize reserved a live given →
  pool.inv BlockSize reserved a.
Proof. eauto using reachable_inv, in_use_reachable. Qed.

(** *** The free list under the allocator contract *)






End pool_facts.

Section pool_blocks.
Variable BlockSize : N.
Hypothesis BlockSize_range : 1 ≤ BlockSize < 2 ^ 32.

Lemma release_chain_blocks p :
  pool.release_chain p = DeleteBlock <$> reverse (seq 0 (length p)).
Proof using.
  induction p as [|n nxt IH]; [done|].
  cbn [pool.release_chain length]. rewrite seq_S, reverse_snoc. simpl.
  by rewrite IH.
Qed.

Lemma allocate_no_release UseFreeList n a p a' ev e :
  pool.allocate UseFreeList BlockSize n a = Ok (p, a', ev) →
  e ∈ ev → is_release e = false.
Proof using.
  unfold pool.allocate. intros Ha He.
  repeat (case_match; simplify_eq);
    (by apply elem_of_nil in He) ||
    (apply list_elem_of_singleton in He; by subst).
Qed.

(** Without a free list, what has been handed out as a single slot lies below
    the cursor. *)
Lemma in_use_given_allocated reserved a live given :
  reserved < 2 ^ 32 →
  pool.in_use false BlockSize reserved a live given →
  ∀ p n, (p, n) ∈ given →
    (n = 1 ∧ pool.allocated a p) ∨ (n ≠ 1 ∧ p = Array n).
Proof.
  intros Hr.
  induction 1 as [|n a live given p a' ev Hu IH Ha|p n a live given Hu IH Hin].
  - intros p n Hin. by apply not_elem_of_empty in Hin.
  - pose proof (in_use_inv false BlockSize BlockSize_range _ _ _ _ Hr Hu)
      as Hinv.
    intros q m [Hq|Hq]%elem_of_union.
    + apply elem_of_singleton in Hq. symmetry in Hq. simplify_eq.
      destruct (decide (m = 1)) as [->|Hm].
      * left. split; [done|].
        by apply (allocate_one_fresh false BlockSize BlockSize_range reserved a q
                     a' ev Hinv);
          [left|].
      * right. split; [done|]. unfold pool.allocate in Ha.
        replace (m =? 1) with false in Ha by (symmetry; by apply N.eqb_neq).
        by simplify_eq/=.
    + destruct (IH q m Hq) as [[-> Hal]|?]; [left|by right].
      split; [done|]. eapply allocated_mono; eauto.
  - intros q m Hq. unfold pool.deallocate.
    destruct (negb (n =? 1)); by apply IH.
Qed.

Lemma allocate_one_never_again reserved a live given p a' ev :
  reserved < 2 ^ 32 →
  pool.in_use false BlockSize reserved a live given →
  pool.allocate false BlockSize 1 a = Ok (p, a', ev) →
  ∀ n, (p, n) ∉ given.
Proof.
  intros Hr Hu Ha n Hin.
  pose proof (in_use_inv false BlockSize BlockSize_range _ _ _ _ Hr Hu)
    as Hinv.
  destruct (allocate_one_fresh false BlockSize BlockSize_range reserved a p
              a' ev Hinv
              (or_introl eq_refl) Ha) as [Hfresh Hal].
  destruct (in_use_given_allocated _ _ _ _ Hr Hu p n Hin) as [[_ ?]|[_ ->]];
    [done|]. by destruct Hal.
Qed.

(** C7, as the code has it.  With the free list enabled, [deallocate(ptr, 1)]
    makes [ptr] the head of the free list, storing the old head in the slot,
    and the next [allocate(1)] returns [ptr] and restores the old head; with
    the free list disabled it does nothing.  Either way it calls no release
    function.  No [allocate] or [deallocate] call unlinks a block or releases
    one: the chain before the call is the tail of the chain after it.  The
    destructor releases every linked block, each once, and leaves the chain
    empty. *)
Theorem deallocate_one_and_blocks :
  (∀ a ptr,
     pool.deallocate true ptr 1 a =
       (pool.mk (pool.pool a) (Some ptr)
          (<[ptr := pool.freeList a]> (pool.nextFree a))
          (pool.currBlockSize a) (pool.index a), []) ∧
     pool.allocate true BlockSize 1 (pool.deallocate true ptr 1 a).1 =
       Ok (ptr,
           pool.mk (pool.pool a) (pool.freeList a)
             (<[ptr := pool.freeList a]> (pool.nextFree a))
             (pool.currBlockSize a) (pool.index a), [])) ∧
  (∀ a ptr, pool.deallocate false ptr 1 a = (a, [])) ∧
  (∀ UseFreeList c a,
     match pool.step UseFreeList BlockSize c a with
     | Ok (a', ev) =>
         pool.pool a `suffix_of` pool.pool a' ∧
         (∀ blk, DeleteBlock blk ∉ ev)
     | _ => True
     end) ∧
  (∀ a,
     pool.pool (pool.destroy a).1 = [] ∧
     (pool.destroy a).2 = DeleteBlock <$> pool.linked_blocks a ∧
     NoDup (pool.linked_blocks a) ∧
     (∀ blk, blk ∈ pool.linked_blocks a ↔ is_Some (pool.block_slots a blk))).
Proof using.
  clear BlockSize_range. split; [|split; [|split]].
  - intros a ptr. split; [done|].
    unfold pool.allocate, pool.deallocate. simpl. by rewrite lookup_insert_eq.
  - done.
  - intros U [n|p n] a; simpl.
    + destruct (pool.allocate U BlockSize n a) as [[[q a'] ev]| |] eqn:Ha; [|done..].
      split.
      * destruct (allocate_pool _ _ _ _ _ _ _ Ha) as [->|[sz ->]];
          [done|by apply suffix_cons_r].
      * intros blk Hin. by pose proof (allocate_no_release _ _ _ _ _ _ _ Ha Hin).
    + unfold pool.deallocate. destruct (negb (n =? 1)); [|destruct U]; simpl;
        (split; [done|]); intros blk Hin;
        (by apply elem_of_nil in Hin) ||
        (by apply list_elem_of_singleton in Hin).
  - intros a. unfold pool.destroy, pool.linked_blocks, pool.block_slots. simpl.
    split; [done|]. split; [apply release_chain_blocks|]. split.
    + rewrite reverse_Permutation. apply NoDup_seq.
    + intros blk. rewrite elem_of_reverse, elem_of_seq, lookup_lt_is_Some,
        length_reverse. lia.
Qed.

End pool_blocks.

(** C7 as stated fails for an allocator without free list.  After
    [pool_allocator<T, false, 4>(4)] has handed out slot 0 of block 0,
    [deallocate] of that slot returns the allocator as it was, with no free
    list; the next [allocate(1)] returns slot 1, and no later [allocate(1)]
    returns slot 0 of block 0 again, whatever is released in between. *)
Lemma deallocate_one_not_pushed :
  ∃ a1,
    pool.allocate false 4 1 (pool.create 4) = Ok (Slot 0 0, a1, [NewBlock 0 4]) ∧
    pool.deallocate false (Slot 0 0) 1 a1 = (a1, []) ∧
    pool.freeList (pool.deallocate false (Slot 0 0) 1 a1).1 ≠ Some (Slot 0 0) ∧
    (∃ a2,
       pool.allocate false 4 1 (pool.deallocate false (Slot 0 0) 1 a1).1
       = Ok (Slot 0 1, a2, [])) ∧
    (∀ a live given p a' ev,
       pool.in_use false 4 4 a live given →
       (Slot 0 0, 1) ∈ given →
       pool.allocate false 4 1 a = Ok (p, a', ev) →
       p ≠ Slot 0 0).
Proof.
  eexists. split; [reflexivity|]. split; [reflexivity|]. split; [done|].
  split; [eexists; reflexivity|].
  intros a live given p a' ev Hu Hin Ha ->.
  assert (1 ≤ 4 < 2 ^ 32) as HB by lia32.
  assert (4 < 2 ^ 32) as Hr by lia32.
  by apply (allocate_one_never_again 4 HB 4 a live given (Slot 0 0) a' ev Hr Hu
              Ha 1).
Qed.

(** * Sequences of allocator calls *)

Section pool_accounting.
Variable BlockSize : N.
Hypothesis BlockSize_range : 1 ≤ BlockSize < 2 ^ 32.

Lemma created_app evs1 evs2 :
  pool.created (evs1 ++ evs2) = pool.created evs1 ++ pool.created evs2.
Proof. unfold pool.created. apply omap_app. Qed.

Lemma step_inv UseFreeList r c a a' ev :
  pool.inv BlockSize r a →
  pool.step UseFreeList BlockSize c a = Ok (a', ev) →
  pool.inv BlockSize r a'.
Proof using BlockSize_range.
  intros Hinv Hstep. destruct c as [n|p n]; simpl in Hstep.
  - destruct (pool.allocate UseFreeList BlockSize n a) as [[[p a1] ev1]| |] eqn:Ha;
      [|done..]. simplify_eq. by eapply inv_allocate.
  - injection Hstep as Hd.
    replace a' with (pool.deallocate UseFreeList p n a).1 by (by rewrite Hd).
    by apply inv_deallocate.
Qed.

Lemma step_created UseFreeList r c a a' ev :
  pool.inv BlockSize r a →
  pool.step UseFreeList BlockSize c a = Ok (a', ev) →
  (∀ b, DeleteBlock b ∉ ev) ∧
  ((pool.pool a' = pool.pool a ∧ pool.created ev = []) ∨
   (∃ sz, pool.pool a' = sz :: pool.pool a ∧
          pool.created ev =
            [pool.block_of r BlockSize (length (pool.pool a))])).
Proof using.
  clear BlockSize_range.
  intros (_ & _ & _ & Hshape) Hstep. destruct c as [n|p n]; simpl in Hstep.
  - unfold pool.allocate in Hstep.
    destruct (negb (n =? 1)); [simplify_eq; split; [|by left];
      intros b Hb; apply list_elem_of_singleton in Hb; done|].
    destruct (if UseFreeList then pool.freeList a else None) as [fld|];
      [simplify_eq; split; [|by left]; intros b Hb; inversion Hb|].
    destruct (pool.index a =? pool.currBlockSize a).
    + destruct (pool.pool a) as [|n0 nxt] eqn:Hp; simplify_eq; simpl;
        (split; [intros b Hb; apply list_elem_of_singleton in Hb; done|]);
        right; eexists; (split; [reflexivity|]).
      * destruct Hshape as [_ ->]. done.
      * done.
    + destruct (pool.pool a) as [|n0 nxt] eqn:Hp; [done|]. simplify_eq.
      split; [|by left]. intros b Hb; inversion Hb.
  - unfold pool.deallocate in Hstep.
    destruct (negb (n =? 1)); [simplify_eq; split; [|by left];
      intros b Hb; apply list_elem_of_singleton in Hb; done|].
    destruct UseFreeList; simplify_eq; (split; [|by left]);
      intros b Hb; inversion Hb.
Qed.

Lemma run_calls_created UseFreeList r cs :
  ∀ a a' evs,
    pool.inv BlockSize r a →
    pool.run_calls UseFreeList BlockSize cs a = Ok (a', evs) →
    pool.inv BlockSize r a' ∧
    (∀ b, DeleteBlock b ∉ evs) ∧
    ∃ k, length (pool.pool a') = (length (pool.pool a) + k)%nat ∧
         pool.created evs =
           pool.block_of r BlockSize <$> seq (length (pool.pool a)) k.
Proof using BlockSize_range.
  induction cs as [|c cs IH]; intros a a' evs Hinv Hrun; simpl in Hrun.
  - simplify_eq. split; [done|]. split; [intros b Hb; inversion Hb|].
    exists 0%nat. split; [lia|done].
  - destruct (pool.step UseFreeList BlockSize c a) as [[a1 ev1]| |] eqn:Hstep;
      [|done..].
    destruct (pool.run_calls UseFreeList BlockSize cs a1) as [[a2 evs2]| |] eqn:Hrest;
      [|done..].
    simplify_eq.
    pose proof (step_inv _ _ _ _ _ _ Hinv Hstep) as Hinv1.
    destruct (step_created _ _ _ _ _ _ Hinv Hstep) as [Hno Hcr].
    destruct (IH a1 a' evs2 Hinv1 Hrest) as (Hinv' & Hno' & k & Hlen & Hcr').
    split; [done|]. split.
    { intros b Hb. apply elem_of_app in Hb as [Hb|Hb]; [by eapply Hno|by eapply Hno']. }
    rewrite created_app, Hcr'.
    destruct Hcr as [[Hp ->]|(sz & Hp & ->)]; rewrite Hp in Hlen |- *.
    + exists k. split; [done|]. done.
    + exists (S k). simpl in *. split; [lia|]. done.
Qed.

(** X9. An allocator releases exactly what it created.  Over any sequence of
    [allocate] and [deallocate] calls on a freshly constructed allocator,
    with or without free list, the blocks created are numbered in order from
    0, the first with [reserved] slots and every later one with [BlockSize];
    they are exactly the blocks linked at the end; no call releases a block;
    and the destructor then releases each created block once, newest first,
    and leaves the chain empty. *)
Theorem created_blocks_are_released UseFreeList r cs a evs :
  r < 2 ^ 32 →
  pool.run_calls UseFreeList BlockSize cs (pool.create r) = Ok (a, evs) →
  pool.created evs
    = pool.block_of r BlockSize <$> seq 0 (length (pool.pool a)) ∧
  (pool.created evs).*1 = reverse (pool.linked_blocks a) ∧
  (∀ b, DeleteBlock b ∉ evs) ∧
  (pool.destroy a).2 = DeleteBlock <$> reverse (pool.created evs).*1 ∧
  NoDup (pool.created evs).*1 ∧
  pool.pool (pool.destroy a).1 = [].
Proof using BlockSize_range.
  intros Hr Hrun.
  destruct (run_calls_created UseFreeList r cs _ a evs (inv_create BlockSize r Hr) Hrun)
    as (_ & Hno & k & Hlen & Hcr).
  simpl in Hlen, Hcr. subst k.
  assert ((pool.created evs).*1 = seq 0 (length (pool.pool a))) as Hfst.
  { rewrite Hcr, <- list_fmap_compose. apply list_fmap_id. }
  split; [done|]. rewrite Hfst. unfold pool.linked_blocks.
  split; [by rewrite reverse_involutive|]. split; [done|].
  split; [simpl; apply release_chain_blocks|].
  split; [apply NoDup_seq|done].
Qed.

Lemma slots_shape r k :
  pool.slots (replicate k BlockSize ++ [r]) = N.of_nat k * BlockSize + r.
Proof using.
  clear BlockSize_range.
  induction k as [|k IH]; simpl; [unfold pool.slots; simpl; lia|].
  unfold pool.slots in *. simpl. rewrite IH. lia.
Qed.

Lemma used_step r c a a' ev :
  1 ≤ r →
  pool.inv BlockSize r a →
  pool.step false BlockSize c a = Ok (a', ev) →
  pool.used a' = pool.used a + (if pool.is_single c then 1 else 0).
Proof using BlockSize_range.
  intros Hr Hinv Hstep. destruct c as [n|p n]; simpl in Hstep.
  - unfold pool.allocate in Hstep. simpl.
    destruct (n =? 1) eqn:Hn; simpl in Hstep; [|simplify_eq; lia].
    destruct (pool.pool a) as [|n0 nxt] eqn:Hp.
    + destruct Hinv as (_ & _ & _ & Hshape). rewrite Hp in Hshape.
      destruct Hshape as [Hi Hc].
      rewrite (proj2 (N.eqb_eq _ _)) in Hstep by congruence.
      simplify_eq. unfold pool.used. rewrite Hp. simpl. unfold pool.slots.
      simpl. lia.
    + destruct (inv_cursor BlockSize BlockSize_range r a n0 nxt Hr Hinv Hp)
        as [Hidx Hn0].
      destruct Hinv as (_ & _ & Hc32 & _).
      destruct (pool.index a =? pool.currBlockSize a) eqn:Hfull; simplify_eq.
      * apply N.eqb_eq in Hfull. unfold pool.used. rewrite Hp. simpl.
        unfold pool.slots. simpl. fold (pool.slots nxt). lia.
      * apply N.eqb_neq in Hfull. unfold pool.used. rewrite Hp. simpl.
        rewrite wrap32_small by lia32. lia.
  - unfold pool.deallocate in Hstep. simpl.
    destruct (negb (n =? 1)); simplify_eq; lia.
Qed.

Lemma step_bump_ok r c a :
  1 ≤ r → pool.inv BlockSize r a →
  ∃ a' ev, pool.step false BlockSize c a = Ok (a', ev).
Proof using BlockSize_range.
  intros Hr Hinv. destruct c as [n|p n];
    [|cbn [pool.step]; destruct (pool.deallocate false p n a); eauto].
  cbn [pool.step]. destruct (decide (n = 1)) as [->|Hn].
  - destruct (allocate_one_ok false BlockSize BlockSize_range r a Hr Hinv)
      as (p & a' & ev & Ha & _); [by left|]. rewrite Ha. eauto.
  - unfold pool.allocate. rewrite (proj2 (N.eqb_neq _ _)) by done. simpl. eauto.
Qed.

Lemma singles_cons c cs :
  pool.singles (c :: cs)
  = (if pool.is_single c then 1 else 0) + pool.singles cs.
Proof using.
  clear BlockSize_range.
  unfold pool.singles. destruct (pool.is_single c) eqn:Hc.
  - rewrite filter_cons_True by done. simpl length. lia.
  - rewrite filter_cons_False by (by rewrite Hc). lia.
Qed.

Lemma run_calls_used r cs :
  ∀ a, 1 ≤ r → pool.inv BlockSize r a →
  ∃ a' evs,
    pool.run_calls false BlockSize cs a = Ok (a', evs) ∧
    pool.used a' = pool.used a + pool.singles cs.
Proof using BlockSize_range.
  induction cs as [|c cs IH]; intros a Hr Hinv; simpl.
  - exists a, []. split; [done|]. unfold pool.singles. simpl. lia.
  - destruct (step_bump_ok r c a Hr Hinv) as (a1 & ev1 & Hstep). rewrite Hstep.
    destruct (IH a1 Hr (step_inv _ _ _ _ _ _ Hinv Hstep)) as (a' & evs & -> & Hu).
    eexists _, _. split; [done|].
    rewrite Hu, (used_step r c a a1 ev1 Hr Hinv Hstep), singles_cons. lia.
Qed.

Lemma blocks_for_used r a :
  1 ≤ r → pool.inv BlockSize r a →
  length (pool.pool a) = pool.blocks_for r BlockSize (pool.used a) ∧
  match pool.pool a with
  | [] => pool.used a = 0
  | _ :: nxt => pool.slots nxt < pool.used a ≤ pool.slots (pool.pool a)
  end.
Proof using BlockSize_range.
  intros Hr Hinv. unfold pool.used, pool.blocks_for.
  destruct (pool.pool a) as [|n nxt] eqn:Hp; [done|].
  destruct (inv_cursor BlockSize BlockSize_range r a n nxt Hr Hinv Hp) as [Hidx Hn].
  destruct Hinv as (_ & _ & _ & Hshape). rewrite Hp in Hshape.
  destruct Hshape as (_ & _ & Hshape).
  split; [|unfold pool.slots at 3; simpl; fold (pool.slots nxt); lia].
  rewrite (proj2 (N.eqb_neq _ _)) by lia.
  destruct nxt as [|n' nxt'].
  - simpl in Hshape. simplify_eq. unfold pool.slots. simpl.
    rewrite (proj2 (N.leb_le _ _)) by lia. done.
  - simpl in Hshape. injection Hshape as -> Hnxt.
    assert (pool.slots (n' :: nxt') = N.of_nat (length nxt') * BlockSize + r)
      as -> by (rewrite Hnxt; apply slots_shape).
    rewrite (proj2 (N.leb_gt _ _)) by lia. simpl length. f_equal.
    assert ((N.of_nat (length nxt') * BlockSize + r + pool.index a - r
             + BlockSize - 1) `div` BlockSize = N.of_nat (S (length nxt')))
      as ->; [|by rewrite Nat2N.id].
    symmetry. apply (N.div_unique _ _ _ (pool.index a - 1)); lia.
Qed.

(** X10. Without a free list the allocator creates the least number of
    blocks.  On an allocator constructed with [reserved >= 1], every sequence
    of calls returns; the slots the cursor has passed are as many as the
    [allocate(1)] calls made; and the chain has exactly the number of blocks
    needed for that many slots with a first block of [reserved] slots and
    later blocks of [BlockSize]: a new block is created only when all
    earlier ones are used up.  What is passed to [deallocate] makes no
    difference. *)
Theorem bump_allocation_is_tight r cs :
  1 ≤ r < 2 ^ 32 →
  ∃ a evs,
    pool.run_calls false BlockSize cs (pool.create r) = Ok (a, evs) ∧
    pool.used a = pool.singles cs ∧
    length (pool.pool a) = pool.blocks_for r BlockSize (pool.singles cs) ∧
    (pool.created evs).*1
      = seq 0 (pool.blocks_for r BlockSize (pool.singles cs)) ∧
    match pool.pool a with
    | [] => pool.singles cs = 0
    | _ :: nxt => pool.slots nxt < pool.singles cs ≤ pool.slots (pool.pool a)
    end.
Proof using BlockSize_range.
  intros [Hr1 Hr2].
  pose proof (inv_create BlockSize r Hr2) as Hinv0.
  destruct (run_calls_used r cs (pool.create r) Hr1 Hinv0) as (a & evs & Hrun & Hu).
  change (pool.used (pool.create r)) with 0 in Hu. rewrite N.add_0_l in Hu.
  destruct (run_calls_created false r cs _ a evs Hinv0 Hrun)
    as (Hinv & _ & k & Hlen & Hcr).
  simpl in Hlen, Hcr. subst k.
  destruct (blocks_for_used r a Hr1 Hinv) as [Hb Ht]. rewrite Hu in Hb, Ht.
  exists a, evs. split; [done|]. split; [done|]. split; [done|].
  split; [|done].
  rewrite Hcr, <- list_fmap_compose, <- Hb. apply list_fmap_id.
Qed.

(** X11. Moving an allocator.  The move constructor hands the whole chain,
    the free list, the cursor and the block size to the new allocator, so
    destroying the new allocator releases what destroying the old one would
    have, and destroying what is left of the old one releases nothing.  The
    old one keeps its cursor: when it came from an allocator constructed with
    [reserved >= 1], its next [allocate(1)] is undefined (it indexes a null
    chain) exactly when the cursor of the source was inside its newest block,
    and otherwise starts a fresh chain with a block of the source's current
    block size.  Move assignment releases the blocks of its target first and
    none of its source. *)
Theorem moved_from_allocator UseFreeList r a :
  1 ≤ r < 2 ^ 32 →
  pool.reachable UseFreeList BlockSize r a →
  (pool.move a).1 = a ∧
  (pool.destroy (pool.move a).2).2 = [] ∧
  (∀ this, pool.move_assign this a
           = (a, (pool.move a).2, DeleteBlock <$> pool.linked_blocks this)) ∧
  (pool.index a ≠ pool.currBlockSize a ↔
   ∃ n nxt, pool.pool a = n :: nxt ∧ pool.index a < n) ∧
  (pool.index a ≠ pool.currBlockSize a →
   ∃ what, pool.allocate UseFreeList BlockSize 1 (pool.move a).2
           = Undefined what) ∧
  (pool.index a = pool.currBlockSize a →
   ∃ a', pool.allocate UseFreeList BlockSize 1 (pool.move a).2
         = Ok (Slot 0 0, a', [NewBlock 0 (pool.currBlockSize a)]) ∧
         pool.pool a' = [pool.currBlockSize a] ∧ pool.index a' = 1).
Proof using BlockSize_range.
  intros [Hr1 Hr2] Hreach.
  pose proof (reachable_inv UseFreeList BlockSize BlockSize_range r a Hr2 Hreach)
    as Hinv.
  split; [done|]. split; [done|].
  split.
  { intros this. unfold pool.move_assign. simpl.
    by rewrite release_chain_blocks. }
  split.
  { destruct (pool.pool a) as [|n nxt] eqn:Hp.
    - destruct Hinv as (_ & _ & _ & Hshape). rewrite Hp in Hshape.
      destruct Hshape as [-> ->]. split; [done|]. by intros (? & ? & ? & _).
    - destruct (inv_cursor BlockSize BlockSize_range r a n nxt Hr1 Hinv Hp)
        as [Hidx <-].
      split; [intros Hne; exists n, nxt; split; [done|lia]|].
      intros (n' & nxt' & Heq & Hlt). simplify_eq. lia. }
  split.
  - intros Hne. unfold pool.allocate, pool.move. simpl.
    rewrite (proj2 (N.eqb_neq _ _) Hne).
    destruct UseFreeList; eauto.
  - intros Heq. unfold pool.allocate, pool.move. simpl.
    rewrite (proj2 (N.eqb_eq _ _) Heq).
    destruct UseFreeList; eauto.
Qed.

(** ** The free list *)

Lemma linked_insert nf head l p x :
  p ∉ l → pool.linked nf head l → pool.linked (<[p := x]> nf) head l.
Proof using.
  clear BlockSize_range.
  revert head. induction l as [|q l IH]; intros head Hp Hl; [done|].
  apply not_elem_of_cons in Hp as [Hpq Hp]. destruct Hl as [-> Hl].
  split; [done|]. rewrite lookup_insert_ne by done. by apply IH.
Qed.

Lemma linked_head nf h l : pool.linked nf h l → h = head l.
Proof using. clear BlockSize_range. destruct l; [done|]. by intros [-> _]. Qed.

Lemma free_chain_push a l p :
  p ∉ l → pool.free_chain a l →
  pool.free_chain (pool.deallocate true p 1 a).1 (p :: l).
Proof using.
  clear BlockSize_range.
  intros Hp Hl. unfold pool.free_chain, pool.deallocate. simpl.
  split; [done|]. rewrite lookup_insert_eq. simpl. by apply linked_insert.
Qed.

Lemma free_chain_pop a p l :
  pool.free_chain a (p :: l) →
  ∃ a', pool.allocate true BlockSize 1 a = Ok (p, a', []) ∧
        pool.free_chain a' l ∧
        pool.nextFree a' = pool.nextFree a ∧
        pool.pool a' = pool.pool a ∧ pool.index a' = pool.index a ∧
        pool.currBlockSize a' = pool.currBlockSize a.
Proof using.
  clear BlockSize_range.
  intros [Hh Hl]. unfold pool.allocate. simpl. rewrite Hh.
  eexists. split; [done|]. done.
Qed.

(** X13. The free list is a stack.  With the free list enabled, releasing
    distinct single slots that are not on the free list and then asking for
    as many single slots returns the released slots, last released first,
    without creating a block or moving the cursor, and leaves the free list
    as it was before. *)
Theorem free_list_is_a_stack a l ps :
  pool.free_chain a l → NoDup ps → (∀ p, p ∈ ps → p ∉ l) →
  ∃ a',
    pool.free_chain (pool.deallocate_all true ps a) (reverse ps ++ l) ∧
    pool.allocate_ones true BlockSize (length ps) (pool.deallocate_all true ps a)
      = Ok (reverse ps, a', []) ∧
    pool.free_chain a' l ∧ pool.freeList a' = pool.freeList a ∧
    pool.pool a' = pool.pool a ∧ pool.index a' = pool.index a ∧
    pool.currBlockSize a' = pool.currBlockSize a.
Proof using.
  clear BlockSize_range.
  intros Hl Hnd Hps.
  assert (pool.free_chain (pool.deallocate_all true ps a) (reverse ps ++ l) ∧
          pool.pool (pool.deallocate_all true ps a) = pool.pool a ∧
          pool.index (pool.deallocate_all true ps a) = pool.index a ∧
          pool.currBlockSize (pool.deallocate_all true ps a)
            = pool.currBlockSize a) as (Hchain & Hp & Hi & Hc).
  { revert a l Hl Hps. induction ps as [|p ps IH]; intros a l Hl Hps; [done|].
    apply NoDup_cons in Hnd as [Hp Hnd]. unfold pool.deallocate_all. simpl.
    destruct (IH Hnd (pool.mk (pool.pool a) (Some p)
                        (<[p := pool.freeList a]> (pool.nextFree a))
                        (pool.currBlockSize a) (pool.index a)) (p :: l))
      as (Hchain & ? & ? & ?).
    - apply (free_chain_push a l p); [|done]. apply Hps. by left.
    - intros q Hq. apply not_elem_of_cons. split; [by intros ->|].
      apply Hps. by right.
    - rewrite reverse_cons, <- app_assoc. done. }
  assert (∀ qs b,
    pool.free_chain b (qs ++ l) →
    ∃ b', pool.allocate_ones true BlockSize (length qs) b = Ok (qs, b', []) ∧
          pool.free_chain b' l ∧
          pool.pool b' = pool.pool b ∧ pool.index b' = pool.index b ∧
          pool.currBlockSize b' = pool.currBlockSize b) as Hpop.
  { induction qs as [|q qs IHq]; intros b Hb.
    - exists b. done.
    - destruct (free_chain_pop b q (qs ++ l) Hb)
        as (b1 & Ha & Hb1 & Hn1 & Hp1 & Hi1 & Hc1).
      destruct (IHq b1 Hb1) as (b2 & Ha2 & Hb2 & Hp2 & Hi2 & Hc2).
      exists b2. simpl. rewrite Ha, Ha2. split; [done|]. split; [done|].
      by rewrite Hp2, Hi2, Hc2. }
  destruct (Hpop (reverse ps) _ Hchain) as (a' & Ha & Hl' & Hp' & Hi' & Hc').
  rewrite length_reverse in Ha.
  exists a'. split; [done|]. split; [done|]. split; [done|].
  split; [|by rewrite Hp', Hi', Hc'].
  rewrite (linked_head _ _ _ Hl'), (linked_head _ _ _ Hl). done.
Qed.






(** X19. Copying an allocator copies no memory.  The copy constructors
    build an empty allocator that reserves the current block size of the
    source: what the source was constructed with while it has at most one
    block, and [BlockSize] once it has grown.  Destroying the copy without
    using it releases nothing, and the first [allocate(1)] on the copy
    creates its own block 0 of that size and returns slot 0 of it.  That
    slot lies inside the block exactly when the size is not 0: always for a
    source constructed with [reserved >= 1], and never for the copy of a
    source constructed with [reserved = 0] that has at most one block. *)
Theorem copy_reserves_current_block_size UseFreeList r a :
  r < 2 ^ 32 →
  pool.reachable UseFreeList BlockSize r a →
  let sz := if decide (length (pool.pool a) ≤ 1)%nat then r else BlockSize in
  pool.copy a = pool.create sz ∧
  pool.minCapacity (pool.copy a) = sz ∧
  (pool.destroy (pool.copy a)).2 = [] ∧
  ∃ a',
    pool.allocate UseFreeList BlockSize 1 (pool.copy a)
      = Ok (Slot 0 0, a', [NewBlock 0 sz]) ∧
    pool.pool a' = [sz] ∧
    pool.in_bounds a' (Slot 0 0) = bool_decide (1 ≤ sz) ∧
    (1 ≤ r → pool.in_bounds a' (Slot 0 0) = true) ∧
    (r = 0 → (length (pool.pool a) ≤ 1)%nat →
     pool.in_bounds a' (Slot 0 0) = false).
Proof using BlockSize_range.
  intros Hr2 Hreach sz.
  pose proof (reachable_inv UseFreeList BlockSize BlockSize_range r a Hr2 Hreach)
    as (_ & _ & _ & Hshape).
  assert (pool.currBlockSize a = sz) as Hsz.
  { subst sz. destruct (pool.pool a) as [|n [|n' nxt]] eqn:Hp; simpl.
    - by destruct Hshape as [_ ->].
    - destruct Hshape as (<- & _ & Heq). simpl in Heq. by simplify_eq.
    - destruct Hshape as (<- & _ & Heq). simpl in Heq. by simplify_eq. }
  unfold pool.copy, pool.minCapacity. rewrite Hsz.
  split; [done|]. split; [done|]. split; [done|].
  unfold pool.allocate, pool.create. simpl. rewrite N.eqb_refl.
  exists (pool.mk [sz] None ∅ sz 1).
  split; [by destruct UseFreeList|]. split; [done|].
  assert (pool.in_bounds (pool.mk [sz] None ∅ sz 1) (Slot 0 0)
          = bool_decide (1 ≤ sz)) as Hin.
  { unfold pool.in_bounds, pool.block_slots. simpl.
    apply bool_decide_ext. lia. }
  split; [exact Hin|]. split.
  - intros Hr1. etransitivity; [exact Hin|].
    apply bool_decide_eq_true_2. subst sz. case_decide; lia.
  - intros -> Hle. etransitivity; [exact Hin|].
    apply bool_decide_eq_false_2. subst sz. rewrite decide_True by done. lia.
Qed.

End pool_accounting.

(** * Properties of the cache *)

Section lru_facts.
Context {K : Type} `{Countable K} {V : Type}.
Variable AllocBlockSize : N.
(** [static_assert(BlockSize != 0)] in both allocators and the range of
    [unsigned]. *)
Hypothesis AllocBlockSize_range : 1 ≤ AllocBlockSize < 2 ^ 32.

Implicit Types (c : @lru.lru_cache K _ _ V) (key k : K) (value v : V).
Implicit Types (it kp p : pointer) (es : list (K * V)).

Local Abbreviation insert := (lru.insert AllocBlockSize).
Local Abbreviation step := (lru.step AllocBlockSize).
Local Abbreviation run := (lru.run AllocBlockSize).
Local Abbreviation wf := (lru.wf AllocBlockSize).
Local Abbreviation empty := (@lru.empty K _ _ V).

(** *** What each member function computes *)

Lemma bind_ok {A B} (m : lru.M A) (f : A → lru.M B) c a c' :
  m c = Ok (a, c') → lru.bind m f c = f a c'.
Proof. unfold lru.bind. by intros ->. Qed.

Lemma bind_undefined {A B} (m : lru.M A) (f : A → lru.M B) c what :
  m c = Undefined what → lru.bind m f c = Undefined what.
Proof. unfold lru.bind. by intros ->. Qed.

(** Run the first action of a sequence, justified by [tac]. *)
Ltac bind_with tac := erewrite bind_ok; [|tac]; cbv beta iota.

Lemma insert_hit c key value update kp k0 it (okp : option pointer) v :
  lru.m_index (lru.dict c) !! key = Some kp →
  lru.m_nodes (lru.dict c) !! kp = Some (k0, it) →
  it ∈ lru.l_order (lru.cache c) →
  lru.l_nodes (lru.cache c) !! it = Some (okp, v) →
  insert key value update c =
    Ok ((it, false),
        lru.with_cache
          (lru.mkList (lru.l_alloc (lru.cache c))
             (filter (λ x, x ≠ it) (lru.l_order (lru.cache c)) ++ [it])
             (if update then <[it := (okp, value)]> (lru.l_nodes (lru.cache c))
              else lru.l_nodes (lru.cache c)))
          c).
Proof.
  intros Hi Hm Hin Hl.
  unfold lru.insert, lru.bind, lru.dict_find, lru.map_mapped,
    lru.cache_splice_end. simpl. rewrite Hi, Hm. simpl.
  rewrite bool_decide_eq_true_2 by done.
  destruct update; simpl; [|done].
  unfold lru.node_set_second. simpl. by rewrite Hl.
Qed.

Lemma get_hit c key kp k0 it :
  lru.m_index (lru.dict c) !! key = Some kp →
  lru.m_nodes (lru.dict c) !! kp = Some (k0, it) →
  it ∈ lru.l_order (lru.cache c) →
  lru.get key c = Ok (Some it, lru.with_cache (lru.spliced it (lru.cache c)) c).
Proof.
  intros Hi Hm Hin.
  unfold lru.get, lru.bind, lru.dict_find, lru.map_mapped,
    lru.cache_splice_end. simpl. rewrite Hi, Hm. simpl.
  rewrite bool_decide_eq_true_2 by done. simpl. by rewrite Hm.
Qed.

Lemma get_miss c key :
  lru.m_index (lru.dict c) !! key = None → lru.get key c = Ok (None, c).
Proof.
  intros Hi. unfold lru.get, lru.bind, lru.dict_find. by rewrite Hi.
Qed.

Lemma peek_hit c key kp k0 it :
  lru.m_index (lru.dict c) !! key = Some kp →
  lru.m_nodes (lru.dict c) !! kp = Some (k0, it) →
  lru.peek key c = Ok (Some it, c).
Proof.
  intros Hi Hm.
  unfold lru.peek, lru.bind, lru.dict_find, lru.map_mapped. by rewrite Hi, Hm.
Qed.

Lemma peek_miss c key :
  lru.m_index (lru.dict c) !! key = None → lru.peek key c = Ok (None, c).
Proof.
  intros Hi. unfold lru.peek, lru.bind, lru.dict_find. by rewrite Hi.
Qed.

Lemma insert_grow c key value update p la mp ma :
  lru.m_index (lru.dict c) !! key = None →
  size (lru.m_index (lru.dict c)) ≠ lru.limit c →
  lru.new_node AllocBlockSize false (lru.l_alloc (lru.cache c)) = Ok (p, la) →
  lru.new_node AllocBlockSize false (lru.m_alloc (lru.dict c)) = Ok (mp, ma) →
  insert key value update c =
    Ok ((p, true),
        lru.mkCache
          (lru.mkMap ma (<[key := mp]> (lru.m_index (lru.dict c)))
             (<[mp := (key, p)]> (lru.m_nodes (lru.dict c))))
          (lru.mkList la (lru.l_order (lru.cache c) ++ [p])
             (<[p := (Some mp, value)]> (lru.l_nodes (lru.cache c))))
          (lru.limit c)).
Proof.
  intros Hi Hsz Hl Hm.
  unfold lru.insert, lru.bind, lru.dict_find, lru.dict_size, lru.read_limit.
  simpl. rewrite Hi. simpl. rewrite bool_decide_eq_true_2 by done.
  unfold lru.cache_insert_end, lru.ListAllocTy_UseFreeList. rewrite Hl. simpl.
  unfold lru.dict_try_emplace, lru.MapAllocTy_UseFreeList. simpl.
  rewrite Hi, Hm. simpl.
  unfold lru.node_set_first. simpl. rewrite lookup_insert_eq. simpl.
  unfold lru.with_cache, lru.with_dict, lru.ret. simpl.
  by rewrite insert_insert_eq.
Qed.

Lemma insert_evict c key value update front rest kp v old it0 nod :
  lru.m_index (lru.dict c) !! key = None →
  size (lru.m_index (lru.dict c)) = lru.limit c →
  lru.l_order (lru.cache c) = front :: rest →
  lru.l_nodes (lru.cache c) !! front = Some (Some kp, v) →
  lru.m_nodes (lru.dict c) !! kp = Some (old, it0) →
  lru.m_index (lru.dict c) !! old = Some nod →
  nod = kp →
  insert key value update c =
    Ok ((front, true),
        lru.mkCache
          (lru.mkMap (lru.m_alloc (lru.dict c))
             (<[key := nod]> (delete old (lru.m_index (lru.dict c))))
             (<[nod := (key, front)]> (lru.m_nodes (lru.dict c))))
          (lru.mkList (lru.l_alloc (lru.cache c))
             (filter (λ x, x ≠ front) (front :: rest) ++ [front])
             (<[front := (Some nod, value)]> (lru.l_nodes (lru.cache c))))
          (lru.limit c)).
Proof.
  intros Hi Hsz Ho Hl Hm Hold ->. unfold lru.insert.
  bind_with ltac:(unfold lru.dict_find; by rewrite Hi).
  do 2 bind_with ltac:(reflexivity).
  rewrite bool_decide_eq_false_2 by (by intros []).
  bind_with ltac:(reflexivity).
  rewrite Ho, bool_decide_eq_false_2 by done.
  bind_with ltac:(reflexivity).
  bind_with ltac:(unfold lru.cache_front; by rewrite Ho).
  bind_with ltac:(unfold lru.node_first; by rewrite Hl).
  bind_with ltac:(unfold lru.map_key; by rewrite Hm).
  bind_with ltac:(unfold lru.dict_extract; simpl; by rewrite Hold).
  bind_with ltac:(unfold lru.nod_set_key; simpl; by rewrite Hm).
  bind_with ltac:(unfold lru.cache_front; simpl; by rewrite ?Ho).
  bind_with ltac:(unfold lru.nod_set_mapped; simpl; by rewrite lookup_insert_eq).
  bind_with ltac:(unfold lru.node_set_first; simpl; by rewrite Hl).
  bind_with ltac:(unfold lru.node_set_second; simpl; by rewrite lookup_insert_eq).
  bind_with ltac:(unfold lru.dict_insert_node; simpl;
                  rewrite lookup_insert_eq;
                  by rewrite (proj2 (lookup_delete_None _ old key) (or_intror Hi))).
  bind_with ltac:(reflexivity).
  bind_with ltac:(unfold lru.cache_front; simpl; by rewrite ?Ho).
  bind_with ltac:(unfold lru.cache_splice_end; simpl; rewrite ?Ho;
                  by rewrite bool_decide_eq_true_2 by (by apply elem_of_cons; left)).
  unfold lru.ret, lru.with_cache, lru.with_dict, lru.spliced. simpl.
  by rewrite !insert_insert_eq, ?Ho.
Qed.

(** *** Consequences of the invariant *)

Lemma wf_node r c it :
  wf r c → it ∈ lru.l_order (lru.cache c) →
  ∃ kp k v,
    lru.l_nodes (lru.cache c) !! it = Some (Some kp, v) ∧
    lru.m_nodes (lru.dict c) !! kp = Some (k, it) ∧
    lru.m_index (lru.dict c) !! k = Some kp ∧
    lru.entry_at c it = Some (k, v).
Proof.
  intros (_ & Hn & _) Hin. destruct (Hn it Hin) as (kp & k & v & Hl & Hm & Hi).
  exists kp, k, v. unfold lru.entry_at. by rewrite Hl, Hm.
Qed.

Lemma wf_key r c k kp :
  wf r c → lru.m_index (lru.dict c) !! k = Some kp →
  ∃ it v,
    lru.m_nodes (lru.dict c) !! kp = Some (k, it) ∧
    it ∈ lru.l_order (lru.cache c) ∧
    lru.l_nodes (lru.cache c) !! it = Some (Some kp, v) ∧
    lru.entry_at c it = Some (k, v).
Proof.
  intros (_ & _ & Hk & _) Hi. destruct (Hk k kp Hi) as (it & v & Hm & Hin & Hl).
  exists it, v. unfold lru.entry_at. by rewrite Hl, Hm.
Qed.

Lemma wf_key_inj r c it1 it2 k v1 v2 :
  wf r c →
  it1 ∈ lru.l_order (lru.cache c) → it2 ∈ lru.l_order (lru.cache c) →
  lru.entry_at c it1 = Some (k, v1) → lru.entry_at c it2 = Some (k, v2) →
  it1 = it2.
Proof.
  intros Hwf Hin1 Hin2 He1 He2.
  destruct (wf_node _ _ _ Hwf Hin1) as (kp1 & k1 & w1 & _ & Hm1 & Hi1 & He1').
  destruct (wf_node _ _ _ Hwf Hin2) as (kp2 & k2 & w2 & _ & Hm2 & Hi2 & He2').
  simplify_eq. congruence.
Qed.

Lemma entries_elem r c k v :
  wf r c →
  (k, v) ∈ lru.entries c ↔
  ∃ it, it ∈ lru.l_order (lru.cache c) ∧ lru.entry_at c it = Some (k, v).
Proof.
  intros _. unfold lru.entries. rewrite list_elem_of_omap. naive_solver.
Qed.

Lemma entries_length r c :
  wf r c → length (lru.entries c) = length (lru.l_order (lru.cache c)).
Proof.
  intros Hwf. unfold lru.entries.
  assert (∀ it, it ∈ lru.l_order (lru.cache c) → is_Some (lru.entry_at c it))
    as Hall.
  { intros it Hin. destruct (wf_node _ _ _ Hwf Hin) as (? & ? & ? & ? & ? & ? & ->).
    by eexists. }
  induction (lru.l_order (lru.cache c)) as [|x l IH]; [done|]. simpl.
  destruct (Hall x) as [e ->]; [by left|]. simpl. f_equal. apply IH.
  intros it Hin. apply Hall. by right.
Qed.

Lemma entries_NoDup r c : wf r c → NoDup (lru.keys c).
Proof.
  intros Hwf. unfold lru.keys, lru.entries.
  assert (∀ it1 it2 k v1 v2,
    it1 ∈ lru.l_order (lru.cache c) → it2 ∈ lru.l_order (lru.cache c) →
    lru.entry_at c it1 = Some (k, v1) → lru.entry_at c it2 = Some (k, v2) →
    it1 = it2) as Hinj by eauto using wf_key_inj.
  destruct Hwf as (Hnd & _).
  induction Hnd as [|x l Hx Hnd IH]; [constructor|]. simpl.
  destruct (lru.entry_at c x) as [[k v]|] eqn:Hex.
  - simpl. constructor.
    + intros Hin. apply list_elem_of_fmap in Hin as ([k' v'] & -> & Hin).
      apply list_elem_of_omap in Hin as (y & Hy & Hey). simpl in *.
      assert (x = y) as -> by (eapply Hinj; eauto; [by left|by right]). done.
    + apply IH. intros. eapply Hinj; eauto; by right.
  - apply IH. intros. eapply Hinj; eauto; by right.
Qed.

Lemma stored_entry r c k v :
  wf r c → lru.stored c k = Some v ↔ (k, v) ∈ lru.entries c.
Proof.
  intros Hwf. rewrite (entries_elem r) by done. unfold lru.stored, lru.deref.
  split.
  - destruct (lru.m_index (lru.dict c) !! k) as [kp|] eqn:Hi; [|done].
    destruct (wf_key _ _ _ _ Hwf Hi) as (it & w & Hm & Hin & Hl & He).
    rewrite Hm, Hl. simpl. intros ?; simplify_eq. eauto.
  - intros (it & Hin & He).
    destruct (wf_node _ _ _ Hwf Hin) as (kp & k' & w & Hl & Hm & Hi & He').
    simplify_eq. rewrite Hi, Hm, Hl. done.
Qed.

Lemma present_key r c k :
  wf r c → lru.present c k ↔ k ∈ lru.keys c.
Proof.
  intros Hwf. unfold lru.present, lru.keys. split.
  - intros [kp Hi].
    destruct (wf_key _ _ _ _ Hwf Hi) as (it & w & Hm & Hin & Hl & He).
    apply list_elem_of_fmap. exists (k, w). split; [done|].
    apply (entries_elem r); eauto.
  - intros ([k' v] & -> & Hin)%list_elem_of_fmap.
    apply (entries_elem r) in Hin as (it & Hin & He); [|done].
    destruct (wf_node _ _ _ Hwf Hin) as (kp & k'' & w & Hl & Hm & Hi & He').
    simplify_eq. by eexists.
Qed.

Lemma assoc_elem es k v :
  NoDup es.*1 → lru.assoc k es = Some v ↔ (k, v) ∈ es.
Proof.
  induction es as [|[k' v'] es IH]; simpl.
  - intros _. split; [done|]. by intros ?%elem_of_nil.
  - intros [Hk Hnd]%NoDup_cons. rewrite elem_of_cons. case_decide as Hd.
    + subst k'. split; [intros; left; congruence|].
      intros [?|Hin]; [congruence|]. destruct Hk.
      apply list_elem_of_fmap. by exists (k, v).
    + rewrite IH by done. split; [by right|]. intros [?|?]; [congruence|done].
Qed.

Lemma assoc_None es k : lru.assoc k es = None ↔ k ∉ es.*1.
Proof.
  induction es as [|[k' v'] es IH]; simpl.
  - split; [intros _; apply not_elem_of_nil|done].
  - rewrite not_elem_of_cons. case_decide; [|rewrite IH]; naive_solver.
Qed.

Lemma stored_assoc r c k :
  wf r c → lru.stored c k = lru.assoc k (lru.entries c).
Proof.
  intros Hwf. pose proof (entries_NoDup _ _ Hwf) as Hnd.
  destruct (lru.stored c k) as [v|] eqn:Hs.
  - symmetry. apply assoc_elem; [done|]. by apply (stored_entry r).
  - destruct (lru.assoc k (lru.entries c)) as [v|] eqn:Ha; [|done].
    apply assoc_elem in Ha; [|done]. apply (stored_entry r) in Ha; [|done].
    congruence.
Qed.

(** *** Lists: splicing a node to the back *)

Lemma omap_ext_in {A B} (f g : A → option B) (l : list A) :
  (∀ x, x ∈ l → f x = g x) → omap f l = omap g l.
Proof.
  intros Hfg. apply list_omap_ext, Forall_Forall2_diag, Forall_forall, Hfg.
Qed.

Lemma omap_filter_key (f : pointer → option (K * V)) (l : list pointer) it k :
  (∀ x, x ∈ l → ∃ e, f x = Some e ∧ (e.1 = k ↔ x = it)) →
  omap f (filter (λ x, x ≠ it) l) = lru.without k (omap f l).
Proof.
  unfold lru.without. induction l as [|x l IH]; [done|]. intros Hf.
  destruct (Hf x) as (e & He & Hk); [by left|].
  assert (omap f (filter (λ x, x ≠ it) l) = filter (λ e, e.1 ≠ k) (omap f l))
    as IH' by (apply IH; intros y Hy; apply Hf; by right).
  csimpl. rewrite He. csimpl. destruct (decide (x = it)) as [->|Hne].
  - rewrite filter_cons_False by naive_solver.
    rewrite filter_cons_False by naive_solver. done.
  - rewrite filter_cons_True by done.
    rewrite filter_cons_True by naive_solver. csimpl. rewrite He. csimpl.
    by f_equal.
Qed.

Lemma filter_ne_id {A} `{EqDecision A} (l : list A) (it : A) :
  it ∉ l → filter (λ x, x ≠ it) l = l.
Proof.
  induction l as [|x l IH]; [done|]. intros [Hx Hl]%not_elem_of_cons.
  rewrite filter_cons_True by done. f_equal. by apply IH.
Qed.

Lemma splice_Permutation {A} `{EqDecision A} (l : list A) (it : A) :
  NoDup l → it ∈ l → filter (λ x, x ≠ it) l ++ [it] ≡ₚ l.
Proof.
  induction 1 as [|x l Hx Hnd IH]; [by intros ?%elem_of_nil|].
  intros Hin. destruct (decide (x = it)) as [->|Hne].
  - rewrite filter_cons_False by naive_solver.
    rewrite filter_ne_id by done. by rewrite Permutation_app_comm.
  - rewrite filter_cons_True by done. simpl. apply Permutation_skip, IH.
    apply elem_of_cons in Hin as [?|?]; [congruence|done].
Qed.

Lemma without_absent es k : k ∉ es.*1 → lru.without k es = es.
Proof.
  unfold lru.without. induction es as [|[k' v'] es IH]; [done|]. simpl.
  intros [Hx Hl]%not_elem_of_cons.
  rewrite filter_cons_True by (simpl; congruence). f_equal. by apply IH.
Qed.

(** *** A node from a container's allocator *)

Lemma new_node_spec r a :
  pool.inv AllocBlockSize r a →
  match lru.new_node AllocBlockSize false a with
  | Ok (p, a') =>
      pool.inv AllocBlockSize r a' ∧
      ¬ pool.allocated a p ∧ pool.allocated a' p ∧
      (∀ q, pool.allocated a q → pool.allocated a' q)
  | AssertionFailed _ => False
  | Undefined _ => r = 0
  end.
Proof.
  intros Hinv. unfold lru.new_node.
  destruct (decide (r = 0)) as [Hr|Hr].
  - destruct (pool.allocate false AllocBlockSize 1 a) as [[[p a'] ev]| |] eqn:Ha.
    + destruct (pool.in_bounds a' p); [|done].
      split; [by eapply inv_allocate|].
      split; [by eapply allocate_one_fresh; eauto|].
      split; [by eapply allocate_one_fresh; eauto|].
      intros q. by eapply allocated_mono.
    + unfold pool.allocate in Ha. repeat (case_match; simplify_eq).
    + done.
  - destruct (allocate_one_ok false AllocBlockSize AllocBlockSize_range r a)
      as (p & a' & ev & Ha & Hin); [lia|done|by left|].
    rewrite Ha, Hin.
    split; [by eapply inv_allocate|].
    split; [by eapply allocate_one_fresh; eauto|].
    split; [by eapply allocate_one_fresh; eauto|].
    intros q. by eapply allocated_mono.
Qed.

(** *** The three outcomes of [insert] and the hit of [get] preserve the
    invariant and act on [entries] as [entries_insert] and [entries_get] *)

Lemma wf_bump r c it kp v v' :
  wf r c →
  it ∈ lru.l_order (lru.cache c) →
  lru.l_nodes (lru.cache c) !! it = Some (Some kp, v) →
  let c' :=
    lru.with_cache
      (lru.mkList (lru.l_alloc (lru.cache c))
         (filter (λ x, x ≠ it) (lru.l_order (lru.cache c)) ++ [it])
         (<[it := (Some kp, v')]> (lru.l_nodes (lru.cache c)))) c in
  wf r c' ∧
  ∀ k, lru.entry_at c it = Some (k, v) →
       lru.entries c' = lru.without k (lru.entries c) ++ [(k, v')].
Proof.
  intros Hwf Hin Hl.
  destruct (wf_node _ _ _ Hwf Hin) as (kp' & k & w & Hl' & Hm & Hi & He).
  assert (kp' = kp ∧ w = v) as [-> ->] by (rewrite Hl in Hl'; by simplify_eq).
  clear Hl'.
  pose proof Hwf as (Hnd & Hn & Hk & Hsz & Hlim & Hl1 & Hal & Ham & Hil & Him).
  pose proof (splice_Permutation _ it Hnd Hin) as Hperm.
  split.
  - unfold lru.wf. simpl.
    split; [by rewrite Hperm|].
    split.
    { intros x Hx. rewrite Hperm in Hx. destruct (decide (x = it)) as [->|Hne].
      - exists kp, k, v'. by rewrite lookup_insert_eq.
      - rewrite lookup_insert_ne by done. by apply Hn. }
    split.
    { intros k0 kp0 Hi0. destruct (Hk k0 kp0 Hi0) as (it0 & v0 & Hm0 & Hin0 & Hl0).
      destruct (decide (it0 = it)) as [->|Hne].
      - exists it, v'. rewrite Hperm, lookup_insert_eq.
        rewrite Hl in Hl0. by simplify_eq.
      - exists it0, v0. by rewrite Hperm, lookup_insert_ne. }
    split; [by rewrite Hperm|].
    split; [by rewrite Hperm|].
    split; [done|].
    split; [intros x Hx; rewrite Hperm in Hx; by apply Hal|done].
  - intros k0 He0. rewrite He in He0. simplify_eq.
    unfold lru.entries at 1. simpl. rewrite omap_app.
    f_equal.
    + unfold lru.entries.
      rewrite <- (omap_filter_key (lru.entry_at c) _ it k0).
      * apply omap_ext_in. intros x [Hne Hx]%list_elem_of_filter.
        unfold lru.entry_at. simpl. by rewrite lookup_insert_ne.
      * intros x Hx.
        destruct (wf_node _ _ _ Hwf Hx) as (kpx & kx & vx & _ & _ & _ & Hex).
        exists (kx, vx). split; [done|]. simpl. split.
        -- intros ->. eapply wf_key_inj; eauto.
        -- intros ->. congruence.
    + csimpl. unfold lru.entry_at. simpl. by rewrite lookup_insert_eq, Hm.
Qed.

Lemma wf_grow r c key value p la mp ma :
  wf r c →
  lru.m_index (lru.dict c) !! key = None →
  size (lru.m_index (lru.dict c)) ≠ lru.limit c →
  pool.inv AllocBlockSize r la →
  ¬ pool.allocated (lru.l_alloc (lru.cache c)) p →
  pool.allocated la p →
  (∀ q, pool.allocated (lru.l_alloc (lru.cache c)) q → pool.allocated la q) →
  pool.inv AllocBlockSize r ma →
  ¬ pool.allocated (lru.m_alloc (lru.dict c)) mp →
  pool.allocated ma mp →
  (∀ q, pool.allocated (lru.m_alloc (lru.dict c)) q → pool.allocated ma q) →
  let c' :=
    lru.mkCache
      (lru.mkMap ma (<[key := mp]> (lru.m_index (lru.dict c)))
         (<[mp := (key, p)]> (lru.m_nodes (lru.dict c))))
      (lru.mkList la (lru.l_order (lru.cache c) ++ [p])
         (<[p := (Some mp, value)]> (lru.l_nodes (lru.cache c))))
      (lru.limit c) in
  wf r c' ∧ lru.entries c' = lru.entries c ++ [(key, value)].
Proof.
  intros Hwf Hi Hsize Hla Hp Hp' Hlmono Hma Hmp Hmp' Hmmono.
  pose proof Hwf as (Hnd & Hn & Hk & Hsz & Hlim & Hl1 & Hal & Ham & Hil & Him).
  assert (p ∉ lru.l_order (lru.cache c)) as Hfresh by (intros ?; by apply Hp, Hal).
  assert (∀ k kp, lru.m_index (lru.dict c) !! k = Some kp → kp ≠ mp) as Hmfresh.
  { intros k kp Hkp ->. by apply Hmp, (Ham k). }
  split.
  - unfold lru.wf. simpl.
    split.
    { apply NoDup_app. split; [done|]. split; [|apply NoDup_singleton].
      intros x Hx ->%list_elem_of_singleton. done. }
    split.
    { intros x [Hx| ->%list_elem_of_singleton]%elem_of_app.
      - destruct (Hn x Hx) as (kp & k & v & Hl & Hm & Hix).
        exists kp, k, v.
        rewrite lookup_insert_ne by (by intros ->).
        rewrite lookup_insert_ne by (intros ->; by eapply Hmfresh).
        rewrite lookup_insert_ne by (intros ->; congruence). done.
      - exists mp, key, value. by rewrite !lookup_insert_eq. }
    split.
    { intros k kp Hkp. destruct (decide (k = key)) as [->|Hne].
      - rewrite lookup_insert_eq in Hkp. simplify_eq.
        exists p, value. rewrite !lookup_insert_eq. split; [done|].
        split; [|done]. apply elem_of_app. right. by apply list_elem_of_singleton.
      - rewrite lookup_insert_ne in Hkp by done.
        destruct (Hk k kp Hkp) as (it & v & Hm & Hin & Hl).
        exists it, v.
        rewrite lookup_insert_ne by (intros ->; by eapply Hmfresh).
        rewrite lookup_insert_ne by (by intros ->).
        split; [done|]. split; [|done]. apply elem_of_app. by left. }
    split.
    { rewrite map_size_insert_None by done. rewrite length_app. simpl. lia. }
    split; [rewrite length_app; simpl; lia|].
    split; [done|].
    split.
    { intros x [Hx| ->%list_elem_of_singleton]%elem_of_app; [|done].
      by apply Hlmono, Hal. }
    split; [|done].
    intros k kp Hkp. destruct (decide (k = key)) as [->|Hne].
    + rewrite lookup_insert_eq in Hkp. by simplify_eq.
    + rewrite lookup_insert_ne in Hkp by done. by apply Hmmono, (Ham k).
  - unfold lru.entries. simpl. rewrite omap_app. f_equal.
    + apply omap_ext_in. intros x Hx.
      destruct (Hn x Hx) as (kp & k & v & Hl & Hm & Hix).
      unfold lru.entry_at. simpl.
      rewrite lookup_insert_ne by (by intros ->). rewrite Hl.
      rewrite lookup_insert_ne by (intros ->; by eapply Hmfresh). done.
    + csimpl. unfold lru.entry_at. simpl. by rewrite !lookup_insert_eq.
Qed.

Lemma wf_evict r c key value front rest :
  wf r c →
  lru.m_index (lru.dict c) !! key = None →
  lru.l_order (lru.cache c) = front :: rest →
  ∃ kp old v,
    lru.l_nodes (lru.cache c) !! front = Some (Some kp, v) ∧
    lru.m_nodes (lru.dict c) !! kp = Some (old, front) ∧
    lru.m_index (lru.dict c) !! old = Some kp ∧
    let c' :=
      lru.mkCache
        (lru.mkMap (lru.m_alloc (lru.dict c))
           (<[key := kp]> (delete old (lru.m_index (lru.dict c))))
           (<[kp := (key, front)]> (lru.m_nodes (lru.dict c))))
        (lru.mkList (lru.l_alloc (lru.cache c))
           (filter (λ x, x ≠ front) (front :: rest) ++ [front])
           (<[front := (Some kp, value)]> (lru.l_nodes (lru.cache c))))
        (lru.limit c) in
    wf r c' ∧ lru.entries c' = tail (lru.entries c) ++ [(key, value)].
Proof.
  intros Hwf Hi Ho.
  pose proof Hwf as (Hnd & Hn & Hk & Hsz & Hlim & Hl1 & Hal & Ham & Hil & Him).
  assert (front ∈ lru.l_order (lru.cache c)) as Hfront by (rewrite Ho; by left).
  destruct (Hn front Hfront) as (kp & old & v & Hl & Hm & Hold).
  exists kp, old, v. split; [done|]. split; [done|]. split; [done|].
  pose proof (splice_Permutation _ front Hnd Hfront) as Hperm.
  rewrite Ho in Hperm, Hnd.
  assert (old ≠ key) as Hok by congruence.
  assert (∀ x kpx kx vx, x ∈ rest →
            lru.l_nodes (lru.cache c) !! x = Some (Some kpx, vx) →
            lru.m_nodes (lru.dict c) !! kpx = Some (kx, x) →
            lru.m_index (lru.dict c) !! kx = Some kpx →
            x ≠ front ∧ kpx ≠ kp ∧ kx ≠ old ∧ kx ≠ key) as Hother.
  { intros x kpx kx vx Hx Hlx Hmx Hix.
    assert (x ≠ front) by (apply NoDup_cons in Hnd as [Hnf _]; by intros ->).
    repeat split; [done|..]; intros ->; simplify_eq. }
  split.
  - unfold lru.wf. simpl.
    split; [by rewrite Hperm|].
    split.
    { intros x Hx. rewrite Hperm in Hx. destruct (decide (x = front)) as [->|Hne].
      - exists kp, key, value. by rewrite !lookup_insert_eq.
      - apply elem_of_cons in Hx as [?|Hx]; [done|].
        destruct (Hn x) as (kpx & kx & vx & Hlx & Hmx & Hix);
          [rewrite Ho; by right|].
        destruct (Hother _ _ _ _ Hx Hlx Hmx Hix) as (? & ? & ? & ?).
        exists kpx, kx, vx. rewrite !lookup_insert_ne by done.
        by rewrite lookup_delete_ne. }
    split.
    { intros k kp' Hkp. destruct (decide (k = key)) as [->|Hne].
      - rewrite lookup_insert_eq in Hkp. simplify_eq.
        exists front, value. rewrite !lookup_insert_eq, Hperm.
        split; [done|]. split; [by left|done].
      - rewrite lookup_insert_ne in Hkp by done.
        apply lookup_delete_Some in Hkp as [Hne' Hkp].
        destruct (Hk k kp' Hkp) as (it & w & Hmk & Hin & Hlk).
        assert (kp' ≠ kp) by (intros ->; congruence).
        assert (it ≠ front) by (intros ->; congruence).
        exists it, w. rewrite !lookup_insert_ne by done. rewrite Hperm, <- Ho.
        done. }
    split.
    { rewrite map_size_insert_None by (apply lookup_delete_None; by right).
      rewrite Hperm, <- Ho, <- Hsz.
      rewrite <- (insert_delete_id (lru.m_index (lru.dict c)) old kp) at 2
        by done.
      by rewrite map_size_insert_None by apply lookup_delete_eq. }
    split; [by rewrite Hperm, <- Ho|].
    split; [done|].
    split; [intros x Hx; rewrite Hperm, <- Ho in Hx; by apply Hal|].
    split; [|done].
    intros k kp' Hkp. destruct (decide (k = key)) as [->|Hne].
    + rewrite lookup_insert_eq in Hkp. simplify_eq. by apply (Ham old).
    + rewrite lookup_insert_ne in Hkp by done.
      apply lookup_delete_Some in Hkp as [_ Hkp]. by apply (Ham k).
  - unfold lru.entries. simpl. rewrite omap_app, Ho.
    rewrite filter_cons_False by naive_solver.
    rewrite filter_ne_id by (by apply NoDup_cons in Hnd as [? _]).
    csimpl. unfold lru.entry_at at 3. rewrite Hl, Hm. csimpl.
    f_equal.
    + apply omap_ext_in. intros x Hx.
      destruct (Hn x) as (kpx & kx & vx & Hlx & Hmx & Hix);
        [rewrite Ho; by right|].
      destruct (Hother _ _ _ _ Hx Hlx Hmx Hix) as (? & ? & ? & ?).
      unfold lru.entry_at. simpl. rewrite lookup_insert_ne by done.
      rewrite Hlx. by rewrite lookup_insert_ne by done.
    + unfold lru.entry_at. simpl. by rewrite !lookup_insert_eq.
Qed.

Lemma stored_lookup c key kp k0 it okp v :
  lru.m_index (lru.dict c) !! key = Some kp →
  lru.m_nodes (lru.dict c) !! kp = Some (k0, it) →
  lru.l_nodes (lru.cache c) !! it = Some (okp, v) →
  lru.stored c key = Some v ∧ lru.deref c it = Some v.
Proof.
  intros Hi Hm Hl. unfold lru.stored, lru.deref. by rewrite Hi, Hm, Hl.
Qed.

Lemma stored_absent c key :
  lru.m_index (lru.dict c) !! key = None → lru.stored c key = None.
Proof. intros Hi. unfold lru.stored. by rewrite Hi. Qed.

(** [insert] on a state satisfying the invariant. *)
Lemma insert_spec r c key value update :
  wf r c →
  match insert key value update c with
  | Ok ((p, inserted), c') =>
      wf r c' ∧
      lru.limit c' = lru.limit c ∧
      lru.entries c' =
        lru.entries_insert (lru.limit c) key value update (lru.entries c) ∧
      inserted = bool_decide (lru.stored c key = None) ∧
      lru.deref c' p = lru.stored c' key ∧
      is_Some (lru.stored c' key)
  | AssertionFailed _ => False
  | Undefined _ => r = 0
  end.
Proof.
  intros Hwf.
  pose proof (stored_assoc r c key Hwf) as Hassoc.
  pose proof (entries_length r c Hwf) as Hlen.
  pose proof Hwf as (Hnd & Hn & Hk & Hsz & Hlim & Hl1 & Hal & Ham & Hil & Him).
  destruct (lru.m_index (lru.dict c) !! key) as [kp|] eqn:Hi.
  - destruct (wf_key _ _ _ _ Hwf Hi) as (it & v & Hm & Hin & Hl & He).
    destruct (stored_lookup _ _ _ _ _ _ _ Hi Hm Hl) as [Hs _].
    rewrite (insert_hit c key value update kp key it (Some kp) v) by done.
    destruct (wf_bump r c it kp v (if update then value else v) Hwf Hin Hl)
      as [Hwf' Hent].
    assert ((if update then <[it := (Some kp, value)]> (lru.l_nodes (lru.cache c))
             else lru.l_nodes (lru.cache c))
            = <[it := (Some kp, if update then value else v)]>
                (lru.l_nodes (lru.cache c))) as ->.
    { destruct update; [done|]. by rewrite insert_id. }
    split; [done|]. split; [done|].
    split.
    { rewrite (Hent key He). unfold lru.entries_insert.
      rewrite <- Hassoc, Hs. done. }
    split; [by rewrite Hs, bool_decide_eq_false_2|].
    edestruct (stored_lookup
      (lru.with_cache
         (lru.mkList (lru.l_alloc (lru.cache c))
            (filter (λ x, x ≠ it) (lru.l_order (lru.cache c)) ++ [it])
            (<[it := (Some kp, if update then value else v)]>
               (lru.l_nodes (lru.cache c)))) c)
      key kp key it (Some kp)) as [Hs' Hd']; [done|done|..].
    { simpl. apply lookup_insert_eq. }
    rewrite Hs', Hd'. by split.
  - pose proof (stored_absent _ _ Hi) as Hs.
    destruct (decide (size (lru.m_index (lru.dict c)) = lru.limit c)) as [Hfull|Hroom].
    + destruct (lru.l_order (lru.cache c)) as [|front rest] eqn:Ho;
        [simpl in *; lia|].
      destruct (wf_evict r c key value front rest Hwf Hi Ho)
        as (kp & old & v & Hl & Hm & Hold & Hwf' & Hent).
      rewrite (insert_evict c key value update front rest kp v old front kp)
        by done.
      split; [done|]. split; [done|].
      split.
      { rewrite Hent. unfold lru.entries_insert. rewrite <- Hassoc, Hs.
        rewrite decide_False by (intros Hneq; apply Hneq; congruence).
        done. }
      split; [by rewrite Hs, bool_decide_eq_true_2|].
      edestruct (stored_lookup
        (lru.mkCache
          (lru.mkMap (lru.m_alloc (lru.dict c))
             (<[key := kp]> (delete old (lru.m_index (lru.dict c))))
             (<[kp := (key, front)]> (lru.m_nodes (lru.dict c))))
          (lru.mkList (lru.l_alloc (lru.cache c))
             (filter (λ x, x ≠ front) (front :: rest) ++ [front])
             (<[front := (Some kp, value)]> (lru.l_nodes (lru.cache c))))
          (lru.limit c))
        key kp key front (Some kp) value) as [Hs' Hd'];
        [apply lookup_insert_eq..|].
      rewrite Hs', Hd'. by split.
    + pose proof (new_node_spec r _ Hil) as Hnl.
      destruct (lru.new_node AllocBlockSize false (lru.l_alloc (lru.cache c)))
        as [[p la]|msg|what] eqn:Hnewl; [|done|].
      * destruct Hnl as (Hla & Hp & Hp' & Hlmono).
        pose proof (new_node_spec r _ Him) as Hnm.
        destruct (lru.new_node AllocBlockSize false (lru.m_alloc (lru.dict c)))
          as [[mp ma]|msg|what] eqn:Hnewm; [|done|].
        -- destruct Hnm as (Hma & Hmp & Hmp' & Hmmono).
           rewrite (insert_grow c key value update p la mp ma) by done.
           destruct (wf_grow r c key value p la mp ma) as [Hwf' Hent]; [done..|].
           split; [done|]. split; [done|].
           split.
           { rewrite Hent. unfold lru.entries_insert. rewrite <- Hassoc, Hs.
             rewrite decide_True by congruence. done. }
           split; [by rewrite Hs, bool_decide_eq_true_2|].
           edestruct (stored_lookup
             (lru.mkCache
               (lru.mkMap ma (<[key := mp]> (lru.m_index (lru.dict c)))
                  (<[mp := (key, p)]> (lru.m_nodes (lru.dict c))))
               (lru.mkList la (lru.l_order (lru.cache c) ++ [p])
                  (<[p := (Some mp, value)]> (lru.l_nodes (lru.cache c))))
               (lru.limit c))
             key mp key p (Some mp) value) as [Hs' Hd'];
             [apply lookup_insert_eq..|].
           rewrite Hs', Hd'. by split.
        -- unfold lru.insert.
           bind_with ltac:(unfold lru.dict_find; by rewrite Hi).
           do 2 bind_with ltac:(reflexivity).
           rewrite bool_decide_eq_true_2 by done.
           bind_with ltac:(unfold lru.cache_insert_end,
                             lru.ListAllocTy_UseFreeList; by rewrite Hnewl).
           erewrite bind_undefined; [done|].
           unfold lru.dict_try_emplace, lru.MapAllocTy_UseFreeList. simpl.
           by rewrite Hi, Hnewm.
      * unfold lru.insert.
        bind_with ltac:(unfold lru.dict_find; by rewrite Hi).
        do 2 bind_with ltac:(reflexivity).
        rewrite bool_decide_eq_true_2 by done.
        erewrite bind_undefined; [done|].
        unfold lru.cache_insert_end, lru.ListAllocTy_UseFreeList.
        by rewrite Hnewl.
Qed.

(** [get], [peek] and [forEach] on a state satisfying the invariant. *)
Lemma get_spec r c key :
  wf r c →
  ∃ res c',
    lru.get key c = Ok (res, c') ∧
    wf r c' ∧
    lru.limit c' = lru.limit c ∧
    lru.entries c' = lru.entries_get key (lru.entries c) ∧
    lru.stored c' key = lru.stored c key ∧
    match res with
    | Some p => lru.deref c' p = lru.stored c key ∧ is_Some (lru.stored c key)
    | None => lru.stored c key = None ∧ c' = c
    end.
Proof.
  intros Hwf.
  pose proof (stored_assoc r c key Hwf) as Hassoc.
  destruct (lru.m_index (lru.dict c) !! key) as [kp|] eqn:Hi.
  - destruct (wf_key _ _ _ _ Hwf Hi) as (it & v & Hm & Hin & Hl & He).
    destruct (stored_lookup _ _ _ _ _ _ _ Hi Hm Hl) as [Hs Hd].
    rewrite (get_hit c key kp key it) by done.
    destruct (wf_bump r c it kp v v Hwf Hin Hl) as [Hwf' Hent].
    rewrite insert_id in Hwf', Hent by done.
    do 2 eexists. split; [done|]. split; [done|]. split; [done|].
    split; [|split].
    + unfold lru.spliced in *. rewrite (Hent key He).
      unfold lru.entries_get. by rewrite <- Hassoc, Hs.
    + by rewrite Hs.
    + rewrite Hs. by split.
  - rewrite (get_miss c key) by done. pose proof (stored_absent _ _ Hi) as Hs.
    do 2 eexists. split; [done|]. split; [done|]. split; [done|].
    split; [|done]. unfold lru.entries_get. by rewrite <- Hassoc, Hs.
Qed.

Lemma peek_spec r c key :
  wf r c →
  ∃ res,
    lru.peek key c = Ok (res, c) ∧
    match res with
    | Some p => lru.deref c p = lru.stored c key ∧ is_Some (lru.stored c key)
    | None => lru.stored c key = None
    end.
Proof.
  intros Hwf. destruct (lru.m_index (lru.dict c) !! key) as [kp|] eqn:Hi.
  - destruct (wf_key _ _ _ _ Hwf Hi) as (it & v & Hm & Hin & Hl & He).
    destruct (stored_lookup _ _ _ _ _ _ _ Hi Hm Hl) as [Hs Hd].
    exists (Some it). rewrite (peek_hit c key kp key it) by done.
    rewrite Hs, Hd. by repeat split.
  - exists None. rewrite (peek_miss c key) by done.
    split; [done|]. by apply stored_absent.
Qed.

Lemma for_each_from_spec {A} (fn : K → V → A → A) r c nodes acc :
  wf r c →
  (∀ it, it ∈ nodes → it ∈ lru.l_order (lru.cache c)) →
  lru.for_each_from fn nodes acc c =
    Ok (fold_left (λ a e, fn e.1 e.2 a) (omap (lru.entry_at c) nodes) acc, c).
Proof.
  intros Hwf. revert acc. induction nodes as [|it rest IH]; intros acc Hin.
  { done. }
  destruct (wf_node _ _ _ Hwf (Hin it (list_elem_of_here _ _)))
    as (kp & k & v & Hl & Hm & Hi & He).
  cbn [lru.for_each_from].
  bind_with ltac:(unfold lru.node_first; by rewrite Hl).
  bind_with ltac:(unfold lru.map_key; by rewrite Hm).
  bind_with ltac:(unfold lru.node_second; by rewrite Hl).
  rewrite IH by (intros x Hx; apply Hin; by right).
  csimpl. rewrite He. done.
Qed.

Lemma forEach_spec {A} (fn : K → V → A → A) r c acc :
  wf r c →
  lru.forEach fn acc c =
    Ok (fold_left (λ a e, fn e.1 e.2 a) (lru.entries c) acc, c).
Proof. intros Hwf. unfold lru.forEach. by apply (for_each_from_spec fn r). Qed.

(** *** Construction *)

Lemma wf_empty r lim :
  r < 2 ^ 32 → (1 ≤ lim)%nat → wf r (empty r lim).
Proof.
  intros Hr Hlim. unfold lru.wf, lru.empty. simpl.
  split; [constructor|].
  split; [by intros it ?%elem_of_nil|].
  split; [intros k kp; by rewrite lookup_empty|].
  split; [by rewrite map_size_empty|].
  split; [lia|]. split; [done|].
  split; [by intros it ?%elem_of_nil|].
  split; [intros k kp; by rewrite lookup_empty|].
  split; by apply inv_create.
Qed.

Lemma create_spec lim c :
  lru.create AllocBlockSize lim = Ok c →
  ∃ r, 1 ≤ r ∧ wf r c ∧ c = lru.empty r lim ∧ (1 ≤ lim)%nat.
Proof.
  unfold lru.create. case_bool_decide as Hlim; [done|]. intros ?; simplify_eq.
  exists (pool.wrap32 (N.min (N.of_nat lim) AllocBlockSize)).
  assert (N.min (N.of_nat lim) AllocBlockSize < 2 ^ 32) as Hlt by lia.
  rewrite (wrap32_small _ Hlt).
  split; [lia|]. split; [apply wf_empty; [done|lia]|]. split; [done|lia].
Qed.

Lemma create_reserved_spec lim initCap c :
  initCap < 2 ^ 32 →
  lru.create_reserved lim initCap = Ok c →
  wf initCap c ∧ c = lru.empty initCap lim ∧ (1 ≤ lim)%nat.
Proof.
  unfold lru.create_reserved. intros Hr. case_bool_decide as Hlim; [done|].
  intros ?; simplify_eq. split; [apply wf_empty; [done|lia]|]. split; [done|lia].
Qed.

(** *** Sequences of operations *)

Lemma step_spec r c o :
  wf r c →
  match step o c with
  | Ok c' =>
      wf r c' ∧ lru.limit c' = lru.limit c ∧
      lru.entries c' = lru.entries_step (lru.limit c) o (lru.entries c)
  | AssertionFailed _ => False
  | Undefined _ => r = 0
  end.
Proof.
  intros Hwf. destruct o as [key value update|key value|key|key|]; simpl;
    unfold lru.discard.
  - pose proof (insert_spec r c key value update Hwf) as Hs.
    destruct (insert key value update c) as [[[p b] c']| |]; [|done..].
    by destruct Hs as (? & ? & ? & _).
  - unfold lru.getOrInsert, lru.bind.
    pose proof (insert_spec r c key value false Hwf) as Hs.
    destruct (insert key value false c) as [[[p b] c']| |]; [|done..].
    by destruct Hs as (? & ? & ? & _).
  - destruct (get_spec r c key Hwf) as (res & c' & -> & ? & ? & ? & _). done.
  - destruct (peek_spec r c key Hwf) as (res & -> & _). done.
  - by rewrite (forEach_spec _ r).
Qed.

Lemma run_spec r ops c :
  wf r c →
  match run ops c with
  | Ok c' =>
      wf r c' ∧ lru.limit c' = lru.limit c ∧
      lru.entries c' =
        fold_left (λ es o, lru.entries_step (lru.limit c) o es) ops
          (lru.entries c)
  | AssertionFailed _ => False
  | Undefined _ => r = 0
  end.
Proof.
  revert c. induction ops as [|o ops IH]; intros c Hwf; simpl; [done|].
  pose proof (step_spec r c o Hwf) as Hs.
  destruct (step o c) as [c1| |]; [|done..].
  destruct Hs as (Hwf1 & Hlim1 & Hent1).
  specialize (IH c1 Hwf1). destruct (run ops c1) as [c2| |]; [|done..].
  destruct IH as (Hwf2 & Hlim2 & Hent2).
  split; [done|]. split; [congruence|]. by rewrite Hent2, Hlim1, Hent1.
Qed.

Lemma constructed_wf c0 :
  lru.constructed AllocBlockSize c0 →
  ∃ r, wf r c0 ∧ lru.entries c0 = [] ∧ (1 ≤ lru.limit c0)%nat.
Proof.
  intros [[lim Hc]|(lim & initCap & Hr & Hc)].
  - destruct (create_spec _ _ Hc) as (r & _ & Hwf & -> & Hlim). by exists r.
  - destruct (create_reserved_spec _ _ _ Hr Hc) as (Hwf & -> & Hlim).
    by exists initCap.
Qed.

Lemma constructed_with_wf lim c0 :
  lru.constructed_with AllocBlockSize lim c0 →
  ∃ r, 1 ≤ r ∧ wf r c0 ∧ lru.entries c0 = [] ∧ lru.limit c0 = lim ∧
       (1 ≤ lim)%nat.
Proof.
  intros [Hc|(initCap & [Hr1 Hr2] & Hc)].
  - destruct (create_spec _ _ Hc) as (r & ? & Hwf & -> & Hlim). by exists r.
  - destruct (create_reserved_spec _ _ _ Hr2 Hc) as (Hwf & -> & Hlim).
    by exists initCap.
Qed.

Lemma constructed_with_constructed lim c0 :
  lru.constructed_with AllocBlockSize lim c0 → lru.constructed AllocBlockSize c0.
Proof.
  intros [Hc|(initCap & [Hr1 Hr2] & Hc)]; [left|right]; eauto.
Qed.

Lemma reachable_wf c0 ops c :
  lru.constructed AllocBlockSize c0 → run ops c0 = Ok c →
  ∃ r, wf r c ∧ lru.limit c = lru.limit c0 ∧ (1 ≤ lru.limit c0)%nat ∧
       lru.entries c =
         fold_left (λ es o, lru.entries_step (lru.limit c0) o es) ops [].
Proof.
  intros Hc Hrun. destruct (constructed_wf _ Hc) as (r & Hwf & Hent & Hlim).
  pose proof (run_spec r ops c0 Hwf) as Hs. rewrite Hrun, Hent in Hs.
  destruct Hs as (? & ? & ?). by exists r.
Qed.

Lemma run_total lim c0 ops :
  lru.constructed_with AllocBlockSize lim c0 → ∃ c, run ops c0 = Ok c.
Proof.
  intros Hc. destruct (constructed_with_wf _ _ Hc) as (r & Hr & Hwf & _).
  pose proof (run_spec r ops c0 Hwf) as Hs.
  destruct (run ops c0) as [c| |]; [by exists c|done|lia].
Qed.

Lemma stored_None r c k : wf r c → lru.stored c k = None ↔ ¬ lru.present c k.
Proof.
  intros Hwf. rewrite (stored_assoc r), assoc_None by done.
  by rewrite (present_key r).
Qed.

Lemma stored_Some r c k : wf r c → is_Some (lru.stored c k) ↔ lru.present c k.
Proof.
  intros Hwf. rewrite <- not_eq_None_Some, (stored_None r) by done.
  split; [apply dec_stable|tauto].
Qed.

(** The first [insert] into a cache whose allocators reserve no slot. *)
Lemma insert_without_capacity lim key value update :
  lim ≠ 0%nat →
  insert key value update (empty 0 lim)
  = Undefined "node constructed outside its block".
Proof using.
  clear AllocBlockSize_range.
  intros Hlim. unfold lru.insert.
  bind_with ltac:(unfold lru.dict_find; simpl; by rewrite lookup_empty).
  do 2 bind_with ltac:(reflexivity).
  rewrite bool_decide_eq_true_2
    by (simpl; rewrite map_size_empty; intros ?; by apply Hlim).
  erewrite bind_undefined; [done|]. reflexivity.
Qed.

Lemma create_reserved_zero lim c0 :
  lru.create_reserved lim 0 = Ok c0 → lim ≠ 0%nat ∧ c0 = empty 0 lim.
Proof using.
  clear AllocBlockSize_range.
  unfold lru.create_reserved. case_bool_decide as Hlim; [done|].
  by intros [= <-].
Qed.

(** C8. Construction with [limit == 0] fails the assertion, with either
    constructor; with [limit >= 1] it succeeds, with either constructor and
    whatever [initCap] is, and gives an empty cache with that limit.  No
    sequence of public operations on a constructed cache ends in a failed
    assertion: it runs to the end, always so when the cache was built by
    [lru_cache(limit)] or by [lru_cache(limit, initCap)] with [initCap >= 1],
    and otherwise it stops in the undefined insert of a cache built by
    [lru_cache(limit, 0)].  Looking up an absent key with [get] or [peek]
    returns the empty optional and leaves the cache as it is. *)
Theorem construction_and_errors :
  lru.create (K:=K) (V:=V) AllocBlockSize 0
    = AssertionFailed "The cache-limit may not be 0" ∧
  (∀ initCap,
     lru.create_reserved (K:=K) (V:=V) 0 initCap
       = AssertionFailed "The cache-limit may not be 0") ∧
  (∀ lim, (1 ≤ lim)%nat →
     ∃ c0 : @lru.lru_cache K _ _ V,
       lru.create AllocBlockSize lim = Ok c0 ∧
       lru.limit c0 = lim ∧
       lru.entries c0 = [] ∧
       lru.m_index (lru.dict c0) = ∅ ∧
       lru.l_order (lru.cache c0) = []) ∧
  (∀ lim initCap, (1 ≤ lim)%nat →
     ∃ c0 : @lru.lru_cache K _ _ V,
       lru.create_reserved lim initCap = Ok c0 ∧
       lru.limit c0 = lim ∧
       lru.entries c0 = [] ∧
       lru.m_index (lru.dict c0) = ∅ ∧
       lru.l_order (lru.cache c0) = [] ∧
       pool.minCapacity (lru.l_alloc (lru.cache c0)) = initCap ∧
       pool.minCapacity (lru.m_alloc (lru.dict c0)) = initCap) ∧
  (∀ lim c0 ops,
     lru.constructed_with AllocBlockSize lim c0 → ∃ c, run ops c0 = Ok c) ∧
  (∀ c0 ops msg,
     lru.constructed AllocBlockSize c0 → run ops c0 ≠ AssertionFailed msg) ∧
  (∀ c0 ops,
     lru.constructed AllocBlockSize c0 →
     match run ops c0 with
     | Ok c => True
     | AssertionFailed _ => False
     | Undefined what =>
         what = "node constructed outside its block" ∧
         ∃ lim, lru.create_reserved lim 0 = Ok c0
     end) ∧
  (∀ c0 ops c key,
     lru.constructed AllocBlockSize c0 → run ops c0 = Ok c →
     ¬ lru.present c key →
     lru.get key c = Ok (None, c) ∧ lru.peek key c = Ok (None, c)).
Proof.
  split; [done|]. split; [done|]. split; [|split; [|split; [|split; [|split]]]].
  - intros lim Hlim. unfold lru.create.
    rewrite bool_decide_eq_false_2 by lia. by eexists.
  - intros lim initCap Hlim. unfold lru.create_reserved.
    rewrite bool_decide_eq_false_2 by lia. by eexists.
  - intros lim c0 ops. apply run_total.
  - intros c0 ops msg Hc Hrun.
    destruct (constructed_wf _ Hc) as (r & Hwf & _).
    pose proof (run_spec r ops c0 Hwf) as Hs. by rewrite Hrun in Hs.
  - intros c0 ops Hc.
    destruct (run ops c0) as [c|msg|what] eqn:Hrun; [done| |].
    + destruct (constructed_wf _ Hc) as (r & Hwf & _).
      pose proof (run_spec r ops c0 Hwf) as Hs. by rewrite Hrun in Hs.
    + assert (∃ lim, lru.create_reserved (K:=K) (V:=V) lim 0 = Ok c0)
        as [lim Hz].
      { destruct Hc as [[lim Hc]|(lim & initCap & Hr & Hc)].
        - destruct (run_total lim c0 ops) as [c Hok]; [by left|congruence].
        - destruct (decide (initCap = 0)) as [->|Hne]; [by exists lim|].
          destruct (run_total lim c0 ops) as [c Hok]; [|congruence].
          right. exists initCap. split; [lia|done]. }
      split; [|by exists lim].
      destruct (create_reserved_zero _ _ Hz) as [Hlim ->].
      clear Hc Hz. revert Hrun.
      assert (∀ ops' (c : lru.lru_cache),
        lru.m_index (lru.dict c) = ∅ → lru.l_order (lru.cache c) = [] →
        c = empty 0 lim → run ops' c = Undefined what →
        what = "node constructed outside its block") as Hgen;
        [|by apply Hgen].
      induction ops' as [|o ops' IH]; intros c Hi Ho -> Hrun; [done|].
      simpl in Hrun.
      destruct o as [key value update|key value|key|key|].
      * cbn [lru.step] in Hrun. unfold lru.discard in Hrun.
        rewrite insert_without_capacity in Hrun by done. congruence.
      * cbn [lru.step] in Hrun. unfold lru.discard, lru.getOrInsert in Hrun.
        rewrite (bind_undefined _ _ _ _ (insert_without_capacity lim key value
                                            false Hlim)) in Hrun.
        congruence.
      * cbn [lru.step] in Hrun. unfold lru.discard in Hrun.
        rewrite get_miss in Hrun by (simpl; apply lookup_empty).
        by apply (IH (empty 0 lim)).
      * cbn [lru.step] in Hrun. unfold lru.discard in Hrun.
        rewrite peek_miss in Hrun by (simpl; apply lookup_empty).
        by apply (IH (empty 0 lim)).
      * cbn [lru.step] in Hrun. unfold lru.discard in Hrun.
        change (lru.forEach lru.collect [] (empty 0 lim))
          with (Ok ([] : list (K * V), empty 0 lim)) in Hrun.
        by apply (IH (empty 0 lim)).
  - intros c0 ops c key Hc Hrun Habs.
    assert (lru.m_index (lru.dict c) !! key = None) as Hi.
    { apply eq_None_not_Some. exact Habs. }
    by rewrite get_miss, peek_miss.
Qed.

(** C4. On every state a constructed cache can reach, [peek(k)] returns and
    leaves the whole state as it was: the same index, the same nodes, the same
    recency order.  Its result designates the stored value of [k] when [k] is
    present and is empty otherwise.  Hence whatever is executed next, an
    at-capacity insert included, behaves as if [peek] had not been called. *)
Theorem peek_leaves_state c0 ops c key :
  lru.constructed AllocBlockSize c0 → run ops c0 = Ok c →
  ∃ res,
    lru.peek key c = Ok (res, c) ∧
    match res with
    | Some p =>
        lru.present c key ∧
        ∃ v, lru.stored c key = Some v ∧ lru.deref c p = Some v
    | None => ¬ lru.present c key
    end ∧
    (∀ k' v' u,
       lru.bind (lru.peek key) (λ _, insert k' v' u) c = insert k' v' u c) ∧
    (∀ ops', run (lru.Peek key :: ops') c = run ops' c).
Proof.
  intros Hc Hrun. destruct (reachable_wf _ _ _ Hc Hrun) as (r & Hwf & _).
  destruct (peek_spec r c key Hwf) as (res & Hpeek & Hres).
  exists res. split; [done|]. split; [|split].
  - destruct res as [p|].
    + destruct Hres as [Hd Hs]. split; [by apply (stored_Some r)|].
      destruct Hs as [v Hs]. exists v. by rewrite Hd.
    + by apply (stored_None r).
  - intros k' v' u. unfold lru.bind. by rewrite Hpeek.
  - intros ops'. simpl. unfold lru.discard. by rewrite Hpeek.
Qed.

Lemma entries_stored_eq r c r' c' k :
  wf r c → wf r' c' →
  (∀ v, (k, v) ∈ lru.entries c' ↔ (k, v) ∈ lru.entries c) →
  lru.stored c' k = lru.stored c k.
Proof.
  intros Hwf Hwf' Hiff. apply option_eq. intros v.
  by rewrite (stored_entry r'), (stored_entry r), Hiff.
Qed.

(** C3. On every state a constructed cache can reach in which [k] is present
    with stored value [v1], [insert(k, v2, update)] returns [inserted = false]
    and a pointer to the stored value of [k], which is [v1] after the call
    when [update] is false and [v2] when it is true.  The call moves [k] to
    the most recently used position, keeps the other keys in their order,
    keeps every other stored value, and removes no entry. *)
Theorem insert_present_key c0 ops c k v1 v2 update :
  lru.constructed AllocBlockSize c0 → run ops c0 = Ok c →
  lru.stored c k = Some v1 →
  ∃ p c',
    insert k v2 update c = Ok ((p, false), c') ∧
    lru.stored c' k = Some (if update then v2 else v1) ∧
    lru.deref c' p = Some (if update then v2 else v1) ∧
    lru.keys c' = filter (λ x, x ≠ k) (lru.keys c) ++ [k] ∧
    last (lru.keys c') = Some k ∧
    (∀ k', k' ≠ k → lru.stored c' k' = lru.stored c k') ∧
    (∀ k', lru.present c' k' ↔ lru.present c k') ∧
    size (lru.m_index (lru.dict c')) = size (lru.m_index (lru.dict c)).
Proof.
  intros Hc Hrun Hs. destruct (reachable_wf _ _ _ Hc Hrun) as (r & Hwf & _).
  pose proof (insert_spec r c k v2 update Hwf) as Hins.
  assert (∃ p c', insert k v2 update c = Ok ((p, false), c'))
    as (p & c' & Hi).
  { pose proof Hs as Hs0. unfold lru.stored in Hs0.
    destruct (lru.m_index (lru.dict c) !! k) as [kp|] eqn:Hk; [|done].
    destruct (wf_key _ _ _ _ Hwf Hk) as (it & v & Hm & Hin & Hl & He).
    rewrite (insert_hit c k v2 update kp k it (Some kp) v) by done. eauto. }
  rewrite Hi in Hins.
  destruct Hins as (Hwf' & Hlim & Hent & Hb & Hd & _).
  unfold lru.entries_insert in Hent.
  rewrite <- (stored_assoc r), Hs in Hent by done.
  assert (∀ k' v, (k', v) ∈ lru.entries c' ↔
            (k' ≠ k ∧ (k', v) ∈ lru.entries c) ∨
            (k' = k ∧ v = if update then v2 else v1)) as Hmem.
  { intros k' v. rewrite Hent, elem_of_app, list_elem_of_singleton.
    unfold lru.without. rewrite list_elem_of_filter. simpl. naive_solver. }
  assert (lru.stored c' k = Some (if update then v2 else v1)) as Hs'.
  { apply (stored_entry r); [done|]. apply Hmem. by right. }
  assert (lru.keys c' = filter (λ x, x ≠ k) (lru.keys c) ++ [k]) as Hkeys.
  { unfold lru.keys. rewrite Hent, fmap_app. f_equal. unfold lru.without.
    generalize (lru.entries c). intros es.
    induction es as [|[k' v'] es IH]; [done|]. csimpl.
    destruct (decide (k' = k)) as [->|Hne].
    - rewrite !filter_cons_False by naive_solver. done.
    - rewrite !filter_cons_True by done. csimpl. by f_equal. }
  exists p, c'.
  split; [done|]. split; [done|]. split; [by rewrite Hd|].
  split; [done|]. split; [by rewrite Hkeys, last_snoc|].
  split; [|split].
  - intros k' Hne. apply (entries_stored_eq r c r c'); [done..|].
    intros v. rewrite Hmem. naive_solver.
  - intros k'. rewrite !(present_key r) by done. unfold lru.keys.
    rewrite !list_elem_of_fmap. split.
    + intros ([k'' v] & -> & Hin). apply Hmem in Hin as [[_ Hin]|[-> ->]].
      * by exists (k'', v).
      * exists (k, v1). split; [done|]. by apply (stored_entry r).
    + intros ([k'' v] & -> & Hin). destruct (decide (k'' = k)) as [->|Hne].
      * exists (k, if update then v2 else v1). split; [done|].
        apply Hmem. by right.
      * exists (k'', v). split; [done|]. apply Hmem. by left.
  - assert (k ∈ lru.keys c) as Hin.
    { apply (present_key r); [done|]. apply (stored_Some r); [done|]. by eexists. }
    pose proof (splice_Permutation _ k (entries_NoDup r c Hwf) Hin) as Hperm.
    pose proof Hwf as (_ & _ & _ & Hsz & _).
    pose proof Hwf' as (_ & _ & _ & Hsz' & _).
    rewrite Hsz, Hsz', <- !(entries_length r) by done.
    rewrite <- (length_fmap fst (lru.entries c')).
    rewrite <- (length_fmap fst (lru.entries c)).
    fold (lru.keys c') (lru.keys c). by rewrite Hkeys, Hperm.
Qed.

(** *** Filling an empty cache *)

Lemma inserts_fill lim (kvs : list (K * V * bool)) es :
  NoDup (es.*1 ++ kvs.*1.*1) →
  (length es + length kvs ≤ lim)%nat →
  fold_left (λ es o, lru.entries_step lim o es) (lru.inserts kvs) es
  = es ++ kvs.*1.
Proof.
  revert es. induction kvs as [|[[k v] u] kvs IH]; intros es Hnd Hlen.
  { by rewrite app_nil_r. }
  simpl in *. unfold lru.entries_insert.
  apply NoDup_app in Hnd as (Hes & Hdisj & [Hk Hkvs]%NoDup_cons).
  assert (k ∉ es.*1) as Hfresh by (intros Hin; apply (Hdisj k Hin); by left).
  rewrite (proj2 (assoc_None es k) Hfresh).
  rewrite decide_True by lia.
  rewrite IH.
  - by rewrite <- app_assoc.
  - rewrite fmap_app. simpl. rewrite <- app_assoc. simpl.
    apply NoDup_app. split; [done|]. split; [|by apply NoDup_cons].
    intros x Hx. by apply Hdisj.
  - rewrite length_app. simpl. lia.
Qed.

Lemma inserts_overflow lim (kvs : list (K * V * bool)) :
  (1 ≤ lim)%nat →
  NoDup kvs.*1.*1 →
  length kvs = S lim →
  fold_left (λ es o, lru.entries_step lim o es) (lru.inserts kvs) []
  = tail kvs.*1.
Proof.
  intros Hlim Hnd Hlen.
  destruct (decide (kvs = [])) as [->|Hne]; [done|].
  destruct (exists_last Hne) as (kvs' & [[k v] u] & ->).
  rewrite length_app in Hlen. simpl in Hlen.
  rewrite !fmap_app in Hnd. simpl in Hnd.
  unfold lru.inserts. rewrite fmap_app, fold_left_app.
  fold (lru.inserts kvs'). rewrite (inserts_fill lim kvs' []).
  - simpl. unfold lru.entries_insert.
    apply NoDup_app in Hnd as (Hnd' & Hdisj & _).
    assert (k ∉ kvs'.*1.*1) as Hfresh.
    { intros Hin. apply (Hdisj k Hin). by left. }
    rewrite (proj2 (assoc_None _ k) Hfresh).
    rewrite decide_False by (rewrite length_fmap; lia).
    rewrite fmap_app. simpl. destruct kvs' as [|x kvs']; [simpl in *; lia|done].
  - simpl. by apply NoDup_app in Hnd as (? & _).
  - simpl. lia.
Qed.

(** C1. Take a constructed cache and insert [limit + 1] pairwise distinct
    keys, with nothing in between.  When the cache was built by
    [lru_cache(limit)], or by [lru_cache(limit, initCap)] with
    [initCap >= 1], all calls return, and afterwards the cache holds exactly
    the last [limit] keys with their values, in insertion order: the key
    inserted first is absent, [get] and [peek] return the empty optional for
    it, every later key is present with its value, and the first key is the
    only absent one of the sequence.  When it was built by
    [lru_cache(limit, 0)], the first of these inserts constructs its node
    outside a block of no slots, which is undefined, and the sequence has no
    final state.  No assertion fails either way. *)
Theorem first_inserted_is_evicted c0 (kvs : list (K * V * bool)) :
  lru.constructed AllocBlockSize c0 →
  NoDup kvs.*1.*1 →
  length kvs = S (lru.limit c0) →
  match run (lru.inserts kvs) c0 with
  | Ok c =>
      lru.entries c = tail kvs.*1 ∧
      (∀ k, head kvs.*1.*1 = Some k →
         ¬ lru.present c k ∧
         lru.get k c = Ok (None, c) ∧ lru.peek k c = Ok (None, c)) ∧
      (∀ k v, (k, v) ∈ tail kvs.*1 →
         lru.present c k ∧ lru.stored c k = Some v ∧
         ∃ p, lru.peek k c = Ok (Some p, c) ∧ lru.deref c p = Some v) ∧
      (∀ k, k ∈ kvs.*1.*1 → ¬ lru.present c k → head kvs.*1.*1 = Some k)
  | AssertionFailed _ => False
  | Undefined what =>
      what = "node constructed outside its block" ∧
      ∃ lim, lru.create_reserved lim 0 = Ok c0
  end ∧
  (∀ lim, lru.constructed_with AllocBlockSize lim c0 →
     ∃ c, run (lru.inserts kvs) c0 = Ok c) ∧
  (∀ lim, lru.create_reserved lim 0 = Ok c0 →
     run (lru.inserts kvs) c0 = Undefined "node constructed outside its block").
Proof.
  intros Hc Hnd Hlen.
  assert (∀ lim, lru.create_reserved lim 0 = Ok c0 →
    run (lru.inserts kvs) c0
    = Undefined "node constructed outside its block") as Hzero.
  { intros lim Hz. destruct (create_reserved_zero _ _ Hz) as [Hlim ->].
    destruct kvs as [|[[k0 v0] u0] kvs]; [done|].
    cbn [lru.inserts fmap list_fmap lru.run lru.step fst snd].
    unfold lru.discard. by rewrite insert_without_capacity. }
  split; [|split; [intros lim Hw; by apply (run_total lim)|exact Hzero]].
  destruct (run (lru.inserts kvs) c0) as [c|msg|what] eqn:Hrun.
  2:{ destruct (constructed_wf _ Hc) as (r & Hwf0 & _).
      pose proof (run_spec r (lru.inserts kvs) c0 Hwf0) as Hs.
      by rewrite Hrun in Hs. }
  2:{ assert (∃ lim, lru.create_reserved (K:=K) (V:=V) lim 0 = Ok c0)
        as [lim Hz].
      { destruct Hc as [[lim Hc]|(lim & initCap & Hr & Hc)].
        - destruct (run_total lim c0 (lru.inserts kvs)) as [c Hok];
            [by left|congruence].
        - destruct (decide (initCap = 0)) as [->|Hne]; [by exists lim|].
          destruct (run_total lim c0 (lru.inserts kvs)) as [c Hok];
            [|congruence].
          right. exists initCap. split; [lia|done]. }
      split; [|by exists lim]. specialize (Hzero lim Hz). congruence. }
  destruct (reachable_wf c0 _ c Hc Hrun) as (r & Hwf & _ & Hlim & Hent).
  rewrite (inserts_overflow (lru.limit c0) kvs Hlim Hnd Hlen) in Hent.
  split; [done|].
  destruct kvs as [|[[k0 v0] u0] kvs]; [done|]. simpl in Hnd, Hent |- *.
  apply NoDup_cons in Hnd as [Hk0 Hnd].
  assert (¬ lru.present c k0) as Habs.
  { rewrite (present_key r) by done. unfold lru.keys. by rewrite Hent. }
  split; [|split].
  - intros k [= <-]. split; [done|].
    assert (lru.m_index (lru.dict c) !! k0 = None) as Hi.
    { apply eq_None_not_Some. exact Habs. }
    by rewrite get_miss, peek_miss.
  - intros k v Hin.
    assert (lru.stored c k = Some v) as Hs.
    { apply (stored_entry r); [done|]. by rewrite Hent. }
    split; [apply (stored_Some r); [done|by eexists]|]. split; [done|].
    destruct (peek_spec r c k Hwf) as ([p|] & Hpeek & Hres).
    + destruct Hres as [Hd _]. exists p. split; [done|]. by rewrite Hd.
    + congruence.
  - intros k [->|Hin]%elem_of_cons Hnp; [done|]. destruct Hnp.
    apply (present_key r); [done|]. unfold lru.keys. by rewrite Hent.
Qed.

(** *** How the operations move keys *)

Lemma without_keys es k :
  (lru.without k es).*1 = filter (λ x, x ≠ k) es.*1.
Proof.
  unfold lru.without. induction es as [|[k' v'] es IH]; [done|]. csimpl.
  destruct (decide (k' = k)) as [->|Hne].
  - rewrite !filter_cons_False by naive_solver. done.
  - rewrite !filter_cons_True by done. csimpl. by f_equal.
Qed.

Lemma assoc_is_Some es k : is_Some (lru.assoc k es) ↔ k ∈ es.*1.
Proof.
  rewrite <- not_eq_None_Some, assoc_None. split; [apply dec_stable|tauto].
Qed.

Lemma entries_insert_keys lim k v u es :
  let keys' := (lru.entries_insert lim k v u es).*1 in
  (k ∈ es.*1 ∧ keys' = filter (λ x, x ≠ k) (es.*1) ++ [k]) ∨
  ((k ∉ es.*1) ∧ length es ≠ lim ∧ keys' = (es.*1) ++ [k]) ∨
  ((k ∉ es.*1) ∧ length es = lim ∧ keys' = tail (es.*1) ++ [k]).
Proof.
  cbv zeta. unfold lru.entries_insert.
  destruct (lru.assoc k es) as [v0|] eqn:Ha.
  - left. split; [apply (proj1 (assoc_is_Some es k)); by eexists|].
    by rewrite fmap_app, without_keys.
  - apply assoc_None in Ha. right. case_decide as Hlen; [left|right].
    + by rewrite fmap_app.
    + split; [done|]. split; [lia|].
      rewrite fmap_app. by destruct es.
Qed.

Lemma entries_get_keys k es :
  (k ∈ es.*1 ∧
   (lru.entries_get k es).*1 = filter (λ x, x ≠ k) (es.*1) ++ [k]) ∨
  ((k ∉ es.*1) ∧ lru.entries_get k es = es).
Proof.
  unfold lru.entries_get. destruct (lru.assoc k es) as [v0|] eqn:Ha.
  - left. split; [apply (proj1 (assoc_is_Some es k)); by eexists|].
    by rewrite fmap_app, without_keys.
  - apply assoc_None in Ha. by right.
Qed.

(** *** Counting the entries *)

Lemma entries_step_count lim o es (D : gset K) :
  (1 ≤ lim)%nat →
  NoDup es.*1 →
  (∀ k, k ∈ es.*1 → k ∈ D) →
  (length es ≤ lim)%nat →
  ((length es < lim)%nat → ∀ k, k ∈ D → k ∈ es.*1) →
  let es' := lru.entries_step lim o es in
  NoDup es'.*1 ∧
  (∀ k, k ∈ es'.*1 → k ∈ D ∪ lru.inserted_key o) ∧
  (length es' ≤ lim)%nat ∧
  ((length es' < lim)%nat → ∀ k, k ∈ D ∪ lru.inserted_key o → k ∈ es'.*1) ∧
  (length es ≤ length es')%nat.
Proof.
  intros Hlim Hnd Hsub Hlen Hall.
  assert (∀ k v u,
    let es' := lru.entries_insert lim k v u es in
    NoDup es'.*1 ∧
    (∀ k', k' ∈ es'.*1 → k' ∈ D ∪ {[ k ]}) ∧
    (length es' ≤ lim)%nat ∧
    ((length es' < lim)%nat → ∀ k', k' ∈ D ∪ {[ k ]} → k' ∈ es'.*1) ∧
    (length es ≤ length es')%nat) as Hins.
  { intros k v u es'.
    rewrite <- (length_fmap fst es'), <- (length_fmap fst es).
    rewrite <- (length_fmap fst es) in Hlen, Hall.
    destruct (entries_insert_keys lim k v u es)
      as [[Hin Hk]|[(Hin & Hne & Hk)|(Hin & He & Hk)]]; fold es' in Hk;
      rewrite Hk.
    - pose proof (splice_Permutation _ k Hnd Hin) as Hperm. rewrite Hperm.
      setoid_rewrite Hperm.
      split; [done|]. split; [set_solver|]. split; [done|].
      split; [|done]. intros Hlt k' [Hk'|Hk']%elem_of_union; [by apply Hall|].
      apply elem_of_singleton in Hk'. by subst.
    - rewrite <- (length_fmap fst es) in Hne. rewrite length_app. simpl.
      split; [apply NoDup_app; split; [done|]; split; [|apply NoDup_singleton];
              intros x Hx ->%list_elem_of_singleton; done|].
      split; [intros k'; rewrite elem_of_app, list_elem_of_singleton; set_solver|].
      split; [lia|]. split; [|lia].
      intros Hlt k'. rewrite elem_of_app, list_elem_of_singleton.
      intros [Hk'|Hk']%elem_of_union; [left; apply Hall; [lia|done]|right].
      by apply elem_of_singleton in Hk'.
    - rewrite <- (length_fmap fst es) in He.
      destruct es.*1 as [|k1 ks] eqn:Hks; [simpl in *; lia|]. simpl in *.
      apply NoDup_cons in Hnd as [Hk1 Hnd]. rewrite length_app. simpl.
      apply not_elem_of_cons in Hin as [Hkk1 Hin].
      split; [apply NoDup_app; split; [done|]; split; [|apply NoDup_singleton];
              intros x Hx ->%list_elem_of_singleton; done|].
      split.
      { intros k'. rewrite elem_of_app, list_elem_of_singleton.
        intros [Hk'| ->]; [|set_solver]. apply elem_of_union_l, Hsub. by right. }
      split; [lia|]. split; [lia|lia]. }
  destruct o as [k v u|k v|k|k|]; simpl.
  - apply Hins.
  - apply Hins.
  - rewrite union_empty_r_L.
    rewrite <- (length_fmap fst (lru.entries_get k es)), <- (length_fmap fst es).
    rewrite <- (length_fmap fst es) in Hlen, Hall.
    destruct (entries_get_keys k es) as [[Hin Hk]|[Hin Hk]]; rewrite Hk.
    + pose proof (splice_Permutation _ k Hnd Hin) as Hperm. rewrite Hperm.
      setoid_rewrite Hperm. by repeat split.
    + by repeat split.
  - rewrite union_empty_r_L. by repeat split.
  - rewrite union_empty_r_L. by repeat split.
Qed.

Lemma entries_fold_count lim ops es (D : gset K) :
  (1 ≤ lim)%nat →
  NoDup es.*1 →
  (∀ k, k ∈ es.*1 → k ∈ D) →
  (length es ≤ lim)%nat →
  ((length es < lim)%nat → ∀ k, k ∈ D → k ∈ es.*1) →
  let es' := fold_left (λ es o, lru.entries_step lim o es) ops es in
  NoDup es'.*1 ∧
  (∀ k, k ∈ es'.*1 → k ∈ D ∪ lru.inserted_keys ops) ∧
  (length es' ≤ lim)%nat ∧
  ((length es' < lim)%nat → ∀ k, k ∈ D ∪ lru.inserted_keys ops → k ∈ es'.*1).
Proof.
  intros Hlim. revert es D.
  induction ops as [|o ops IH]; intros es D Hnd Hsub Hlen Hall; simpl.
  { unfold lru.inserted_keys. simpl. rewrite union_empty_r_L. by repeat split. }
  destruct (entries_step_count lim o es D Hlim Hnd Hsub Hlen Hall)
    as (Hnd' & Hsub' & Hlen' & Hall' & _).
  specialize (IH _ _ Hnd' Hsub' Hlen' Hall').
  unfold lru.inserted_keys in *. rewrite fmap_cons, union_list_cons.
  by rewrite (assoc_L (∪)).
Qed.

Lemma entries_count lim es (D : gset K) :
  NoDup es.*1 →
  (∀ k, k ∈ es.*1 → k ∈ D) →
  (length es ≤ lim)%nat →
  ((length es < lim)%nat → ∀ k, k ∈ D → k ∈ es.*1) →
  length es = (lim `min` size D)%nat.
Proof.
  intros Hnd Hsub Hlen Hall.
  assert (length es = size (list_to_set es.*1 : gset K)) as Hsz.
  { by rewrite size_list_to_set, length_fmap. }
  assert ((list_to_set es.*1 : gset K) ⊆ D) as Hsubset.
  { intros k Hk. apply Hsub. by apply elem_of_list_to_set in Hk. }
  pose proof (subseteq_size _ _ Hsubset) as Hle.
  destruct (decide (length es < lim)%nat) as [Hlt|Hge]; [|lia].
  assert ((list_to_set es.*1 : gset K) = D) as Heq.
  { apply set_eq. intros k. rewrite elem_of_list_to_set. split; [apply Hsub|].
    by apply Hall. }
  rewrite Heq in Hsz. lia.
Qed.

Lemma constructed_cases c0 :
  lru.constructed AllocBlockSize c0 →
  (∃ lim, lru.constructed_with AllocBlockSize lim c0) ∨
  (∃ lim, lru.create_reserved lim 0 = Ok c0).
Proof.
  intros [[lim Hc]|(lim & initCap & Hr & Hc)].
  - left. exists lim. by left.
  - destruct (decide (initCap = 0)) as [->|Hne]; [right; by exists lim|].
    left. exists lim. right. exists initCap. split; [lia|done].
Qed.

(** C2. A sequence of public operations on a constructed cache runs to the end,
    unless the cache was constructed by [lru_cache(limit, 0)], and never fails
    an assertion.  In the state it reaches, the number of present keys is the
    length of the recency list and is at most [limit], which is at least 1 and
    is the value given at construction.  It is exactly the smaller of [limit]
    and the number of distinct keys the operations so far asked to insert, so
    it is [limit] from the moment [limit] distinct keys have been inserted;
    and no operation makes it smaller. *)
Theorem capacity_invariant c0 ops :
  lru.constructed AllocBlockSize c0 →
  match run ops c0 with
  | Ok c =>
      size (lru.m_index (lru.dict c)) = length (lru.l_order (lru.cache c)) ∧
      size (lru.m_index (lru.dict c)) = length (lru.keys c) ∧
      (∀ k, lru.present c k ↔ k ∈ lru.keys c) ∧
      NoDup (lru.keys c) ∧
      (size (lru.m_index (lru.dict c)) ≤ lru.limit c)%nat ∧
      (1 ≤ lru.limit c)%nat ∧
      lru.limit c = lru.limit c0 ∧
      size (lru.m_index (lru.dict c))
        = (lru.limit c0 `min` size (lru.inserted_keys ops))%nat ∧
      (∀ o c',
         step o c = Ok c' →
         (size (lru.m_index (lru.dict c))
          ≤ size (lru.m_index (lru.dict c')))%nat)
  | AssertionFailed _ => False
  | Undefined _ => ∃ lim, lru.create_reserved lim 0 = Ok c0
  end.
Proof.
  intros Hc.
  destruct (run ops c0) as [c|msg|what] eqn:Hrun.
  2:{ destruct (constructed_wf _ Hc) as (r & Hwf0 & _).
      pose proof (run_spec r ops c0 Hwf0) as Hs. by rewrite Hrun in Hs. }
  2:{ destruct (constructed_cases _ Hc) as [[lim Hw]|?]; [|done].
      destruct (run_total lim c0 ops Hw) as [c Hok]. congruence. }
  destruct (reachable_wf _ _ _ Hc Hrun) as (r & Hwf & Hlim & Hlim1 & Hent).
  pose proof Hwf as (_ & _ & _ & Hsz & Hle & _).
  pose proof (entries_length r c Hwf) as Hlen.
  split; [done|]. split; [by rewrite Hsz, <- Hlen; unfold lru.keys;
                          rewrite length_fmap|].
  split; [intros k; by apply (present_key r)|].
  split; [by apply (entries_NoDup r)|].
  split; [lia|]. split; [lia|]. split; [done|]. split.
  - destruct (entries_fold_count (lru.limit c0) ops [] ∅)
      as (Hnd & Hsub & Hlen' & Hall); [done|constructor|..].
    { by intros k ?%elem_of_nil. }
    { simpl. lia. }
    { intros _ k ?%elem_of_empty. done. }
    rewrite <- Hent in *. rewrite union_empty_l_L in *.
    rewrite Hsz, <- Hlen. by apply entries_count.
  - intros o c' Hstep. pose proof (step_spec r c o Hwf) as Hs.
    rewrite Hstep in Hs. destruct Hs as (Hwf' & Hlim' & Hent').
    pose proof Hwf' as (_ & _ & _ & Hsz' & _).
    rewrite Hsz, Hsz', <- Hlen, <- (entries_length r c' Hwf'), Hent'.
    destruct (entries_step_count (lru.limit c) o (lru.entries c)
                (list_to_set (lru.keys c))) as (_ & _ & _ & _ & Hmono);
      [lia|by apply (entries_NoDup r)|..|done].
    + intros k. by rewrite elem_of_list_to_set.
    + lia.
    + intros _ k. by rewrite elem_of_list_to_set.
Qed.

(** *** Histories and recency *)

Lemma run_snoc ops o c0 :
  run (ops ++ [o]) c0 =
    match run ops c0 with
    | Ok c => step o c
    | AssertionFailed msg => AssertionFailed msg
    | Undefined what => Undefined what
    end.
Proof.
  revert c0. induction ops as [|o' ops IH]; intros c0; simpl.
  - by destruct (step o c0).
  - destruct (step o' c0); [apply IH|done..].
Qed.

Lemma touches_snoc ops o c0 c c' :
  run ops c0 = Ok c → step o c = Ok c' →
  lru.touches AllocBlockSize (ops ++ [o]) c0
  = lru.touches AllocBlockSize ops c0 ++ [lru.touched o c].
Proof.
  revert c0. induction ops as [|o' ops IH]; intros c0 Hrun Hstep; simpl in *.
  - simplify_eq. by rewrite Hstep.
  - destruct (step o' c0) as [c1| |]; [|done..]. simpl. f_equal. by apply IH.
Qed.

Lemma last_touch_snoc (h : list (option K)) x k :
  lru.last_touch (h ++ [x]) k =
    if decide (x = Some k) then Some (length h) else lru.last_touch h k.
Proof.
  induction h as [|y h IH]; simpl.
  - by case_decide.
  - rewrite IH. case_decide; [done|]. done.
Qed.

Lemma last_touch_lt (h : list (option K)) k t :
  lru.last_touch h k = Some t → (t < length h)%nat.
Proof.
  revert t. induction h as [|y h IH]; intros t; simpl; [done|].
  destruct (lru.last_touch h k) as [t'|].
  - intros [= <-]. specialize (IH t' eq_refl). lia.
  - case_decide; [|done]. intros [= <-]. lia.
Qed.

Lemma StronglySorted_sublist {A} (R : relation A) (l1 l2 : list A) :
  l1 `sublist_of` l2 → StronglySorted R l2 → StronglySorted R l1.
Proof.
  induction 1 as [|x l1 l2 Hsub IH|x l1 l2 Hsub IH]; [done|..];
    rewrite !StronglySorted_cons, ?Forall_forall; intros [Hall Hs].
  - split; [|by apply IH]. intros y Hy. apply Hall.
    by eapply elem_of_sublist.
  - by apply IH.
Qed.

Lemma StronglySorted_weaken {A} (R R' : relation A) (l : list A) :
  (∀ x y, x ∈ l → y ∈ l → R x y → R' x y) →
  StronglySorted R l → StronglySorted R' l.
Proof.
  induction l as [|x l IH]; [constructor|].
  intros Himp [Hall Hs]%StronglySorted_cons. apply StronglySorted_cons. split.
  - rewrite Forall_forall in *. intros y Hy.
    apply Himp; [by left|by right|by apply Hall].
  - apply IH; [|done]. intros y z Hy Hz. apply Himp; by right.
Qed.

Lemma recency_bump (h : list (option K)) (ks l : list K) k :
  StronglySorted (lru.bumped_before h) ks →
  (∀ x, x ∈ ks → is_Some (lru.last_touch h x)) →
  l `sublist_of` ks → k ∉ l →
  StronglySorted (lru.bumped_before (h ++ [Some k])) (l ++ [k]) ∧
  (∀ x, x ∈ l ++ [k] → is_Some (lru.last_touch (h ++ [Some k]) x)).
Proof.
  intros Hs Hall Hsub Hk.
  assert (∀ x, x ∈ l → lru.last_touch (h ++ [Some k]) x = lru.last_touch h x)
    as Hsame.
  { intros x Hx. rewrite last_touch_snoc.
    rewrite decide_False; [done|]. intros [= ->]. done. }
  assert (lru.last_touch (h ++ [Some k]) k = Some (length h)) as Hlast.
  { rewrite last_touch_snoc. by rewrite decide_True. }
  split.
  - apply StronglySorted_app_2.
    + intros x y Hx ->%list_elem_of_singleton.
      destruct (Hall x) as [t Ht]; [by eapply elem_of_sublist|].
      exists t, (length h). rewrite Hsame, Hlast by done.
      split; [done|]. split; [done|]. by eapply last_touch_lt.
    + apply (StronglySorted_weaken (lru.bumped_before h)).
      * intros x y Hx Hy (t1 & t2 & H1 & H2 & Hlt).
        exists t1, t2. by rewrite !Hsame.
      * by eapply StronglySorted_sublist.
    + repeat constructor.
  - intros x [Hx| ->%list_elem_of_singleton]%elem_of_app.
    + rewrite Hsame by done. apply Hall. by eapply elem_of_sublist.
    + by rewrite Hlast.
Qed.

Lemma recency_keep (h : list (option K)) (ks : list K) :
  StronglySorted (lru.bumped_before h) ks →
  (∀ x, x ∈ ks → is_Some (lru.last_touch h x)) →
  StronglySorted (lru.bumped_before (h ++ [None])) ks ∧
  (∀ x, x ∈ ks → is_Some (lru.last_touch (h ++ [None]) x)).
Proof.
  intros Hs Hall.
  assert (∀ x, lru.last_touch (h ++ [None]) x = lru.last_touch h x) as Hsame.
  { intros x. rewrite last_touch_snoc. by rewrite decide_False. }
  split.
  - apply (StronglySorted_weaken (lru.bumped_before h)); [|done].
    intros x y _ _ (t1 & t2 & H1 & H2 & Hlt). exists t1, t2. by rewrite !Hsame.
  - intros x Hx. rewrite Hsame. by apply Hall.
Qed.

Lemma keys_step r c o c' :
  wf r c → step o c = Ok c' →
  match lru.touched o c with
  | Some k =>
      ∃ l, lru.keys c' = l ++ [k] ∧ l `sublist_of` lru.keys c ∧ k ∉ l
  | None => lru.keys c' = lru.keys c
  end.
Proof.
  intros Hwf Hstep. pose proof (step_spec r c o Hwf) as Hs.
  rewrite Hstep in Hs. destruct Hs as (Hwf' & _ & Hent).
  assert (∀ k v u,
    lru.entries c' = lru.entries_insert (lru.limit c) k v u (lru.entries c) →
    ∃ l, lru.keys c' = l ++ [k] ∧ l `sublist_of` lru.keys c ∧ k ∉ l) as Hins.
  { intros k v u He. unfold lru.keys. rewrite He.
    destruct (entries_insert_keys (lru.limit c) k v u (lru.entries c))
      as [[Hin ->]|[(Hin & _ & ->)|(Hin & _ & ->)]].
    - eexists. split; [done|]. split; [apply sublist_filter|].
      rewrite list_elem_of_filter. naive_solver.
    - eexists. split; [done|]. by split.
    - eexists. split; [done|]. split; [apply (sublist_drop _ 1)|].
      intros Hk. apply Hin. by eapply elem_of_sublist, (sublist_drop _ 1). }
  destruct o as [k v u|k v|k|k|]; simpl in *; eauto.
  - unfold lru.keys. rewrite Hent.
    destruct (entries_get_keys k (lru.entries c)) as [[Hin Hk]|[Hin Hk]].
    + assert (lru.present c k) as [kp ->] by by apply (present_key r).
      rewrite Hk. eexists. split; [done|]. split; [apply sublist_filter|].
      rewrite list_elem_of_filter. naive_solver.
    + assert (lru.m_index (lru.dict c) !! k = None) as ->.
      { apply eq_None_not_Some. intros Hp. by apply Hin, (present_key r). }
      by rewrite Hk.
  - unfold lru.keys. by rewrite Hent.
  - unfold lru.keys. by rewrite Hent.
Qed.

Lemma recency_sorted c0 ops c :
  lru.constructed AllocBlockSize c0 → run ops c0 = Ok c →
  StronglySorted (lru.bumped_before (lru.touches AllocBlockSize ops c0))
    (lru.keys c) ∧
  (∀ k, k ∈ lru.keys c →
        is_Some (lru.last_touch (lru.touches AllocBlockSize ops c0) k)).
Proof.
  intros Hc. revert c. induction ops as [|o ops IH] using rev_ind; intros c.
  - intros [= <-]. destruct (constructed_wf _ Hc) as (r & _ & Hent & _).
    unfold lru.keys. rewrite Hent. split; [constructor|].
    by intros k ?%elem_of_nil.
  - rewrite run_snoc. destruct (run ops c0) as [c1| |] eqn:Hrun; [|done..].
    intros Hstep. destruct (IH c1 eq_refl) as [Hs Hall].
    destruct (reachable_wf _ _ _ Hc Hrun) as (r & Hwf & _).
    rewrite (touches_snoc ops o c0 c1 c Hrun Hstep).
    pose proof (keys_step r c1 o c Hwf Hstep) as Hk.
    destruct (lru.touched o c1) as [k|].
    + destruct Hk as (l & -> & Hsub & Hnin). by apply recency_bump with (lru.keys c1).
    + rewrite Hk. by apply recency_keep.
Qed.

(** C5. On every state a constructed cache can reach, [forEach(fn)] returns,
    leaves the whole state as it was, and has called [fn] on the entries of
    the cache from front to back.  These entries are the present keys, each
    once, with their stored values, and they are ordered by the last time the
    history bumped them: every key in the list was last touched by an insert
    or a hitting get strictly before every key after it. *)
Theorem forEach_in_recency_order c0 ops c :
  lru.constructed AllocBlockSize c0 → run ops c0 = Ok c →
  (∀ (A : Type) (fn : K → V → A → A) (acc : A),
     lru.forEach fn acc c
     = Ok (fold_left (λ a e, fn e.1 e.2 a) (lru.entries c) acc, c)) ∧
  lru.forEach lru.collect [] c = Ok (lru.entries c, c) ∧
  NoDup (lru.keys c) ∧
  (∀ k, k ∈ lru.keys c ↔ lru.present c k) ∧
  (∀ k v, (k, v) ∈ lru.entries c ↔ lru.stored c k = Some v) ∧
  StronglySorted (lru.bumped_before (lru.touches AllocBlockSize ops c0))
    (lru.keys c) ∧
  (∀ k, k ∈ lru.keys c →
        is_Some (lru.last_touch (lru.touches AllocBlockSize ops c0) k)).
Proof.
  intros Hc Hrun. destruct (reachable_wf _ _ _ Hc Hrun) as (r & Hwf & _).
  split; [intros A fn acc; by apply (forEach_spec fn r)|].
  split.
  { rewrite (forEach_spec _ r) by done. f_equal. f_equal.
    unfold lru.collect. generalize (lru.entries c). intros es.
    enough (∀ seen, fold_left (λ a e, a ++ [(e.1, e.2)]) es seen = seen ++ es)
      as Hgen by apply (Hgen []).
    induction es as [|[k v] es IH]; intros seen; simpl.
    - by rewrite app_nil_r.
    - by rewrite IH, <- app_assoc. }
  split; [by apply (entries_NoDup r)|].
  split; [intros k; symmetry; by apply (present_key r)|].
  split; [intros k v; symmetry; by apply (stored_entry r)|].
  by apply recency_sorted.
Qed.

(** C9. Both allocators of the cache are instantiated with the free list
    disabled.  For such an allocator [deallocate(ptr, 1)] returns the state it
    was given and calls nothing, and no [allocate(1)] ever returns a slot that
    the allocator has handed out before, released or not.  The cache recycles
    storage itself: an insert of an absent key into a full cache leaves both
    allocators untouched, overwrites the front list node and the map node of
    the key stored there, and links them again under the new key. *)
Theorem cache_allocators_do_not_recycle :
  lru.ListAllocTy_UseFreeList = false ∧
  lru.MapAllocTy_UseFreeList = false ∧
  (∀ fl, fl ∈ [lru.ListAllocTy_UseFreeList; lru.MapAllocTy_UseFreeList] →
     (∀ ptr a, pool.deallocate fl ptr 1 a = (a, [])) ∧
     (∀ reserved a live given p a' ev,
        reserved < 2 ^ 32 →
        pool.in_use fl AllocBlockSize reserved a live given →
        pool.allocate fl AllocBlockSize 1 a = Ok (p, a', ev) →
        ∀ n, (p, n) ∉ given)) ∧
  (∀ c0 ops c key value update,
     lru.constructed AllocBlockSize c0 → run ops c0 = Ok c →
     ¬ lru.present c key →
     size (lru.m_index (lru.dict c)) = lru.limit c →
     ∃ front rest old nod v c',
       lru.l_order (lru.cache c) = front :: rest ∧
       lru.entry_at c front = Some (old, v) ∧
       lru.m_index (lru.dict c) !! old = Some nod ∧
       insert key value update c = Ok ((front, true), c') ∧
       lru.l_alloc (lru.cache c') = lru.l_alloc (lru.cache c) ∧
       lru.m_alloc (lru.dict c') = lru.m_alloc (lru.dict c) ∧
       lru.l_order (lru.cache c') = rest ++ [front] ∧
       lru.m_index (lru.dict c') !! key = Some nod ∧
       lru.m_index (lru.dict c') !! old = None ∧
       lru.entry_at c' front = Some (key, value)).
Proof.
  split; [done|]. split; [done|]. split.
  - intros fl Hfl.
    assert (fl = false) as ->.
    { apply elem_of_cons in Hfl as [->|Hfl]; [done|].
      by apply list_elem_of_singleton in Hfl as ->. }
    split; [done|]. intros reserved a live given p a' ev Hr Hu Ha.
    by eapply allocate_one_never_again.
  - intros c0 ops c key value update Hc Hrun Habs Hfull.
    destruct (reachable_wf _ _ _ Hc Hrun) as (r & Hwf & _ & Hlim & _).
    pose proof Hwf as (Hnd & _ & _ & Hsz & _ & Hl1 & _).
    assert (lru.m_index (lru.dict c) !! key = None) as Hi.
    { apply eq_None_not_Some. exact Habs. }
    destruct (lru.l_order (lru.cache c)) as [|front rest] eqn:Ho;
      [simpl in *; lia|].
    destruct (wf_evict r c key value front rest Hwf Hi Ho)
      as (kp & old & v & Hl & Hm & Hold & Hwf' & Hent).
    exists front, rest, old, kp, v. eexists.
    split; [done|].
    split; [unfold lru.entry_at; by rewrite Hl, Hm|].
    split; [done|].
    split; [by apply (insert_evict c key value update front rest kp v old front kp)|].
    simpl. split; [done|]. split; [done|].
    split.
    { rewrite filter_cons_False by naive_solver.
      by rewrite filter_ne_id by (by apply NoDup_cons in Hnd as [? _]). }
    split; [by rewrite lookup_insert_eq|].
    split.
    { rewrite lookup_insert_ne by congruence. apply lookup_delete_eq. }
    unfold lru.entry_at. simpl. by rewrite !lookup_insert_eq.
Qed.

(** * Further properties of the cache *)

Lemma reachable_wf_sound lim c0 ops c :
  lru.constructed_with AllocBlockSize lim c0 → run ops c0 = Ok c →
  ∃ r, 1 ≤ r ∧ wf r c ∧ lru.limit c = lim.
Proof.
  intros Hc Hrun. destruct (constructed_with_wf _ _ Hc) as (r & Hr & Hwf & _ & Hlim & _).
  pose proof (run_spec r ops c0 Hwf) as Hs. rewrite Hrun in Hs.
  destruct Hs as (Hwf' & Hlim' & _). exists r. split; [done|]. split; [done|].
  congruence.
Qed.

Lemma size_entries r c :
  wf r c → size (lru.m_index (lru.dict c)) = length (lru.entries c).
Proof.
  intros Hwf. pose proof Hwf as (_ & _ & _ & -> & _).
  by rewrite (entries_length r).
Qed.

Lemma absent_lookup c key :
  ¬ lru.present c key → lru.m_index (lru.dict c) !! key = None.
Proof. intros Habs. apply eq_None_not_Some. exact Habs. Qed.

Lemma insert_ok r c key value update :
  1 ≤ r → wf r c →
  ∃ p inserted c',
    insert key value update c = Ok ((p, inserted), c') ∧
    wf r c' ∧
    lru.limit c' = lru.limit c ∧
    lru.entries c' =
      lru.entries_insert (lru.limit c) key value update (lru.entries c) ∧
    inserted = bool_decide (lru.stored c key = None) ∧
    lru.deref c' p = lru.stored c' key.
Proof.
  intros Hr Hwf. pose proof (insert_spec r c key value update Hwf) as Hs.
  destruct (insert key value update c) as [[[p b] c']| |]; [|done|lia].
  destruct Hs as (? & ? & ? & ? & ? & _). by exists p, b, c'.
Qed.

(** X1. On a state a soundly constructed cache can reach, inserting an absent
    key while the cache holds fewer than [limit] keys returns
    [inserted = true] and a pointer to the new value, appends the entry at the
    most recently used end on a new list node, and keeps every other entry,
    in its order and with its value: nothing is evicted. *)
Theorem insert_absent_with_room lim c0 ops c key value update :
  lru.constructed_with AllocBlockSize lim c0 → run ops c0 = Ok c →
  ¬ lru.present c key →
  (size (lru.m_index (lru.dict c)) < lru.limit c)%nat →
  ∃ p c',
    insert key value update c = Ok ((p, true), c') ∧
    lru.entries c' = lru.entries c ++ [(key, value)] ∧
    lru.l_order (lru.cache c') = lru.l_order (lru.cache c) ++ [p] ∧
    lru.deref c' p = Some value ∧
    lru.stored c' key = Some value ∧
    (∀ k, k ≠ key → lru.stored c' k = lru.stored c k) ∧
    size (lru.m_index (lru.dict c')) = S (size (lru.m_index (lru.dict c))).
Proof.
  intros Hc Hrun Habs Hroom.
  destruct (reachable_wf_sound _ _ _ _ Hc Hrun) as (r & Hr & Hwf & _).
  pose proof (absent_lookup _ _ Habs) as Hi.
  pose proof (stored_absent _ _ Hi) as Hs.
  pose proof Hwf as (_ & _ & _ & _ & _ & _ & _ & _ & Hil & Him).
  pose proof (new_node_spec r _ Hil) as Hnl.
  destruct (lru.new_node AllocBlockSize false (lru.l_alloc (lru.cache c)))
    as [[p la]|msg|what] eqn:Hnewl; [|done|lia].
  pose proof (new_node_spec r _ Him) as Hnm.
  destruct (lru.new_node AllocBlockSize false (lru.m_alloc (lru.dict c)))
    as [[mp ma]|msg|what] eqn:Hnewm; [|done|lia].
  destruct Hnl as (Hla & Hp & Hp' & Hlmono), Hnm as (Hma & Hmp & Hmp' & Hmmono).
  pose proof (insert_grow c key value update p la mp ma Hi ltac:(lia) Hnewl Hnewm)
    as Hins.
  destruct (wf_grow r c key value p la mp ma) as [Hwf' Hent]; [done|done|lia|done..|].
  eexists p, _. split; [exact Hins|]. split; [done|]. split; [done|].
  assert (lru.stored
            (lru.mkCache
               (lru.mkMap ma (<[key := mp]> (lru.m_index (lru.dict c)))
                  (<[mp := (key, p)]> (lru.m_nodes (lru.dict c))))
               (lru.mkList la (lru.l_order (lru.cache c) ++ [p])
                  (<[p := (Some mp, value)]> (lru.l_nodes (lru.cache c))))
               (lru.limit c)) key = Some value) as Hs'.
  { apply (stored_entry r); [done|]. rewrite Hent. apply elem_of_app. right.
    by apply list_elem_of_singleton. }
  split; [unfold lru.deref; simpl; by rewrite lookup_insert_eq|].
  split; [done|]. split.
  - intros k Hne. apply (entries_stored_eq r c r); [done..|].
    intros v. rewrite Hent, elem_of_app, list_elem_of_singleton. naive_solver.
  - rewrite (size_entries r c Hwf), (size_entries r _ Hwf'), Hent, length_app.
    simpl. lia.
Qed.

(** X2. On a state a constructed cache can reach, inserting an absent key
    while the cache holds [limit] keys evicts exactly the least recently used
    key, the one at the front: that key becomes absent, the new entry goes to
    the most recently used end, and every other entry keeps its place and its
    value.  The call returns [inserted = true] and a pointer to the new
    value, and the number of keys stays [limit]. *)
Theorem insert_absent_at_capacity c0 ops c key value update :
  lru.constructed AllocBlockSize c0 → run ops c0 = Ok c →
  ¬ lru.present c key →
  size (lru.m_index (lru.dict c)) = lru.limit c →
  ∃ p c' old v_old rest,
    lru.entries c = (old, v_old) :: rest ∧
    insert key value update c = Ok ((p, true), c') ∧
    lru.entries c' = rest ++ [(key, value)] ∧
    ¬ lru.present c' old ∧
    lru.stored c' key = Some value ∧
    lru.deref c' p = Some value ∧
    (∀ k, k ≠ old → k ≠ key → lru.stored c' k = lru.stored c k) ∧
    size (lru.m_index (lru.dict c')) = lru.limit c.
Proof.
  intros Hc Hrun Habs Hfull.
  destruct (reachable_wf _ _ _ Hc Hrun) as (r & Hwf & _ & Hlim & _).
  pose proof (absent_lookup _ _ Habs) as Hi.
  pose proof Hwf as (Hnd & _ & _ & Hsz & _ & Hl1 & _).
  destruct (lru.l_order (lru.cache c)) as [|front rest0] eqn:Ho;
    [simpl in *; lia|].
  destruct (wf_evict r c key value front rest0 Hwf Hi Ho)
    as (kp & old & v & Hl & Hm & Hold & Hwf' & Hent).
  pose proof (insert_evict c key value update front rest0 kp v old front kp
                Hi Hfull Ho Hl Hm Hold eq_refl) as Hins.
  assert (lru.entries c = (old, v) :: tail (lru.entries c)) as Hes.
  { assert (lru.entry_at c front = Some (old, v)) as He
      by (unfold lru.entry_at; by rewrite Hl, Hm).
    unfold lru.entries. rewrite Ho. csimpl. by rewrite He. }
  pose proof (entries_NoDup r c Hwf) as Hnk. unfold lru.keys in Hnk.
  rewrite Hes in Hnk. csimpl in Hnk. apply NoDup_cons in Hnk as [Hold' Hnk].
  assert (old ≠ key) as Hok by congruence.
  eexists front, _, old, v, (tail (lru.entries c)).
  split; [done|]. split; [exact Hins|]. split; [done|].
  split.
  { rewrite (present_key r) by done. unfold lru.keys. rewrite Hent, fmap_app.
    csimpl. rewrite elem_of_app, list_elem_of_singleton. naive_solver. }
  assert (lru.stored
            (lru.mkCache
               (lru.mkMap (lru.m_alloc (lru.dict c))
                  (<[key := kp]> (delete old (lru.m_index (lru.dict c))))
                  (<[kp := (key, front)]> (lru.m_nodes (lru.dict c))))
               (lru.mkList (lru.l_alloc (lru.cache c))
                  (filter (λ x, x ≠ front) (front :: rest0) ++ [front])
                  (<[front := (Some kp, value)]> (lru.l_nodes (lru.cache c))))
               (lru.limit c)) key = Some value) as Hs'.
  { apply (stored_entry r); [done|]. rewrite Hent. apply elem_of_app. right.
    by apply list_elem_of_singleton. }
  split; [done|].
  split; [unfold lru.deref; simpl; by rewrite lookup_insert_eq|].
  split.
  - intros k Hne1 Hne2. apply (entries_stored_eq r c r); [done..|].
    intros w. rewrite Hent, elem_of_app, list_elem_of_singleton.
    rewrite Hes at 2. rewrite elem_of_cons. naive_solver.
  - rewrite (size_entries r _ Hwf'), Hent, length_app. simpl.
    rewrite <- Hfull, (size_entries r c Hwf). rewrite Hes at 2. simpl. lia.
Qed.

Lemma with_cache_id c :
  lru.with_cache
    (lru.mkList (lru.l_alloc (lru.cache c)) (lru.l_order (lru.cache c))
       (lru.l_nodes (lru.cache c))) c = c.
Proof. by destruct c as [d [la lo ln] lim]. Qed.

(** X3. On a state a constructed cache can reach, [get] changes nothing but
    the order of the recency list: the index, the map nodes, the list nodes
    with their values and both allocators are the same afterwards, and the
    list holds the same nodes.  On a hit the result designates the stored
    value and the key moves to the most recently used end, the other keys
    keeping their order; on a miss the result is empty and the state is the
    same. *)
Theorem get_only_reorders c0 ops c key :
  lru.constructed AllocBlockSize c0 → run ops c0 = Ok c →
  ∃ res c',
    lru.get key c = Ok (res, c') ∧
    lru.dict c' = lru.dict c ∧
    lru.l_alloc (lru.cache c') = lru.l_alloc (lru.cache c) ∧
    lru.l_nodes (lru.cache c') = lru.l_nodes (lru.cache c) ∧
    lru.limit c' = lru.limit c ∧
    lru.l_order (lru.cache c') ≡ₚ lru.l_order (lru.cache c) ∧
    (∀ k, lru.stored c' k = lru.stored c k) ∧
    match res with
    | Some p =>
        ∃ v, lru.stored c key = Some v ∧ lru.deref c' p = Some v ∧
             lru.keys c' = filter (λ x, x ≠ key) (lru.keys c) ++ [key]
    | None => ¬ lru.present c key ∧ c' = c
    end.
Proof.
  intros Hc Hrun. destruct (reachable_wf _ _ _ Hc Hrun) as (r & Hwf & _).
  destruct (lru.m_index (lru.dict c) !! key) as [kp|] eqn:Hi.
  - destruct (wf_key _ _ _ _ Hwf Hi) as (it & v & Hm & Hin & Hl & He).
    destruct (stored_lookup _ _ _ _ _ _ _ Hi Hm Hl) as [Hs Hd].
    destruct (get_spec r c key Hwf) as (res & c' & Hget & _ & _ & Hent & _).
    rewrite (get_hit c key kp key it) in Hget by done. simplify_eq.
    pose proof Hwf as (Hnd & _).
    eexists (Some it), _. split; [by apply (get_hit c key kp key it)|].
    split; [done|]. split; [done|]. split; [done|]. split; [done|].
    split; [by apply splice_Permutation|]. split; [done|].
    exists v. split; [done|]. split; [done|].
    unfold lru.keys. rewrite Hent. unfold lru.entries_get.
    rewrite <- (stored_assoc r), Hs by done.
    by rewrite fmap_app, without_keys.
  - exists None, c. split; [by apply get_miss|]. repeat (split; [done|]).
    split; [|done]. intros [? ?]. congruence.
Qed.

(** X4. On a state a soundly constructed cache can reach, [getOrInsert(k, v)]
    returns, and is [insert(k, v, false)] with the flag dropped: the
    reference it returns designates the value stored for [k] afterwards,
    which is the value [k] had when it was present and [v] when it was not,
    and [k] is the most recently used key. *)
Theorem getOrInsert_returns_stored lim c0 ops c key value :
  lru.constructed_with AllocBlockSize lim c0 → run ops c0 = Ok c →
  ∃ p c',
    lru.getOrInsert AllocBlockSize key value c = Ok (p, c') ∧
    insert key value false c
      = Ok ((p, bool_decide (¬ lru.present c key)), c') ∧
    lru.stored c' key = Some (default value (lru.stored c key)) ∧
    lru.deref c' p = Some (default value (lru.stored c key)) ∧
    last (lru.keys c') = Some key.
Proof.
  intros Hc Hrun.
  destruct (reachable_wf_sound _ _ _ _ Hc Hrun) as (r & Hr & Hwf & _).
  destruct (insert_ok r c key value false Hr Hwf)
    as (p & b & c' & Hins & Hwf' & _ & Hent & Hb & Hd).
  assert (lru.keys c' = removelast (lru.keys c') ++ [key] ∧
          lru.stored c' key = Some (default value (lru.stored c key)))
    as [Hkeys Hs'].
  { unfold lru.entries_insert in Hent.
    rewrite <- (stored_assoc r) in Hent by done.
    destruct (lru.stored c key) as [v0|] eqn:Hs; [|case_decide];
      (split; [unfold lru.keys; rewrite Hent, fmap_app; csimpl;
               by rewrite removelast_last|]);
      (apply (stored_entry r); [done|]; rewrite Hent, elem_of_app; right;
       by apply list_elem_of_singleton). }
  exists p, c'. split; [unfold lru.getOrInsert; by rewrite (bind_ok _ _ _ _ _ Hins)|].
  split.
  { rewrite Hins, Hb. do 3 f_equal. apply bool_decide_ext.
    by rewrite (stored_None r). }
  split; [done|]. split; [by rewrite Hd|].
  rewrite Hkeys. apply last_snoc.
Qed.

Lemma last_key_node r c k :
  wf r c → last (lru.keys c) = Some k →
  ∃ rest it kp v,
    lru.l_order (lru.cache c) = rest ++ [it] ∧
    lru.m_index (lru.dict c) !! k = Some kp ∧
    lru.m_nodes (lru.dict c) !! kp = Some (k, it) ∧
    lru.l_nodes (lru.cache c) !! it = Some (Some kp, v).
Proof.
  intros Hwf Hlast. unfold lru.keys, lru.entries in Hlast.
  destruct (decide (lru.l_order (lru.cache c) = [])) as [Hnil|Hne].
  { by rewrite Hnil in Hlast. }
  destruct (exists_last Hne) as (rest & it & Ho).
  destruct (wf_node r c it Hwf) as (kp & k' & v & Hl & Hm & Hi & He).
  { rewrite Ho. apply elem_of_app. right. by apply list_elem_of_singleton. }
  rewrite Ho, omap_app in Hlast. csimpl in Hlast. rewrite He in Hlast.
  csimpl in Hlast. rewrite fmap_app in Hlast. csimpl in Hlast.
  rewrite last_snoc in Hlast. simplify_eq. by exists rest, it, kp, v.
Qed.

(** X5. On a state a constructed cache can reach, looking up the most
    recently used key with [get], or inserting it without update, or
    [getOrInsert] on it, returns the reference to its value and leaves the
    whole state as it was. *)
Theorem touching_mru_changes_nothing c0 ops c k :
  lru.constructed AllocBlockSize c0 → run ops c0 = Ok c →
  last (lru.keys c) = Some k →
  ∃ p v,
    lru.deref c p = Some v ∧ lru.stored c k = Some v ∧
    lru.get k c = Ok (Some p, c) ∧
    lru.peek k c = Ok (Some p, c) ∧
    ∀ value,
      insert k value false c = Ok ((p, false), c) ∧
      lru.getOrInsert AllocBlockSize k value c = Ok (p, c).
Proof.
  intros Hc Hrun Hlast. destruct (reachable_wf _ _ _ Hc Hrun) as (r & Hwf & _).
  destruct (last_key_node r c k Hwf Hlast) as (rest & it & kp & v & Ho & Hi & Hm & Hl).
  pose proof Hwf as (Hnd & _).
  assert (it ∈ lru.l_order (lru.cache c)) as Hin.
  { rewrite Ho. apply elem_of_app. right. by apply list_elem_of_singleton. }
  assert (filter (λ x, x ≠ it) (lru.l_order (lru.cache c)) ++ [it]
          = lru.l_order (lru.cache c)) as Hsame.
  { rewrite Ho in Hnd |- *. apply NoDup_app in Hnd as (_ & Hdisj & _).
    rewrite filter_app, filter_cons_False, filter_nil, app_nil_r by naive_solver.
    rewrite filter_ne_id; [done|]. intros Hx. apply (Hdisj it Hx).
    by apply list_elem_of_singleton. }
  destruct (stored_lookup _ _ _ _ _ _ _ Hi Hm Hl) as [Hs Hd].
  exists it, v. split; [done|]. split; [done|].
  split.
  { rewrite (get_hit c k kp k it) by done. unfold lru.spliced.
    by rewrite Hsame, with_cache_id. }
  split; [by apply (peek_hit c k kp k it)|].
  intros value.
  assert (insert k value false c = Ok ((it, false), c)) as Hins.
  { rewrite (insert_hit c k value false kp k it (Some kp) v) by done.
    by rewrite Hsame, with_cache_id. }
  split; [done|]. unfold lru.getOrInsert. by rewrite (bind_ok _ _ _ _ _ Hins).
Qed.

Lemma without_split (x k : K) (v : V) l1 l2 :
  x ≠ k →
  lru.without x (l1 ++ (k, v) :: l2)
  = lru.without x l1 ++ (k, v) :: lru.without x l2.
Proof.
  intros Hx. unfold lru.without.
  rewrite filter_app, filter_cons_True by (simpl; congruence). done.
Qed.

Lemma without_subset (x : K) (l : list (K * V)) (D : gset K) :
  (∀ y, y ∈ l.*1 → y ∈ D) → ∀ y, y ∈ (lru.without x l).*1 → y ∈ D.
Proof.
  intros Hl y Hy. apply Hl. apply list_elem_of_fmap in Hy as (e & -> & He).
  apply list_elem_of_filter in He as [_ He]. apply list_elem_of_fmap. eauto.
Qed.

Lemma protected_bump (x k : K) (v w : V) l1 l2 (D : gset K) :
  NoDup (l1 ++ (k, v) :: l2).*1 →
  (∀ y, y ∈ l2.*1 → y ∈ D) → (x ≠ k → x ∈ D) →
  is_Some (lru.assoc x (l1 ++ (k, v) :: l2)) →
  ∃ l1' v' l2',
    lru.without x (l1 ++ (k, v) :: l2) ++ [(x, w)] = l1' ++ (k, v') :: l2' ∧
    (x = k → v' = w) ∧ (x ≠ k → v' = v) ∧
    ∀ y, y ∈ l2'.*1 → y ∈ D.
Proof.
  intros Hnd Hl2 Hx _. destruct (decide (x = k)) as [->|Hne].
  - exists (lru.without k (l1 ++ (k, v) :: l2)), w, [].
    split; [done|]. split; [done|]. split; [done|]. intros y Hy. inversion Hy.
  - exists (lru.without x l1), v, (lru.without x l2 ++ [(x, w)]).
    rewrite without_split, <- app_assoc by done. split; [done|].
    split; [done|]. split; [done|]. intros y. rewrite fmap_app, elem_of_app.
    intros [Hy|Hy]; [by eapply without_subset|].
    apply list_elem_of_singleton in Hy as ->. auto.
Qed.

Lemma protected_step lim o (k : K) (v : V) l1 l2 (D : gset K) :
  NoDup (l1 ++ (k, v) :: l2).*1 →
  (length (l1 ++ (k, v) :: l2) ≤ lim)%nat →
  (∀ y, y ∈ l2.*1 → y ∈ D) → k ∉ D → (size D < lim)%nat →
  (∀ x, x ∈ lru.asked_key o → x ≠ k → x ∈ D) →
  ∃ l1' v' l2',
    lru.entries_step lim o (l1 ++ (k, v) :: l2) = l1' ++ (k, v') :: l2' ∧
    (∀ y, y ∈ l2'.*1 → y ∈ D).
Proof.
  intros Hnd Hlen Hl2 Hk Hsize Hasked.
  assert (∀ x (w : V), x ∈ D → lru.assoc x (l1 ++ (k, v) :: l2) = None →
    ∃ l1' v' l2',
      (if decide (length (l1 ++ (k, v) :: l2) ≠ lim)
       then (l1 ++ (k, v) :: l2) ++ [(x, w)]
       else tail (l1 ++ (k, v) :: l2) ++ [(x, w)]) = l1' ++ (k, v') :: l2' ∧
      ∀ y, y ∈ l2'.*1 → y ∈ D) as Hmiss.
  { intros x w Hx Hnone. apply assoc_None in Hnone.
    assert (∀ y, y ∈ (l2 ++ [(x, w)]).*1 → y ∈ D) as Hl2'.
    { intros y. rewrite fmap_app, elem_of_app. intros [Hy|Hy]; [auto|].
      by apply list_elem_of_singleton in Hy as ->. }
    case_decide as Hfull; [by exists l1, v, (l2 ++ [(x, w)]); rewrite <- app_assoc|].
    { destruct l1 as [|e l1].
      + exfalso. simpl in *.
        assert (x ∉ l2.*1) as Hxl2.
        { intros Hin. apply Hnone. by right. }
        assert (NoDup (x :: l2.*1)) as Hnd'.
        { constructor; [done|]. by apply NoDup_cons in Hnd as [_ ?]. }
        assert (list_to_set (C := gset K) (x :: l2.*1) ⊆ D) as Hsub.
        { intros y Hy. apply elem_of_list_to_set in Hy.
          apply elem_of_cons in Hy as [->|Hy]; auto. }
        apply subseteq_size in Hsub. rewrite size_list_to_set in Hsub by done.
        simpl in Hsub. rewrite length_fmap in Hsub. lia.
      + exists l1, v, (l2 ++ [(x, w)]). simpl. by rewrite <- app_assoc. } }
  assert (∀ x, x ∈ D → x ≠ k) as HD by (intros x Hx ->; done).
  destruct o as [key value update|key value|key|key|]; simpl in *.
  - unfold lru.entries_insert.
    assert (key ≠ k → key ∈ D) as Hkey by (intros; apply Hasked; set_solver).
    destruct (lru.assoc key _) as [v0|] eqn:Ha.
    + destruct (protected_bump key k v (if update then value else v0) l1 l2 D)
        as (l1' & v' & l2' & -> & _ & _ & ?); eauto.
    + apply Hmiss; [|done]. destruct (decide (key = k)) as [->|]; [|auto].
      exfalso. apply assoc_None in Ha. apply Ha. rewrite fmap_app.
      apply elem_of_app. right. simpl. by left.
  - unfold lru.entries_insert.
    assert (key ≠ k → key ∈ D) as Hkey by (intros; apply Hasked; set_solver).
    destruct (lru.assoc key _) as [v0|] eqn:Ha.
    + destruct (protected_bump key k v v0 l1 l2 D)
        as (l1' & v' & l2' & -> & _ & _ & ?); eauto.
    + apply Hmiss; [|done]. destruct (decide (key = k)) as [->|]; [|auto].
      exfalso. apply assoc_None in Ha. apply Ha. rewrite fmap_app.
      apply elem_of_app. right. simpl. by left.
  - unfold lru.entries_get.
    assert (key ≠ k → key ∈ D) as Hkey by (intros; apply Hasked; set_solver).
    destruct (lru.assoc key _) as [v0|] eqn:Ha.
    + destruct (protected_bump key k v v0 l1 l2 D)
        as (l1' & v' & l2' & -> & _ & _ & ?); eauto.
    + by exists l1, v, l2.
  - by exists l1, v, l2.
  - by exists l1, v, l2.
Qed.

Lemma protected_run r (k : K) (D : gset K) ops :
  ∀ c c', wf r c → run ops c = Ok c' →
  (∃ l1 v l2, lru.entries c = l1 ++ (k, v) :: l2 ∧ ∀ y, y ∈ l2.*1 → y ∈ D) →
  k ∉ D → (size D < lru.limit c)%nat →
  (∀ x, x ∈ lru.asked_keys ops → x ≠ k → x ∈ D) →
  ∃ l1 v l2, lru.entries c' = l1 ++ (k, v) :: l2.
Proof.
  induction ops as [|o ops IH]; intros c c' Hwf Hrun (l1 & v & l2 & He & Hl2) Hk Hsize Hasked.
  - simpl in Hrun. simplify_eq. eauto.
  - simpl in Hrun. pose proof (step_spec r c o Hwf) as Hs.
    destruct (step o c) as [c1| |] eqn:Hstep; try done.
    destruct Hs as (Hwf1 & Hlim1 & Hent1).
    pose proof (entries_NoDup _ _ Hwf) as Hnd.
    assert (length (lru.entries c) ≤ lru.limit c)%nat as Hlen.
    { rewrite (entries_length r) by done. by destruct Hwf as (_ & _ & _ & _ & ? & _). }
    unfold lru.keys in Hnd. rewrite He in Hnd, Hlen.
    destruct (protected_step (lru.limit c) o k v l1 l2 D) as (l1' & v' & l2' & He' & Hl2');
      try done.
    { intros x Hx. apply Hasked. unfold lru.asked_keys. csimpl. set_solver. }
    apply (IH c1 c' Hwf1 Hrun); [|done|by rewrite Hlim1|].
    + exists l1', v', l2'. by rewrite Hent1, He, He'.
    + intros x Hx. apply Hasked. unfold lru.asked_keys. csimpl.
      unfold lru.asked_keys in Hx. set_solver.
Qed.

(** X6. Recency protects a key.  When [k] is the most recently used key of a
    state a constructed cache can reach, and the operations that follow ask
    ([insert], [getOrInsert], [get]) for fewer than [limit] distinct keys
    other than [k], then [k] is still in the cache after them: evicting it
    takes at least [limit] distinct other keys. *)
Theorem touched_key_survives c0 ops c k ops' c' :
  lru.constructed AllocBlockSize c0 → run ops c0 = Ok c →
  last (lru.keys c) = Some k →
  (size (lru.asked_keys ops' ∖ {[ k ]}) < lru.limit c)%nat →
  run ops' c = Ok c' →
  lru.present c' k.
Proof.
  intros Hc Hrun Hlast Hsize Hrun'.
  destruct (reachable_wf _ _ _ Hc Hrun) as (r & Hwf & _).
  assert (∃ l1 v, lru.entries c = l1 ++ [(k, v)]) as (l1 & v & He).
  { unfold lru.keys in Hlast. destruct (lru.entries c) as [|e es] eqn:He using rev_ind;
      [done|]. rewrite fmap_app in Hlast. csimpl in Hlast.
    rewrite last_snoc in Hlast. destruct e as [k' v]. simpl in Hlast.
    simplify_eq. eauto. }
  destruct (protected_run r k (lru.asked_keys ops' ∖ {[ k ]}) ops' c c' Hwf Hrun')
    as (l1' & v' & l2' & He'); [| set_solver | done | set_solver |].
  { exists l1, v, []. split; [done|]. intros y Hy. inversion Hy. }
  assert (wf r c') as Hwf'.
  { clear -Hwf Hrun' AllocBlockSize_range. revert c Hwf Hrun'.
    induction ops' as [|o ops' IH]; intros c Hwf Hrun'; simpl in Hrun'.
    - by simplify_eq.
    - pose proof (step_spec r c o Hwf) as Hs.
      destruct (step o c) as [c1| |] eqn:Hstep; try done.
      destruct Hs as (Hwf1 & _). eauto. }
  apply (present_key r c' k Hwf'). unfold lru.keys.
  rewrite He', fmap_app. apply elem_of_app. right. simpl. by left.
Qed.

(** The three ways [insert] returns on a state satisfying the invariant,
    each with the state it leaves. *)
Lemma insert_cases r c key value update p b c' :
  wf r c → insert key value update c = Ok ((p, b), c') →
  (∃ kp v,
     lru.m_index (lru.dict c) !! key = Some kp ∧
     lru.m_nodes (lru.dict c) !! kp = Some (key, p) ∧
     p ∈ lru.l_order (lru.cache c) ∧
     lru.l_nodes (lru.cache c) !! p = Some (Some kp, v) ∧
     b = false ∧
     c' = lru.with_cache
            (lru.mkList (lru.l_alloc (lru.cache c))
               (filter (λ x, x ≠ p) (lru.l_order (lru.cache c)) ++ [p])
               (if update then <[p := (Some kp, value)]> (lru.l_nodes (lru.cache c))
                else lru.l_nodes (lru.cache c)))
            c) ∨
  (∃ la mp ma,
     lru.m_index (lru.dict c) !! key = None ∧
     size (lru.m_index (lru.dict c)) ≠ lru.limit c ∧
     lru.new_node AllocBlockSize false (lru.l_alloc (lru.cache c)) = Ok (p, la) ∧
     lru.new_node AllocBlockSize false (lru.m_alloc (lru.dict c)) = Ok (mp, ma) ∧
     ¬ pool.allocated (lru.l_alloc (lru.cache c)) p ∧
     ¬ pool.allocated (lru.m_alloc (lru.dict c)) mp ∧
     b = true ∧
     c' = lru.mkCache
            (lru.mkMap ma (<[key := mp]> (lru.m_index (lru.dict c)))
               (<[mp := (key, p)]> (lru.m_nodes (lru.dict c))))
            (lru.mkList la (lru.l_order (lru.cache c) ++ [p])
               (<[p := (Some mp, value)]> (lru.l_nodes (lru.cache c))))
            (lru.limit c)) ∨
  (∃ rest kp old v,
     lru.m_index (lru.dict c) !! key = None ∧
     size (lru.m_index (lru.dict c)) = lru.limit c ∧
     lru.l_order (lru.cache c) = p :: rest ∧
     lru.l_nodes (lru.cache c) !! p = Some (Some kp, v) ∧
     lru.m_nodes (lru.dict c) !! kp = Some (old, p) ∧
     lru.m_index (lru.dict c) !! old = Some kp ∧
     b = true ∧
     c' = lru.mkCache
            (lru.mkMap (lru.m_alloc (lru.dict c))
               (<[key := kp]> (delete old (lru.m_index (lru.dict c))))
               (<[kp := (key, p)]> (lru.m_nodes (lru.dict c))))
            (lru.mkList (lru.l_alloc (lru.cache c))
               (filter (λ x, x ≠ p) (p :: rest) ++ [p])
               (<[p := (Some kp, value)]> (lru.l_nodes (lru.cache c))))
            (lru.limit c)).
Proof.
  intros Hwf Hins.
  pose proof Hwf as (Hnd & Hn & Hk & Hsz & Hlim & Hl1 & Hal & Ham & Hil & Him).
  destruct (lru.m_index (lru.dict c) !! key) as [kp|] eqn:Hi.
  - destruct (wf_key _ _ _ _ Hwf Hi) as (it & v & Hm & Hin & Hl & He).
    rewrite (insert_hit c key value update kp key it (Some kp) v) in Hins by done.
    left. exists kp, v. by simplify_eq.
  - right.
    destruct (decide (size (lru.m_index (lru.dict c)) = lru.limit c)) as [Hfull|Hroom].
    + right. destruct (lru.l_order (lru.cache c)) as [|front rest] eqn:Ho;
        [simpl in *; lia|].
      destruct (wf_evict r c key value front rest Hwf Hi Ho)
        as (kp & old & v & Hl & Hm & Hold & _).
      rewrite (insert_evict c key value update front rest kp v old front kp)
        in Hins by done.
      exists rest, kp, old, v. by simplify_eq.
    + left. pose proof (new_node_spec r _ Hil) as Hnl.
      pose proof (new_node_spec r _ Him) as Hnm.
      destruct (lru.new_node AllocBlockSize false (lru.l_alloc (lru.cache c)))
        as [[p0 la]|msg|what] eqn:Hnewl.
      * destruct (lru.new_node AllocBlockSize false (lru.m_alloc (lru.dict c)))
          as [[mp ma]|msg|what] eqn:Hnewm.
        -- rewrite (insert_grow c key value update p0 la mp ma) in Hins by done.
           destruct Hnl as (_ & ? & _), Hnm as (_ & ? & _).
           exists la, mp, ma. by simplify_eq.
        -- done.
        -- exfalso. revert Hins. unfold lru.insert.
           bind_with ltac:(unfold lru.dict_find; by rewrite Hi).
           do 2 bind_with ltac:(reflexivity).
           rewrite bool_decide_eq_true_2 by done.
           bind_with ltac:(unfold lru.cache_insert_end,
                             lru.ListAllocTy_UseFreeList; by rewrite Hnewl).
           erewrite bind_undefined; [done|].
           unfold lru.dict_try_emplace, lru.MapAllocTy_UseFreeList. simpl.
           by rewrite Hi, Hnewm.
      * done.
      * exfalso. revert Hins. unfold lru.insert.
        bind_with ltac:(unfold lru.dict_find; by rewrite Hi).
        do 2 bind_with ltac:(reflexivity).
        rewrite bool_decide_eq_true_2 by done.
        erewrite bind_undefined; [done|].
        unfold lru.cache_insert_end, lru.ListAllocTy_UseFreeList.
        by rewrite Hnewl.
Qed.

Lemma step_insert_inv o c c' :
  step o c = Ok c' →
  match o with
  | lru.Insert key value update =>
      ∃ p b, insert key value update c = Ok ((p, b), c')
  | lru.GetOrInsert key value => ∃ p b, insert key value false c = Ok ((p, b), c')
  | lru.Get key => ∃ res, lru.get key c = Ok (res, c')
  | lru.Peek _ | lru.ForEach => True
  end.
Proof.
  destruct o as [key value update|key value|key|key|]; simpl; unfold lru.discard;
    [| | |done..].
  - destruct (insert key value update c) as [[[p b] c1]| |]; intros; simplify_eq; eauto.
  - unfold lru.getOrInsert, lru.bind.
    destruct (insert key value false c) as [[[p b] c1]| |]; unfold lru.ret;
      simpl; intros; simplify_eq; eauto.
  - destruct (lru.get key c) as [[res c1]| |]; intros; simplify_eq; eauto.
Qed.

Lemma step_wf r o c c' : wf r c → step o c = Ok c' → wf r c'.
Proof.
  intros Hwf Hstep. pose proof (step_spec r c o Hwf) as Hs.
  rewrite Hstep in Hs. by destruct Hs.
Qed.

Lemma step_readonly r o c c' :
  wf r c →
  match o with lru.Peek _ | lru.ForEach => True | _ => False end →
  step o c = Ok c' → c' = c.
Proof.
  intros Hwf Ho Hstep; destruct o as [| | |key|]; try done;
    simpl in Hstep; unfold lru.discard in Hstep.
  - destruct (peek_spec r c key Hwf) as (res & Hp & _). rewrite Hp in Hstep.
    by simplify_eq.
  - rewrite (forEach_spec _ r) in Hstep by done. by simplify_eq.
Qed.

Lemma step_full r o c c' :
  wf r c → size (lru.m_index (lru.dict c)) = lru.limit c → step o c = Ok c' →
  lru.l_alloc (lru.cache c') = lru.l_alloc (lru.cache c) ∧
  lru.m_alloc (lru.dict c') = lru.m_alloc (lru.dict c) ∧
  lru.l_order (lru.cache c') ≡ₚ lru.l_order (lru.cache c) ∧
  size (lru.m_index (lru.dict c')) = lru.limit c'.
Proof.
  intros Hwf Hfull Hstep.
  pose proof (step_wf r o c c' Hwf Hstep) as Hwf'.
  pose proof (step_spec r c o Hwf) as Hs. rewrite Hstep in Hs.
  destruct Hs as (_ & Hlim & Hent).
  pose proof Hwf as (Hnd & _).
  assert (∀ key value update p b,
    insert key value update c = Ok ((p, b), c') →
    lru.l_alloc (lru.cache c') = lru.l_alloc (lru.cache c) ∧
    lru.m_alloc (lru.dict c') = lru.m_alloc (lru.dict c) ∧
    lru.l_order (lru.cache c') ≡ₚ lru.l_order (lru.cache c)) as Hinsert.
  { intros key value update p b Hins.
    destruct (insert_cases r c key value update p b c' Hwf Hins)
      as [(kp & v & _ & _ & Hin & _ & _ & ->)
         |[(la & mp & ma & _ & Hroom & _ & _ & _)
          |(rest & kp & old & v & _ & _ & Ho & _ & _ & _ & _ & ->)]];
      [|done|]; simpl.
    - split; [done|]. split; [done|]. by apply splice_Permutation.
    - split; [done|]. split; [done|]. rewrite Ho in Hnd |- *.
      apply splice_Permutation; [done|]. by left. }
  assert (size (lru.m_index (lru.dict c')) = lru.limit c') as Hfull'.
  { rewrite (size_entries r c') by done. rewrite (size_entries r c) in Hfull by done.
    pose proof (entries_length r c' Hwf') as Hlen'.
    pose proof Hwf' as (_ & _ & _ & _ & Hle & _).
    rewrite <- Hlen' in Hle. apply Nat.le_antisymm; [done|].
    rewrite Hlim, <- Hfull, Hent.
    pose proof (entries_NoDup r c Hwf) as Hk. unfold lru.keys in Hk.
    assert (1 ≤ lru.limit c)%nat as H1 by (by destruct Hwf as (_ & _ & _ & _ & _ & ? & _)).
    destruct (entries_step_count (lru.limit c) o (lru.entries c)
                (list_to_set (lru.entries c).*1)) as (_ & _ & _ & _ & Hmono);
      [done|done|by intros k Hk'; apply elem_of_list_to_set|lia|lia|].
    exact Hmono. }
  pose proof (step_insert_inv o c c' Hstep) as Hinv.
  destruct o as [key value update|key value|key|key|].
  - destruct Hinv as (p & b & Hins). destruct (Hinsert _ _ _ _ _ Hins) as (? & ? & ?). done.
  - destruct Hinv as (p & b & Hins). destruct (Hinsert _ _ _ _ _ Hins) as (? & ? & ?). done.
  - destruct Hinv as (res & Hget).
    destruct (lru.m_index (lru.dict c) !! key) as [kp|] eqn:Hi.
    + destruct (wf_key _ _ _ _ Hwf Hi) as (it & v & Hm & Hin & Hl & He).
      rewrite (get_hit c key kp key it) in Hget by done. simplify_eq. simpl.
      split; [done|]. split; [done|]. split; [by apply splice_Permutation|done].
    + rewrite get_miss in Hget by done. by simplify_eq.
  - rewrite (step_readonly r (lru.Peek key) c c' Hwf I Hstep) in *. done.
  - rewrite (step_readonly r lru.ForEach c c' Hwf I Hstep) in *. done.
Qed.

(** X7. A full cache allocates nothing.  Once a constructed cache holds
    [limit] keys, no sequence of operations changes the allocator of the list
    or the allocator of the map: neither [allocate] nor [deallocate] is
    reached, the list keeps exactly the nodes it has, and the cache stays
    full. *)
Theorem full_cache_allocates_nothing c0 ops c ops' c' :
  lru.constructed AllocBlockSize c0 → run ops c0 = Ok c →
  size (lru.m_index (lru.dict c)) = lru.limit c →
  run ops' c = Ok c' →
  lru.l_alloc (lru.cache c') = lru.l_alloc (lru.cache c) ∧
  lru.m_alloc (lru.dict c') = lru.m_alloc (lru.dict c) ∧
  lru.l_order (lru.cache c') ≡ₚ lru.l_order (lru.cache c) ∧
  size (lru.m_index (lru.dict c')) = lru.limit c'.
Proof.
  intros Hc Hrun Hfull Hrun'.
  destruct (reachable_wf _ _ _ Hc Hrun) as (r & Hwf & _).
  clear Hc Hrun. revert c Hwf Hfull Hrun'.
  induction ops' as [|o ops' IH]; intros c Hwf Hfull Hrun'; simpl in Hrun'.
  - by simplify_eq.
  - destruct (step o c) as [c1| |] eqn:Hstep; try done.
    destruct (step_full r o c c1 Hwf Hfull Hstep) as (Hl & Hm & Hp & Hfull1).
    destruct (IH c1 (step_wf r o c c1 Hwf Hstep) Hfull1 Hrun') as (-> & -> & -> & ?).
    done.
Qed.

Lemma node_of_Some r c k p :
  wf r c → lru.node_of c k = Some p →
  ∃ kp v, lru.m_index (lru.dict c) !! k = Some kp ∧
          lru.m_nodes (lru.dict c) !! kp = Some (k, p) ∧
          p ∈ lru.l_order (lru.cache c) ∧
          lru.l_nodes (lru.cache c) !! p = Some (Some kp, v).
Proof.
  intros Hwf Hn. unfold lru.node_of in Hn.
  destruct (lru.m_index (lru.dict c) !! k) as [kp|] eqn:Hi; [|done].
  destruct (wf_key _ _ _ _ Hwf Hi) as (it & v & Hm & Hin & Hl & He).
  rewrite Hm in Hn. simplify_eq. by exists kp, v.
Qed.

(** X8. References stay valid.  Let [p] be the list node of key [k], with
    value [v], in a state a constructed cache can reach, and let one more
    operation run.  While [k] stays in the cache it stays in node [p], and
    the value there is [v] unless the operation is [insert(k, v', true)],
    which makes it [v'].  When the operation evicts [k], it is an insert
    that reuses [p] for its own key and value. *)
Theorem references_stay_valid c0 ops c o c' k p v :
  lru.constructed AllocBlockSize c0 → run ops c0 = Ok c →
  lru.node_of c k = Some p → lru.deref c p = Some v →
  step o c = Ok c' →
  (lru.present c' k →
   lru.node_of c' k = Some p ∧
   lru.deref c' p =
     Some (match o with
           | lru.Insert k' v' true => if decide (k' = k) then v' else v
           | _ => v
           end)) ∧
  (¬ lru.present c' k →
   ∃ key value,
     ((∃ update, o = lru.Insert key value update) ∨
      o = lru.GetOrInsert key value) ∧
     lru.node_of c' key = Some p ∧ lru.deref c' p = Some value).
Proof.
  intros Hc Hrun Hnode Hderef Hstep.
  destruct (reachable_wf _ _ _ Hc Hrun) as (r & Hwf & _).
  destruct (node_of_Some r c k p Hwf Hnode) as (kpk & v0 & Hik & Hmk & Hink & Hlk).
  assert (v0 = v) as ->.
  { unfold lru.deref in Hderef. rewrite Hlk in Hderef. simpl in Hderef. congruence. }
  assert (lru.present c k) as Hpres by (by exists kpk).
  assert (∀ key value update q b,
    insert key value update c = Ok ((q, b), c') →
    (lru.present c' k →
     lru.node_of c' k = Some p ∧
     lru.deref c' p = Some (if update then if decide (key = k) then value else v else v)) ∧
    (¬ lru.present c' k →
     lru.node_of c' key = Some p ∧ lru.deref c' p = Some value)) as Hinsert.
  { intros key value update q b Hins.
    destruct (insert_cases r c key value update q b c' Hwf Hins)
      as [(kp & w & Hi & Hm & Hin & Hl & _ & ->)
         |[(la & mp & ma & Hi & Hroom & _ & _ & Hq & Hmp & _ & ->)
          |(rest & kp & old & w & Hi & Hfull & Ho & Hl & Hm & Hold & _ & ->)]].
    - split; [intros _|intros []; by exists kpk].
      split; [unfold lru.node_of; simpl; by rewrite Hik, Hmk|].
      unfold lru.deref. simpl. destruct update; [|by rewrite Hlk].
      case_decide as Hkey.
      + subst key. assert (kp = kpk) as -> by congruence.
        assert (q = p) as -> by congruence. by rewrite lookup_insert_eq.
      + rewrite lookup_insert_ne; [by rewrite Hlk|].
        intros ->. apply Hkey. assert (kp = kpk) as -> by congruence.
        congruence.
    - assert (key ≠ k) as Hne by congruence.
      assert (mp ≠ kpk) as Hne'.
      { intros ->. apply Hmp. by destruct Hwf as (_ & _ & _ & _ & _ & _ & _ & Ham & _);
          eapply Ham. }
      assert (q ≠ p) as Hne''.
      { intros ->. apply Hq. by destruct Hwf as (_ & _ & _ & _ & _ & _ & Hal & _);
          apply Hal. }
      split; [intros _|intros []; exists kpk; simpl; by rewrite lookup_insert_ne].
      split.
      + unfold lru.node_of. simpl.
        rewrite lookup_insert_ne, Hik, lookup_insert_ne, Hmk by done. done.
      + unfold lru.deref. simpl. rewrite lookup_insert_ne, Hlk by done.
        destruct update; [rewrite decide_False by done|]; done.
    - assert (key ≠ k) as Hne by congruence.
      destruct (decide (k = old)) as [->|Hko].
      + assert (kpk = kp) as -> by congruence.
        assert (q = p) as -> by congruence.
        split.
        { intros [x Hx]. simpl in Hx.
          by rewrite lookup_insert_ne, lookup_delete_eq in Hx. }
        intros _. split.
        * unfold lru.node_of. simpl. by rewrite !lookup_insert_eq.
        * unfold lru.deref. simpl. by rewrite lookup_insert_eq.
      + assert (kpk ≠ kp) as Hne' by (intros ->; congruence).
        assert (q ≠ p) as Hne''.
        { intros ->. rewrite Hl in Hlk. congruence. }
        split; [intros _|intros []; exists kpk; simpl;
                by rewrite lookup_insert_ne, lookup_delete_ne].
        split.
        * unfold lru.node_of. simpl.
          rewrite lookup_insert_ne, lookup_delete_ne, Hik by done.
          by rewrite lookup_insert_ne, Hmk.
        * unfold lru.deref. simpl. rewrite lookup_insert_ne, Hlk by done.
          destruct update; [rewrite decide_False by done|]; done. }
  pose proof (step_insert_inv o c c' Hstep) as Hinv.
  destruct o as [key value update|key value|key|key|].
  - destruct Hinv as (q & b & Hins).
    destruct (Hinsert _ _ _ _ _ Hins) as [Hp Ha]. split.
    + intros Hk. destruct (Hp Hk) as [? ->]. by destruct update.
    + intros Hk. exists key, value. split; [left; eauto|by apply Ha].
  - destruct Hinv as (q & b & Hins).
    destruct (Hinsert _ _ _ _ _ Hins) as [Hp Ha]. split; [done|].
    intros Hk. exists key, value. split; [by right|by apply Ha].
  - destruct Hinv as (res & Hget).
    assert (lru.dict c' = lru.dict c ∧
            lru.l_nodes (lru.cache c') = lru.l_nodes (lru.cache c)) as [Hd Hn].
    { destruct (lru.m_index (lru.dict c) !! key) as [kp|] eqn:Hi.
      - destruct (wf_key _ _ _ _ Hwf Hi) as (it & w & Hm & Hin & Hl & He).
        rewrite (get_hit c key kp key it) in Hget by done. by simplify_eq.
      - rewrite get_miss in Hget by done. by simplify_eq. }
    split; [intros _|intros []; exists kpk; by rewrite Hd].
    unfold lru.node_of, lru.deref. by rewrite Hd, Hn, Hik, Hmk, Hlk.
  - rewrite (step_readonly r (lru.Peek key) c c' Hwf I Hstep).
    split; [done|by intros []].
  - rewrite (step_readonly r lru.ForEach c c' Hwf I Hstep).
    split; [done|by intros []].
Qed.

Lemma new_node_used r a p a' :
  1 ≤ r → pool.inv AllocBlockSize r a →
  lru.new_node AllocBlockSize false a = Ok (p, a') →
  pool.used a' = pool.used a + 1.
Proof.
  intros Hr Hinv Hnew. unfold lru.new_node in Hnew.
  destruct (pool.allocate false AllocBlockSize 1 a) as [[[q a1] ev]| |] eqn:Ha;
    [|done..].
  destruct (pool.in_bounds a1 q); [|done]. simplify_eq.
  rewrite (used_step AllocBlockSize AllocBlockSize_range r (pool.Allocate 1) a a' ev);
    [done..|]. simpl. by rewrite Ha.
Qed.

Lemma step_used r o c c' :
  1 ≤ r → wf r c → step o c = Ok c' →
  pool.used (lru.l_alloc (lru.cache c))
    = N.of_nat (length (lru.l_order (lru.cache c))) →
  pool.used (lru.m_alloc (lru.dict c))
    = N.of_nat (length (lru.l_order (lru.cache c))) →
  pool.used (lru.l_alloc (lru.cache c'))
    = N.of_nat (length (lru.l_order (lru.cache c'))) ∧
  pool.used (lru.m_alloc (lru.dict c'))
    = N.of_nat (length (lru.l_order (lru.cache c'))).
Proof.
  intros Hr Hwf Hstep Hl Hm.
  pose proof Hwf as (Hnd & _ & _ & _ & _ & _ & _ & _ & Hil & Him).
  assert (∀ key value update p b,
    insert key value update c = Ok ((p, b), c') →
    pool.used (lru.l_alloc (lru.cache c'))
      = N.of_nat (length (lru.l_order (lru.cache c'))) ∧
    pool.used (lru.m_alloc (lru.dict c'))
      = N.of_nat (length (lru.l_order (lru.cache c')))) as Hinsert.
  { intros key value update p b Hins.
    destruct (insert_cases r c key value update p b c' Hwf Hins)
      as [(kp & v & _ & _ & Hin & _ & _ & ->)
         |[(la & mp & ma & _ & _ & Hnl & Hnm & _ & _ & _ & ->)
          |(rest & kp & old & v & _ & _ & Ho & _ & _ & _ & _ & ->)]]; simpl.
    - by rewrite (Permutation_length (splice_Permutation _ _ Hnd Hin)).
    - rewrite (new_node_used r _ _ _ Hr Hil Hnl), (new_node_used r _ _ _ Hr Him Hnm).
      rewrite length_app, Hl, Hm. simpl. lia.
    - rewrite Ho in Hnd, Hl, Hm.
      rewrite (Permutation_length
                 (splice_Permutation (p :: rest) p Hnd ltac:(by left))).
      done. }
  pose proof (step_insert_inv o c c' Hstep) as Hinv.
  destruct o as [key value update|key value|key|key|].
  - destruct Hinv as (p & b & Hins). eauto.
  - destruct Hinv as (p & b & Hins). eauto.
  - destruct Hinv as (res & Hget).
    destruct (lru.m_index (lru.dict c) !! key) as [kp|] eqn:Hi.
    + destruct (wf_key _ _ _ _ Hwf Hi) as (it & v & Hmn & Hin & Hln & He).
      rewrite (get_hit c key kp key it) in Hget by done. simplify_eq. simpl.
      by rewrite (Permutation_length (splice_Permutation _ _ Hnd Hin)).
    + rewrite get_miss in Hget by done. by simplify_eq.
  - by rewrite (step_readonly r (lru.Peek key) c c' Hwf I Hstep).
  - by rewrite (step_readonly r lru.ForEach c c' Hwf I Hstep).
Qed.

(** X12. The cache uses as many slots as it has entries.  On every state
    reached from a soundly constructed cache, the allocator of the list and
    the allocator of the map have each handed out exactly one slot per cached
    key, so never more than [limit]; each chain has the least number of
    blocks that hold that many slots, the first block with the capacity the
    constructor reserved and the later ones with [AllocBlockSize].  A cache
    built by [lru_cache(limit)] with [limit <= AllocBlockSize] therefore
    never has more than one block per container. *)
Theorem cache_memory_is_tight lim c0 ops c :
  lru.constructed_with AllocBlockSize lim c0 → run ops c0 = Ok c →
  let n := N.of_nat (size (lru.m_index (lru.dict c))) in
  pool.used (lru.l_alloc (lru.cache c)) = n ∧
  pool.used (lru.m_alloc (lru.dict c)) = n ∧
  n ≤ N.of_nat lim ∧
  length (pool.pool (lru.l_alloc (lru.cache c)))
    = pool.blocks_for (pool.minCapacity (lru.l_alloc (lru.cache c0)))
        AllocBlockSize n ∧
  length (pool.pool (lru.m_alloc (lru.dict c)))
    = pool.blocks_for (pool.minCapacity (lru.m_alloc (lru.dict c0)))
        AllocBlockSize n ∧
  (lru.create AllocBlockSize lim = Ok c0 → N.of_nat lim ≤ AllocBlockSize →
   (length (pool.pool (lru.l_alloc (lru.cache c))) ≤ 1)%nat ∧
   (length (pool.pool (lru.m_alloc (lru.dict c))) ≤ 1)%nat).
Proof.
  intros Hc Hrun n.
  assert (∃ r, 1 ≤ r ∧ wf r c0 ∧ c0 = empty r lim ∧
               (lru.create AllocBlockSize lim = Ok c0 →
                N.of_nat lim ≤ AllocBlockSize → r = N.of_nat lim))
    as (r & Hr & Hwf0 & Hc0 & Hr1).
  { destruct Hc as [Hc|(initCap & [Hi1 Hi2] & Hc)].
    - pose proof Hc as Hc'. unfold lru.create in Hc'.
      case_bool_decide as Hlim; [done|]. simplify_eq.
      exists (pool.wrap32 (N.min (N.of_nat lim) AllocBlockSize)).
      assert (N.min (N.of_nat lim) AllocBlockSize < 2 ^ 32) as Hlt by lia.
      rewrite (wrap32_small _ Hlt).
      split; [lia|]. split; [apply wf_empty; [done|lia]|]. split; [done|].
      intros _ Hle. lia.
    - destruct (create_reserved_spec _ _ _ Hi2 Hc) as (Hwf & -> & Hlim).
      exists initCap. split; [done|]. split; [done|]. split; [done|].
      intros Hc1. unfold lru.create in Hc1. case_bool_decide; [done|].
      intros Hle.
      apply (f_equal (λ o, match o with
                           | Ok c => pool.minCapacity (lru.l_alloc (lru.cache c))
                           | _ => 0
                           end)) in Hc1.
      cbv [lru.empty lru.cache lru.l_alloc pool.copy pool.create
           pool.minCapacity pool.currBlockSize] in Hc1.
      rewrite wrap32_small in Hc1 by lia. lia. }
  assert (wf r c ∧ lru.limit c = lim ∧
          pool.used (lru.l_alloc (lru.cache c))
            = N.of_nat (length (lru.l_order (lru.cache c))) ∧
          pool.used (lru.m_alloc (lru.dict c))
            = N.of_nat (length (lru.l_order (lru.cache c))))
    as (Hwf & Hlim & Hl & Hm).
  { assert (lru.limit c0 = lim) as Hlim0 by (by rewrite Hc0).
    assert (pool.used (lru.l_alloc (lru.cache c0))
              = N.of_nat (length (lru.l_order (lru.cache c0)))) as Hl0
      by (by rewrite Hc0).
    assert (pool.used (lru.m_alloc (lru.dict c0))
              = N.of_nat (length (lru.l_order (lru.cache c0)))) as Hm0
      by (by rewrite Hc0).
    clear Hc Hc0 Hr1. revert c0 Hwf0 Hlim0 Hl0 Hm0 Hrun.
    induction ops as [|o ops IH]; intros c0 Hwf0 Hlim0 Hl0 Hm0 Hrun;
      simpl in Hrun.
    - by simplify_eq.
    - destruct (step o c0) as [c1| |] eqn:Hstep; try done.
      destruct (step_used r o c0 c1 Hr Hwf0 Hstep Hl0 Hm0) as [Hl1 Hm1].
      pose proof (step_spec r c0 o Hwf0) as Hs. rewrite Hstep in Hs.
      destruct Hs as (Hwf1 & Hlim1 & _).
      apply (IH c1); [done|congruence|done..]. }
  pose proof Hwf as (_ & _ & _ & Hsz & Hle & _ & _ & _ & Hil & Him).
  subst n. rewrite Hsz.
  assert (pool.minCapacity (lru.l_alloc (lru.cache c0)) = r ∧
          pool.minCapacity (lru.m_alloc (lru.dict c0)) = r) as [-> ->]
    by (by rewrite Hc0).
  destruct (blocks_for_used AllocBlockSize AllocBlockSize_range r _ Hr Hil) as [Hbl _].
  destruct (blocks_for_used AllocBlockSize AllocBlockSize_range r _ Hr Him) as [Hbm _].
  rewrite Hl in Hbl. rewrite Hm in Hbm.
  split; [done|]. split; [done|]. split; [lia|]. split; [done|]. split; [done|].
  intros Hcr Hsmall. rewrite Hbl, Hbm. specialize (Hr1 Hcr Hsmall).
  unfold pool.blocks_for.
  destruct (N.of_nat (length (lru.l_order (lru.cache c))) =? 0); [lia|].
  rewrite (proj2 (N.leb_le _ _)) by lia. lia.
Qed.

Lemma keys_step_shape r c o c' :
  wf r c → step o c = Ok c' →
  match lru.touched o c with
  | Some k =>
      ∃ l, lru.keys c' = l ++ [k] ∧ (k ∉ l) ∧
           (l = filter (λ x, x ≠ k) (lru.keys c) ∨ l = lru.keys c ∨
            l = tail (lru.keys c))
  | None => lru.keys c' = lru.keys c
  end.
Proof.
  intros Hwf Hstep. pose proof (step_spec r c o Hwf) as Hs.
  rewrite Hstep in Hs. destruct Hs as (Hwf' & _ & Hent).
  assert (∀ k v u,
    lru.entries c' = lru.entries_insert (lru.limit c) k v u (lru.entries c) →
    ∃ l, lru.keys c' = l ++ [k] ∧ (k ∉ l) ∧
         (l = filter (λ x, x ≠ k) (lru.keys c) ∨ l = lru.keys c ∨
          l = tail (lru.keys c))) as Hins.
  { intros k v u He. unfold lru.keys. rewrite He.
    destruct (entries_insert_keys (lru.limit c) k v u (lru.entries c))
      as [[Hin ->]|[(Hin & _ & ->)|(Hin & _ & ->)]].
    - eexists. split; [done|]. split; [|by left].
      rewrite list_elem_of_filter. naive_solver.
    - eexists. split; [done|]. split; [done|]. right. by left.
    - eexists. split; [done|]. split; [|by right; right].
      intros Hk. apply Hin. destruct ((lru.entries c).*1); [done|by right]. }
  destruct o as [k v u|k v|k|k|]; simpl in *; eauto.
  - unfold lru.keys. rewrite Hent.
    destruct (entries_get_keys k (lru.entries c)) as [[Hin Hk]|[Hin Hk]].
    + assert (lru.present c k) as [kp ->] by by apply (present_key r).
      rewrite Hk. eexists. split; [done|]. split; [|by left].
      rewrite list_elem_of_filter. naive_solver.
    + assert (lru.m_index (lru.dict c) !! k = None) as ->.
      { apply eq_None_not_Some. intros Hp. by apply Hin, (present_key r). }
      by rewrite Hk.
  - unfold lru.keys. by rewrite Hent.
  - unfold lru.keys. by rewrite Hent.
Qed.

Lemma recent_keys_kept c0 ops c :
  lru.constructed AllocBlockSize c0 → run ops c0 = Ok c →
  ∀ k k', k ∈ lru.keys c → k' ∉ lru.keys c →
    is_Some (lru.last_touch (lru.touches AllocBlockSize ops c0) k') →
    lru.bumped_before (lru.touches AllocBlockSize ops c0) k' k.
Proof.
  intros Hc. revert c. induction ops as [|o ops IH] using rev_ind; intros c.
  - intros [= <-] k k' _ _ [t Ht]. done.
  - rewrite run_snoc. destruct (run ops c0) as [c1| |] eqn:Hrun; [|done..].
    intros Hstep k k' Hk Hk' Ht'.
    specialize (IH c1 eq_refl).
    destruct (recency_sorted c0 ops c1 Hc Hrun) as [Hsorted Hall].
    destruct (reachable_wf _ _ _ Hc Hrun) as (r & Hwf & _).
    rewrite (touches_snoc ops o c0 c1 c Hrun Hstep) in Ht' |- *.
    set (h := lru.touches AllocBlockSize ops c0) in *.
    pose proof (keys_step_shape r c1 o c Hwf Hstep) as Hshape.
    destruct (lru.touched o c1) as [x|].
    + destruct Hshape as (l & Hkeys & Hxl & Hl). rewrite Hkeys in Hk, Hk'.
      assert (k' ≠ x) as Hk'x.
      { intros ->. apply Hk'. apply elem_of_app. right. by left. }
      assert (k' ∉ l) as Hk'l.
      { intros Hin. apply Hk'. apply elem_of_app. by left. }
      rewrite last_touch_snoc in Ht'.
      rewrite decide_False in Ht' by congruence.
      destruct Ht' as [t' Ht'].
      apply elem_of_app in Hk as [Hk|Hk].
      * assert (k ≠ x) as Hkx by (by intros ->).
        assert (lru.bumped_before h k' k) as (t1 & t2 & H1 & H2 & Hlt).
        { destruct Hl as [-> |[-> | ->]].
          - apply list_elem_of_filter in Hk as [_ Hk].
            apply IH; [done| |by exists t'].
            intros Hin. apply Hk'l. by apply list_elem_of_filter.
          - apply IH; [done|done|by exists t'].
          - destruct (lru.keys c1) as [|y tl] eqn:Hkeys1; [by inversion Hk|].
            simpl in *. destruct (decide (k' = y)) as [-> |Hne].
            + apply StronglySorted_inv in Hsorted as [_ Hall1].
              rewrite Forall_forall in Hall1. by apply Hall1.
            + apply IH; [by right| |by exists t'].
              intros Hin. apply elem_of_cons in Hin as [?|?]; done. }
        exists t1, t2. rewrite !last_touch_snoc.
        rewrite !decide_False by congruence. done.
      * apply list_elem_of_singleton in Hk as ->.
        exists t', (length h). rewrite !last_touch_snoc.
        rewrite decide_False by congruence. rewrite decide_True by done.
        split; [done|]. split; [done|]. by eapply last_touch_lt.
    + rewrite Hshape in Hk, Hk'. rewrite last_touch_snoc in Ht'.
      rewrite decide_False in Ht' by done.
      destruct (IH k k' Hk Hk' Ht') as (t1 & t2 & H1 & H2 & Hlt).
      exists t1, t2. rewrite !last_touch_snoc. rewrite !decide_False by done.
      done.
Qed.

(** X17. The cache holds the most recently used keys.  In every state a
    constructed cache can reach, every key in the cache was last used
    (inserted, or found by [get]) later than every key that was used but is
    no longer in the cache. *)
Theorem cache_holds_most_recent_keys c0 ops c k k' :
  lru.constructed AllocBlockSize c0 → run ops c0 = Ok c →
  lru.present c k → ¬ lru.present c k' →
  is_Some (lru.last_touch (lru.touches AllocBlockSize ops c0) k') →
  lru.bumped_before (lru.touches AllocBlockSize ops c0) k' k.
Proof.
  intros Hc Hrun Hk Hk' Ht.
  destruct (reachable_wf _ _ _ Hc Hrun) as (r & Hwf & _).
  apply (recent_keys_kept c0 ops c Hc Hrun); [|by rewrite <- (present_key r)|done].
  by apply (present_key r).
Qed.

(** X18. A cache built by [lru_cache(limit, 0)] cannot take an entry.  Its
    allocators start with a block of no slots, so the first [insert] or
    [getOrInsert], whatever the key, constructs a list node outside its
    block, which is undefined; [get], [peek] and [forEach] on it return and
    find nothing. *)
Theorem zero_initial_capacity_is_unusable lim c0 key value update :
  lru.create_reserved lim 0 = Ok c0 →
  insert key value update c0
    = Undefined "node constructed outside its block" ∧
  lru.getOrInsert AllocBlockSize key value c0
    = Undefined "node constructed outside its block" ∧
  lru.get key c0 = Ok (None, c0) ∧
  lru.peek key c0 = Ok (None, c0) ∧
  lru.forEach lru.collect [] c0 = Ok ([], c0).
Proof using.
  clear AllocBlockSize_range.
  unfold lru.create_reserved. case_bool_decide as Hlim; [done|].
  intros [= <-].
  assert (∀ u, insert key value u (empty 0 lim)
               = Undefined "node constructed outside its block") as Hins.
  { intros u. unfold lru.insert.
    bind_with ltac:(unfold lru.dict_find; simpl; by rewrite lookup_empty).
    do 2 bind_with ltac:(reflexivity).
    rewrite bool_decide_eq_true_2
      by (simpl; rewrite map_size_empty; intros ?; by apply Hlim).
    erewrite bind_undefined; [done|]. reflexivity. }
  split; [apply Hins|].
  split; [unfold lru.getOrInsert, lru.bind; by rewrite Hins|].
  split; [by apply get_miss|]. split; [by apply peek_miss|]. reflexivity.
Qed.

Lemma get_last c key kp p l :
  lru.m_index (lru.dict c) !! key = Some kp →
  lru.m_nodes (lru.dict c) !! kp = Some (key, p) →
  lru.l_order (lru.cache c) = l ++ [p] →
  NoDup (lru.l_order (lru.cache c)) →
  lru.get key c = Ok (Some p, c) ∧ lru.peek key c = Ok (Some p, c) ∧
  lru.node_of c key = Some p.
Proof using.
  clear AllocBlockSize_range.
  intros Hi Hm Ho Hnd.
  assert (p ∈ lru.l_order (lru.cache c)) as Hin.
  { rewrite Ho. apply elem_of_app. right. by apply list_elem_of_singleton. }
  assert (filter (λ x, x ≠ p) (lru.l_order (lru.cache c)) ++ [p]
          = lru.l_order (lru.cache c)) as Hsame.
  { rewrite Ho in Hnd |- *. apply NoDup_app in Hnd as (_ & Hdisj & _).
    rewrite filter_app, filter_cons_False, filter_nil, app_nil_r by naive_solver.
    rewrite filter_ne_id; [done|]. intros Hx. apply (Hdisj p Hx).
    by apply list_elem_of_singleton. }
  split.
  { rewrite (get_hit c key kp key p) by done. unfold lru.spliced.
    by rewrite Hsame, with_cache_id. }
  split; [by apply (peek_hit c key kp key p)|].
  unfold lru.node_of. by rewrite Hi, Hm.
Qed.

(** X20. Reading after writing.  On every state reached from a soundly
    constructed cache, [insert(k, v, update)] returns, and a [get(k)] or
    [peek(k)] right after it finds [k], returns the very reference the
    insert returned, and leaves the state as the insert left it, [k] being
    the most recently used key already.  That reference designates [v] when
    [update] is set or [k] was absent, and the value [k] had otherwise. *)
Theorem get_after_insert lim c0 ops c key value update :
  lru.constructed_with AllocBlockSize lim c0 → run ops c0 = Ok c →
  ∃ p inserted c1,
    insert key value update c = Ok ((p, inserted), c1) ∧
    lru.get key c1 = Ok (Some p, c1) ∧
    lru.peek key c1 = Ok (Some p, c1) ∧
    lru.node_of c1 key = Some p ∧
    lru.deref c1 p
      = Some (if update then value else default value (lru.stored c key)).
Proof.
  intros Hc Hrun.
  destruct (reachable_wf_sound _ _ _ _ Hc Hrun) as (r & Hr & Hwf & _).
  destruct (insert_ok r c key value update Hr Hwf)
    as (p & b & c1 & Hins & Hwf1 & _).
  pose proof Hwf1 as (Hnd1 & _).
  exists p, b, c1. split; [done|].
  destruct (insert_cases r c key value update p b c1 Hwf Hins)
    as [(kp & v & Hi & Hm & Hin & Hl & _ & ->)
       |[(la & mp & ma & Hi & Hroom & _ & _ & Hq & Hmp & _ & ->)
        |(rest & kp & old & v & Hi & Hfull & Ho & Hl & Hm & Hold & _ & ->)]].
  - edestruct (get_last
      (lru.with_cache
         (lru.mkList (lru.l_alloc (lru.cache c))
            (filter (λ x, x ≠ p) (lru.l_order (lru.cache c)) ++ [p])
            (if update then <[p := (Some kp, value)]> (lru.l_nodes (lru.cache c))
             else lru.l_nodes (lru.cache c)))
         c) key kp p) as (Hg & Hp & Hn);
      [exact Hi|exact Hm|reflexivity|done|].
    split; [done|]. split; [done|]. split; [done|].
    destruct (stored_lookup _ _ _ _ _ _ _ Hi Hm Hl) as [Hs _].
    unfold lru.deref. simpl. rewrite Hs.
    destruct update; [by rewrite lookup_insert_eq|by rewrite Hl].
  - edestruct (get_last
      (lru.mkCache
         (lru.mkMap ma (<[key := mp]> (lru.m_index (lru.dict c)))
            (<[mp := (key, p)]> (lru.m_nodes (lru.dict c))))
         (lru.mkList la (lru.l_order (lru.cache c) ++ [p])
            (<[p := (Some mp, value)]> (lru.l_nodes (lru.cache c))))
         (lru.limit c)) key mp p) as (Hg & Hp & Hn);
      [apply lookup_insert_eq|apply lookup_insert_eq|reflexivity|done|].
    split; [done|]. split; [done|]. split; [done|].
    unfold lru.deref. simpl. rewrite lookup_insert_eq.
    rewrite (stored_absent _ _ Hi). by destruct update.
  - edestruct (get_last
      (lru.mkCache
         (lru.mkMap (lru.m_alloc (lru.dict c))
            (<[key := kp]> (delete old (lru.m_index (lru.dict c))))
            (<[kp := (key, p)]> (lru.m_nodes (lru.dict c))))
         (lru.mkList (lru.l_alloc (lru.cache c))
            (filter (λ x, x ≠ p) (p :: rest) ++ [p])
            (<[p := (Some kp, value)]> (lru.l_nodes (lru.cache c))))
         (lru.limit c)) key kp p) as (Hg & Hp & Hn);
      [apply lookup_insert_eq|apply lookup_insert_eq|reflexivity|done|].
    split; [done|]. split; [done|]. split; [done|].
    unfold lru.deref. simpl. rewrite lookup_insert_eq.
    rewrite (stored_absent _ _ Hi). by destruct update.
Qed.

(** What [get] and an [insert] without update do to the stored values. *)
Lemma get_stored r c key :
  wf r c →
  ∃ res c',
    lru.get key c = Ok (res, c') ∧ wf r c' ∧
    (∀ k, lru.stored c' k = lru.stored c k) ∧
    match res with
    | Some p => ∃ v, lru.node_second p c' = Ok (v, c') ∧
                     lru.stored c key = Some v
    | None => c' = c ∧ lru.stored c key = None
    end.
Proof.
  intros Hwf.
  destruct (get_spec r c key Hwf) as (res & c' & Hget & Hwf' & _).
  destruct (lru.m_index (lru.dict c) !! key) as [kp|] eqn:Hi.
  - destruct (wf_key _ _ _ _ Hwf Hi) as (it & v & Hm & Hin & Hl & He).
    destruct (stored_lookup _ _ _ _ _ _ _ Hi Hm Hl) as [Hs _].
    rewrite (get_hit c key kp key it) in Hget by done. simplify_eq.
    eexists (Some it), _. split; [by apply (get_hit c key kp key it)|].
    split; [done|]. split; [done|]. exists v. split; [|done].
    unfold lru.node_second. simpl. by rewrite Hl.
  - rewrite get_miss in Hget by done.
    assert (res = None ∧ c' = c) as [-> ->] by (split; congruence).
    exists None, c. split; [by apply get_miss|]. split; [done|].
    split; [done|]. split; [done|]. by apply stored_absent.
Qed.

Lemma insert_stored r c key value :
  1 ≤ r → wf r c →
  ∃ p b c',
    insert key value false c = Ok ((p, b), c') ∧ wf r c' ∧
    ∀ k v, lru.stored c' k = Some v →
           (k = key ∧ v = default value (lru.stored c key)) ∨
           lru.stored c k = Some v.
Proof.
  intros Hr Hwf.
  destruct (insert_ok r c key value false Hr Hwf)
    as (p & b & c' & Hins & Hwf' & _ & Hent & _).
  exists p, b, c'. split; [done|]. split; [done|]. intros k v Hs.
  apply (stored_entry r c' k v Hwf') in Hs. rewrite Hent in Hs.
  unfold lru.entries_insert in Hs.
  rewrite <- (stored_assoc r c key Hwf) in Hs.
  assert (∀ es : list (K * V), (k, v) ∈ tail es → (k, v) ∈ es) as Htail
    by (intros [|e es] ?; [done|by right]).
  destruct (lru.stored c key) as [v0|] eqn:Hkey; [|case_decide];
    apply elem_of_app in Hs as [Hs|Hs];
    try (apply list_elem_of_singleton in Hs; simplify_eq; by left);
    right; apply (stored_entry r c k v Hwf); [|done|by apply Htail].
  by apply list_elem_of_filter in Hs as [_ ?].
Qed.

End lru_facts.

(** * The test program *)

Lemma wrap64_add a b :
  fibtest.wrap64 (fibtest.wrap64 a + fibtest.wrap64 b) = fibtest.wrap64 (a + b).
Proof. unfold fibtest.wrap64. symmetry. by apply N.Div0.add_mod. Qed.

Lemma fibIt_iter j :
  N.iter (N.of_nat j) (λ ab : N * N, (ab.2, fibtest.wrap64 (ab.1 + ab.2))) (1, 1)
  = (fibtest.wrap64 (fibtest.fibonacci (S j)),
     fibtest.wrap64 (fibtest.fibonacci (S (S j)))).
Proof.
  induction j as [|j IH]; [done|].
  rewrite Nat2N.inj_succ, N.iter_succ, IH. cbn [fst snd]. f_equal.
  rewrite wrap64_add. f_equal.
  change (fibtest.fibonacci (S (S (S j))))
    with (fibtest.fibonacci (S (S j)) + fibtest.fibonacci (S j)). lia.
Qed.

Lemma fibonacci_iter j :
  N.iter (N.of_nat j) (λ ab : N * N, (ab.2, ab.1 + ab.2)) (1, 1)
  = (fibtest.fibonacci (S j), fibtest.fibonacci (S (S j))).
Proof.
  induction j as [|j IH]; [done|].
  rewrite Nat2N.inj_succ, N.iter_succ, IH. cbn [fst snd]. f_equal.
  change (fibtest.fibonacci (S (S (S j))))
    with (fibtest.fibonacci (S (S j)) + fibtest.fibonacci (S j)). lia.
Qed.

Lemma fibonacci_iter_snd j :
  fibtest.fibonacci (S (S j))
  = (N.iter (N.of_nat j) (λ ab : N * N, (ab.2, ab.1 + ab.2)) (1, 1)).2.
Proof. by rewrite fibonacci_iter. Qed.

Lemma fibIt_fibonacci n :
  fibtest.fibIt (N.of_nat n) = fibtest.wrap64 (fibtest.fibonacci n).
Proof.
  destruct n as [|[|j]]; [done..|]. unfold fibtest.fibIt.
  rewrite (proj2 (N.ltb_ge _ _)) by lia.
  replace (N.of_nat (S (S j)) - 2) with (N.of_nat j) by lia.
  by rewrite fibIt_iter.
Qed.

Section fib_facts.
Variable AllocBlockSize : N.
Hypothesis AllocBlockSize_range : 1 ≤ AllocBlockSize < 2 ^ 32.
Variable left_first : bool.

Local Abbreviation fib := (fibtest.fib AllocBlockSize left_first).

Lemma fib_unfold n c :
  fib (S (S n)) c =
    lru.bind (lru.get (N.of_nat (S (S n)))) (λ prev,
      match prev with
      | Some it => lru.node_second it
      | None =>
          lru.bind
            (if left_first then
               lru.bind (fib (S n)) (λ x, lru.bind (fib n) (λ y, lru.ret (x, y)))
             else
               lru.bind (fib n) (λ y, lru.bind (fib (S n)) (λ x, lru.ret (x, y))))
            (λ xy,
               let r := fibtest.wrap64 (xy.1 + xy.2) in
               lru.bind (lru.insert AllocBlockSize (N.of_nat (S (S n))) r false)
                 (λ _, lru.ret r))
      end) c.
Proof using. clear AllocBlockSize_range. done. Qed.

Lemma fib_correct r n :
  1 ≤ r →
  ∀ c, lru.wf AllocBlockSize r c → fibtest.memo_ok c →
  ∃ c', fib n c = Ok (fibtest.wrap64 (fibtest.fibonacci n), c') ∧
        lru.wf AllocBlockSize r c' ∧ fibtest.memo_ok c'.
Proof using AllocBlockSize_range.
  intros Hr.
  enough (H2 :
    (∀ c, lru.wf AllocBlockSize r c → fibtest.memo_ok c →
      ∃ c', fib n c = Ok (fibtest.wrap64 (fibtest.fibonacci n), c') ∧
            lru.wf AllocBlockSize r c' ∧ fibtest.memo_ok c') ∧
    (∀ c, lru.wf AllocBlockSize r c → fibtest.memo_ok c →
      ∃ c', fib (S n) c = Ok (fibtest.wrap64 (fibtest.fibonacci (S n)), c') ∧
            lru.wf AllocBlockSize r c' ∧ fibtest.memo_ok c')) by apply H2.
  induction n as [|n [IH0 IH1]].
  - split; intros c Hwf Hok; exists c; done.
  - split; [done|]. intros c Hwf Hok. rewrite fib_unfold.
    destruct (get_stored AllocBlockSize AllocBlockSize_range r c
                (N.of_nat (S (S n))) Hwf)
      as (res & c1 & Hget & Hwf1 & Hsame & Hres).
    rewrite (bind_ok _ _ _ _ _ Hget).
    assert (fibtest.memo_ok c1) as Hok1.
    { intros m v Hs. apply Hok. by rewrite <- Hsame. }
    destruct res as [p|].
    + destruct Hres as (v & Hread & Hs). exists c1. rewrite Hread.
      by rewrite (Hok _ _ Hs).
    + destruct Hres as [-> Hnone].
      assert (∃ c3,
        (if left_first then
           lru.bind (fib (S n)) (λ x, lru.bind (fib n) (λ y, lru.ret (x, y)))
         else
           lru.bind (fib n) (λ y, lru.bind (fib (S n)) (λ x, lru.ret (x, y)))) c
        = Ok ((fibtest.wrap64 (fibtest.fibonacci (S n)),
               fibtest.wrap64 (fibtest.fibonacci n)), c3) ∧
        lru.wf AllocBlockSize r c3 ∧ fibtest.memo_ok c3) as (c3 & Hboth & Hwf3 & Hok3).
      { destruct left_first.
        - destruct (IH1 c Hwf Hok) as (c2 & H1 & Hwf2 & Hok2).
          destruct (IH0 c2 Hwf2 Hok2) as (c3 & H0 & Hwf3 & Hok3).
          exists c3. rewrite (bind_ok _ _ _ _ _ H1), (bind_ok _ _ _ _ _ H0). done.
        - destruct (IH0 c Hwf Hok) as (c2 & H0 & Hwf2 & Hok2).
          destruct (IH1 c2 Hwf2 Hok2) as (c3 & H1 & Hwf3 & Hok3).
          exists c3. rewrite (bind_ok _ _ _ _ _ H0), (bind_ok _ _ _ _ _ H1). done. }
      rewrite (bind_ok _ _ _ _ _ Hboth). cbn [fst snd]. cbv zeta.
      rewrite wrap64_add.
      change (fibtest.fibonacci (S n) + fibtest.fibonacci n)
        with (fibtest.fibonacci (S (S n))).
      destruct (insert_stored AllocBlockSize AllocBlockSize_range r c3
                  (N.of_nat (S (S n)))
                  (fibtest.wrap64 (fibtest.fibonacci (S (S n)))) Hr Hwf3)
        as (p & b & c4 & Hins & Hwf4 & Hst).
      rewrite (bind_ok _ _ _ _ _ Hins). exists c4. split; [done|].
      split; [done|]. intros m v Hs.
      destruct (Hst _ _ Hs) as [[Hm ->]|Hold]; [|by apply Hok3].
      apply Nat2N.inj in Hm. subst m.
      destruct (lru.stored c3 (N.of_nat (S (S n)))) as [v0|] eqn:Hv0; [|done].
      exact (Hok3 _ _ Hv0).
Qed.

(** X15. The memoized [fib] of the test program computes what the loop of
    [fibIt] computes, the Fibonacci number modulo [2^64]: on every state
    reached from a soundly constructed cache whose entries are Fibonacci
    numbers, for either order of evaluating the two recursive calls and
    whatever the limit of the cache, [fib(n, cache)] returns [fibIt(n)] and
    leaves a cache whose entries are Fibonacci numbers. *)
Theorem fib_agrees_with_fibIt lim c0 ops c n :
  lru.constructed_with AllocBlockSize lim c0 →
  lru.run AllocBlockSize ops c0 = Ok c →
  fibtest.memo_ok c →
  N.of_nat n < 2 ^ 64 →
  ∃ c',
    fib n c = Ok (fibtest.fibIt (N.of_nat n), c') ∧
    fibtest.fibIt (N.of_nat n) = fibtest.wrap64 (fibtest.fibonacci n) ∧
    fibtest.memo_ok c'.
Proof using AllocBlockSize_range.
  intros Hc Hrun Hok _.
  destruct (reachable_wf_sound AllocBlockSize AllocBlockSize_range lim c0 ops c
              Hc Hrun) as (r & Hr & Hwf & _).
  destruct (fib_correct r n Hr c Hwf Hok) as (c' & Hfib & _ & Hok').
  exists c'. by rewrite fibIt_fibonacci.
Qed.

End fib_facts.

(** X16. The test program prints the same number twice, the 65th Fibonacci
    number, whichever operand of the sum is evaluated first. *)
Theorem main_prints_fib_65_twice left_first :
  fibtest.main left_first = Ok (17167680177565, 17167680177565) ∧
  fibtest.fibonacci 65 = 17167680177565.
Proof.
  assert (fibtest.fibIt 65 = 17167680177565) as Hit by (vm_compute; reflexivity).
  assert (fibtest.fibonacci 65 = 17167680177565) as Hfib.
  { rewrite (fibonacci_iter_snd 63). vm_compute. reflexivity. }
  split; [|exact Hfib]. unfold fibtest.main.
  assert (1 ≤ 1024 < 2 ^ 32) as Hrange by lia32.
  assert (1 ≤ 20) as H20 by lia.
  destruct (create_reserved_spec (K:=N) (V:=N) 1024 Hrange 10 20
              (lru.empty 20 10)) as (Hwf & _); [lia32|reflexivity|].
  change (lru.create_reserved 10 20) with (Ok (lru.empty (K:=N) (V:=N) 20 10)).
  destruct (fib_correct 1024 Hrange left_first 20 65 H20 _ Hwf)
    as (c' & Hrun & _).
  { intros m v Hs. unfold lru.stored, lru.empty in Hs. cbn in Hs.
    rewrite lookup_empty in Hs. discriminate Hs. }
  rewrite Hrun, Hfib, Hit. vm_compute. reflexivity.
Qed.


(** * Worked instances

    Each statement below is one of the properties above at a concrete
    allocator or cache, with its hypotheses evaluated. *)



Lemma example_range : 1 ≤ example.AllocBlockSize < 2 ^ 32.
Proof. unfold example.AllocBlockSize. lia32. Defined.

Lemma example_fresh_constructed :
  lru.constructed_with example.AllocBlockSize 2 example.fresh.
Proof. left. reflexivity. Defined.

Lemma example_warm_reached :
  lru.run example.AllocBlockSize example.warm_up example.fresh = Ok example.warm.
Proof. vm_compute. reflexivity. Defined.

(** Three distinct keys into [lru_cache<unsigned, unsigned, 4>(2)]: the first
    one is gone.  The same three inserts into
    [lru_cache<unsigned, unsigned, 4>(2, 0)] are undefined. *)
Lemma first_inserted_is_evicted_witness :
  (∃ c,
     lru.run example.AllocBlockSize
       (lru.inserts [(1, 10, false); (2, 20, false); (3, 30, true)])%nat
       example.fresh = Ok c ∧
     lru.entries c = [(2, 20); (3, 30)]%nat ∧
     ¬ lru.present c 1%nat ∧
     lru.get 1%nat c = Ok (None, c) ∧ lru.peek 1%nat c = Ok (None, c)) ∧
  lru.create_reserved (K:=nat) (V:=nat) 2 0 = Ok (lru.empty 0 2) ∧
  lru.run example.AllocBlockSize
    (lru.inserts [(1, 10, false); (2, 20, false); (3, 30, true)])%nat
    (lru.empty 0 2)
  = Undefined "node constructed outside its block".
Proof.
  split; [|split; [reflexivity|]].
  - destruct (first_inserted_is_evicted example.AllocBlockSize example_range
                example.fresh [(1, 10, false); (2, 20, false); (3, 30, true)]%nat)
      as (Hm & Hok & _).
    + left. exists 2%nat. reflexivity.
    + by apply (bool_decide_unpack _).
    + reflexivity.
    + destruct (Hok 2%nat example_fresh_constructed) as [c Hrun].
      rewrite Hrun in Hm. destruct Hm as (Hent & Habs & _).
      exists c. split; [exact Hrun|]. split; [exact Hent|].
      exact (Habs 1%nat eq_refl).
  - destruct (first_inserted_is_evicted (K:=nat) (V:=nat)
                example.AllocBlockSize example_range
                (lru.empty 0 2)
                [(1, 10, false); (2, 20, false); (3, 30, true)]%nat)
      as (_ & _ & Hz).
    + right. exists 2%nat, 0. split; reflexivity.
    + by apply (bool_decide_unpack _).
    + reflexivity.
    + exact (Hz 2%nat eq_refl).
Defined.

Lemma example_warm_constructed :
  lru.constructed example.AllocBlockSize example.fresh.
Proof. left. exists 2%nat. reflexivity. Defined.

(** Three distinct keys were inserted into a cache of capacity 2: it holds two
    keys. *)
Lemma capacity_invariant_witness :
  size (lru.m_index (lru.dict example.warm))
    = length (lru.l_order (lru.cache example.warm)) ∧
  (size (lru.m_index (lru.dict example.warm)) ≤ lru.limit example.warm)%nat ∧
  size (lru.m_index (lru.dict example.warm))
    = (lru.limit example.fresh `min`
       size (lru.inserted_keys example.warm_up))%nat.
Proof.
  pose proof (capacity_invariant example.AllocBlockSize example_range
                example.fresh example.warm_up example_warm_constructed) as Hinv.
  rewrite example_warm_reached in Hinv.
  destruct Hinv as (H1 & _ & _ & _ & H2 & _ & _ & H3 & _).
  exact (conj H1 (conj H2 H3)).
Defined.

(** [insert(1, 99, true)] on [warm], where key 1 holds 10. *)
Lemma insert_present_key_witness :
  ∃ p c',
    lru.insert example.AllocBlockSize 1%nat 99%nat true example.warm
      = Ok ((p, false), c') ∧
    lru.stored c' 1%nat = Some 99%nat ∧
    lru.keys c' = filter (λ x, x ≠ 1%nat) (lru.keys example.warm) ++ [1%nat].
Proof.
  destruct (insert_present_key example.AllocBlockSize example_range
              example.fresh example.warm_up example.warm 1%nat 10%nat 99%nat true
              example_warm_constructed example_warm_reached)
    as (p & c' & H1 & H2 & _ & H3 & _).
  - vm_compute. reflexivity.
  - exists p, c'. exact (conj H1 (conj H2 H3)).
Defined.

(** [peek(1)] on [warm]. *)
Lemma peek_leaves_state_witness :
  ∃ res,
    lru.peek 1%nat example.warm = Ok (res, example.warm) ∧
    ∀ ops',
      lru.run example.AllocBlockSize (lru.Peek 1%nat :: ops') example.warm
      = lru.run example.AllocBlockSize ops' example.warm.
Proof.
  destruct (peek_leaves_state example.AllocBlockSize example_range
              example.fresh example.warm_up example.warm 1%nat
              example_warm_constructed example_warm_reached)
    as (res & H1 & _ & _ & H2).
  exists res. exact (conj H1 H2).
Defined.

(** [forEach] on [warm] visits key 1, last touched by the [get], before key 3,
    last touched by its insert. *)
Lemma forEach_in_recency_order_witness :
  lru.forEach lru.collect [] example.warm
    = Ok (lru.entries example.warm, example.warm) ∧
  StronglySorted
    (lru.bumped_before
       (lru.touches example.AllocBlockSize example.warm_up example.fresh))
    (lru.keys example.warm).
Proof.
  destruct (forEach_in_recency_order example.AllocBlockSize example_range
              example.fresh example.warm_up example.warm
              example_warm_constructed example_warm_reached)
    as (_ & H1 & _ & _ & _ & H2 & _).
  exact (conj H1 H2).
Defined.

(** [lru_cache<unsigned, unsigned, 4>(0)], [(0, 3)], [(2)] and [(2, 3)], a
    run on [(2)], and the same run on [(2, 0)]. *)
Lemma construction_and_errors_witness :
  lru.create (K:=nat) (V:=nat) example.AllocBlockSize 0
    = AssertionFailed "The cache-limit may not be 0" ∧
  lru.create_reserved (K:=nat) (V:=nat) 0 3
    = AssertionFailed "The cache-limit may not be 0" ∧
  (∃ c0 : @lru.lru_cache nat _ _ nat,
     lru.create example.AllocBlockSize 2 = Ok c0 ∧ lru.entries c0 = []) ∧
  (∃ c0 : @lru.lru_cache nat _ _ nat,
     lru.create_reserved 2 3 = Ok c0 ∧ lru.limit c0 = 2%nat ∧
     lru.entries c0 = []) ∧
  (∃ c, lru.run example.AllocBlockSize example.warm_up example.fresh = Ok c) ∧
  (∀ msg,
     lru.run example.AllocBlockSize example.warm_up (lru.empty 0 2)
     ≠ AssertionFailed msg) ∧
  (∃ lim : nat,
     lru.create_reserved (K:=nat) (V:=nat) lim 0 = Ok (lru.empty 0 2)).
Proof.
  destruct (construction_and_errors (K:=nat) (V:=nat) example.AllocBlockSize
              example_range) as (H0 & H0' & H1 & H1' & H2 & H3 & H4 & _).
  assert (lru.constructed (K:=nat) (V:=nat) example.AllocBlockSize
            (lru.empty 0 2)) as Hz.
  { right. exists 2%nat, 0. split; [reflexivity|reflexivity]. }
  split; [exact H0|]. split; [exact (H0' 3)|]. split; [|split; [|split; [|split]]].
  - destruct (H1 2%nat) as (c0 & Hc & _ & He & _); [lia|].
    exists c0. exact (conj Hc He).
  - destruct (H1' 2%nat 3) as (c0 & Hc & Hl & He & _); [lia|].
    exists c0. exact (conj Hc (conj Hl He)).
  - exact (H2 2%nat example.fresh example.warm_up example_fresh_constructed).
  - intros msg. exact (H3 (lru.empty 0 2) example.warm_up msg Hz).
  - exact (proj2 (H4 (lru.empty 0 2) example.warm_up Hz)).
Defined.

(** [insert(4, 40)] on [warm], which is full: the allocators stay as they
    are, and the front node is the node returned. *)
Lemma cache_allocators_do_not_recycle_witness :
  ∃ front rest c',
    lru.l_order (lru.cache example.warm) = front :: rest ∧
    lru.insert example.AllocBlockSize 4%nat 40%nat false example.warm
      = Ok ((front, true), c') ∧
    lru.l_alloc (lru.cache c') = lru.l_alloc (lru.cache example.warm) ∧
    lru.m_alloc (lru.dict c') = lru.m_alloc (lru.dict example.warm) ∧
    lru.l_order (lru.cache c') = rest ++ [front].
Proof.
  destruct (cache_allocators_do_not_recycle (K:=nat) (V:=nat)
              example.AllocBlockSize example_range) as (_ & _ & _ & Hev).
  destruct (Hev example.fresh example.warm_up example.warm 4%nat 40%nat false
              example_warm_constructed example_warm_reached)
    as (front & rest & old & nod & v & c' & H1 & _ & _ & H2 & H3 & H4 & H5 & _).
  - vm_compute. by intros [? ?].
  - vm_compute. reflexivity.
  - exists front, rest, c'. exact (conj H1 (conj H2 (conj H3 (conj H4 H5)))).
Defined.

(** The scenario of the specification, step by step. *)
Example scenario_of_the_specification :
  let i3 := lru.Insert 3%nat "4.5" false in
  let i4 := lru.Insert 4%nat "4.3" false in
  let i6 := lru.Insert 6%nat "4.7" false in
  let i7 := lru.Insert 7%nat "33.3" false in
  example.scenario [i3; i4; i6; lru.Get 4%nat]
    = Some [(3, "4.5"); (6, "4.7"); (4, "4.3")]%nat ∧
  example.scenario [i3; i4; i6; lru.Get 4%nat; i7]
    = Some [(6, "4.7"); (4, "4.3"); (7, "33.3")]%nat ∧
  example.scenario [i3; i4; i6; lru.Get 4%nat; i7; lru.Get 3%nat; lru.Get 6%nat]
    = Some [(4, "4.3"); (7, "33.3"); (6, "4.7")]%nat ∧
  example.scenario [i3; i4; i6; lru.Get 4%nat; i7; lru.Get 3%nat; lru.Get 6%nat;
                    lru.Insert 7%nat "6" false]
    = Some [(4, "4.3"); (6, "4.7"); (7, "33.3")]%nat ∧
  example.scenario [i3; i4; i6; lru.Get 4%nat; i7; lru.Get 3%nat; lru.Get 6%nat;
                    lru.Insert 7%nat "6" false; lru.Insert 7%nat "6" true]
    = Some [(4, "4.3"); (6, "4.7"); (7, "6")]%nat.
Proof. vm_compute. repeat split. Qed.

(** ** Instances of the further properties *)

Lemma example_first_reached :
  lru.run example.AllocBlockSize example.first_up example.fresh
  = Ok example.first.
Proof. vm_compute. reflexivity. Defined.

Lemma example_later_reached :
  lru.run example.AllocBlockSize example.later_up example.warm
  = Ok example.later.
Proof. vm_compute. reflexivity. Defined.

(** [insert(2, 20)] on a cache of capacity 2 that holds key 1. *)
Lemma insert_absent_with_room_witness :
  ∃ p c',
    lru.insert example.AllocBlockSize 2%nat 20%nat false example.first
      = Ok ((p, true), c') ∧
    lru.entries c' = lru.entries example.first ++ [(2, 20)]%nat ∧
    lru.stored c' 2%nat = Some 20%nat.
Proof.
  destruct (insert_absent_with_room example.AllocBlockSize example_range 2
              example.fresh example.first_up example.first 2%nat 20%nat false
              example_fresh_constructed example_first_reached)
    as (p & c' & H1 & H2 & _ & _ & H3 & _).
  - vm_compute. by intros [? ?].
  - vm_compute. lia.
  - exists p, c'. exact (conj H1 (conj H2 H3)).
Defined.

(** [insert(4, 40)] on [warm], which holds keys 1 and 3 and is full. *)
Lemma insert_absent_at_capacity_witness :
  ∃ p c' old v_old rest,
    lru.entries example.warm = (old, v_old) :: rest ∧
    lru.insert example.AllocBlockSize 4%nat 40%nat false example.warm
      = Ok ((p, true), c') ∧
    lru.entries c' = rest ++ [(4, 40)]%nat ∧
    ¬ lru.present c' old.
Proof.
  destruct (insert_absent_at_capacity example.AllocBlockSize example_range
              example.fresh example.warm_up example.warm 4%nat 40%nat false
              example_warm_constructed example_warm_reached)
    as (p & c' & old & v_old & rest & H1 & H2 & H3 & H4 & _).
  - vm_compute. by intros [? ?].
  - vm_compute. reflexivity.
  - exists p, c', old, v_old, rest. exact (conj H1 (conj H2 (conj H3 H4))).
Defined.

(** [get(1)] on [warm]. *)
Lemma get_only_reorders_witness :
  ∃ res c',
    lru.get 1%nat example.warm = Ok (res, c') ∧
    lru.dict c' = lru.dict example.warm ∧
    lru.l_nodes (lru.cache c') = lru.l_nodes (lru.cache example.warm) ∧
    lru.l_order (lru.cache c') ≡ₚ lru.l_order (lru.cache example.warm).
Proof.
  destruct (get_only_reorders example.AllocBlockSize example_range
              example.fresh example.warm_up example.warm 1%nat
              example_warm_constructed example_warm_reached)
    as (res & c' & H1 & H2 & _ & H3 & _ & H4 & _).
  exists res, c'. exact (conj H1 (conj H2 (conj H3 H4))).
Defined.

(** [getOrInsert(1, 99)] on [warm], where key 1 holds 10. *)
Lemma getOrInsert_returns_stored_witness :
  ∃ p c',
    lru.getOrInsert example.AllocBlockSize 1%nat 99%nat example.warm
      = Ok (p, c') ∧
    lru.deref c' p = Some (default 99%nat (lru.stored example.warm 1%nat)) ∧
    last (lru.keys c') = Some 1%nat.
Proof.
  destruct (getOrInsert_returns_stored example.AllocBlockSize example_range 2
              example.fresh example.warm_up example.warm 1%nat 99%nat
              example_fresh_constructed example_warm_reached)
    as (p & c' & H1 & _ & _ & H2 & H3).
  exists p, c'. exact (conj H1 (conj H2 H3)).
Defined.

(** Key 3 is the most recently used key of [warm]. *)
Lemma touching_mru_changes_nothing_witness :
  ∃ p v,
    lru.stored example.warm 3%nat = Some v ∧
    lru.get 3%nat example.warm = Ok (Some p, example.warm) ∧
    lru.insert example.AllocBlockSize 3%nat 99%nat false example.warm
      = Ok ((p, false), example.warm).
Proof.
  destruct (touching_mru_changes_nothing example.AllocBlockSize example_range
              example.fresh example.warm_up example.warm 3%nat
              example_warm_constructed example_warm_reached)
    as (p & v & _ & H1 & H2 & _ & H3).
  - vm_compute. reflexivity.
  - exists p, v. exact (conj H1 (conj H2 (proj1 (H3 99%nat)))).
Defined.

(** One other key is asked for after key 3 was used last; the capacity
    is 2. *)
Lemma touched_key_survives_witness : lru.present example.later 3%nat.
Proof.
  apply (touched_key_survives example.AllocBlockSize example_range
           example.fresh example.warm_up example.warm 3%nat example.later_up
           example.later example_warm_constructed example_warm_reached).
  - vm_compute. reflexivity.
  - vm_compute. lia.
  - exact example_later_reached.
Defined.

(** [insert(5, 50)] on the full cache [warm]. *)
Lemma full_cache_allocates_nothing_witness :
  lru.l_alloc (lru.cache example.later) = lru.l_alloc (lru.cache example.warm) ∧
  lru.m_alloc (lru.dict example.later) = lru.m_alloc (lru.dict example.warm) ∧
  size (lru.m_index (lru.dict example.later)) = lru.limit example.later.
Proof.
  destruct (full_cache_allocates_nothing example.AllocBlockSize example_range
              example.fresh example.warm_up example.warm example.later_up
              example.later example_warm_constructed example_warm_reached)
    as (H1 & H2 & _ & H3).
  - vm_compute. reflexivity.
  - exact example_later_reached.
  - exact (conj H1 (conj H2 H3)).
Defined.

(** Key 3 sits in slot 1 of block 0 in [warm] and stays there when key 5 is
    inserted; key 1 sits in slot 0, which the insert reuses. *)
Lemma references_stay_valid_witness :
  (lru.present example.later 3%nat →
   lru.node_of example.later 3%nat = Some (Slot 0 1) ∧
   lru.deref example.later (Slot 0 1) = Some 30%nat) ∧
  (¬ lru.present example.later 1%nat →
   ∃ key value,
     ((∃ update, lru.Insert 5%nat 50%nat false = lru.Insert key value update) ∨
      lru.Insert 5%nat 50%nat false = lru.GetOrInsert key value) ∧
     lru.node_of example.later key = Some (Slot 0 0) ∧
     lru.deref example.later (Slot 0 0) = Some value).
Proof.
  split.
  - apply (references_stay_valid example.AllocBlockSize example_range
             example.fresh example.warm_up example.warm
             (lru.Insert 5%nat 50%nat false) example.later 3%nat (Slot 0 1)
             30%nat example_warm_constructed example_warm_reached).
    + vm_compute. reflexivity.
    + vm_compute. reflexivity.
    + vm_compute. reflexivity.
  - apply (references_stay_valid example.AllocBlockSize example_range
             example.fresh example.warm_up example.warm
             (lru.Insert 5%nat 50%nat false) example.later 1%nat (Slot 0 0)
             10%nat example_warm_constructed example_warm_reached).
    + vm_compute. reflexivity.
    + vm_compute. reflexivity.
    + vm_compute. reflexivity.
Defined.

Lemma example_calls_run :
  pool.run_calls true example.AllocBlockSize example.calls (pool.create 2)
  = Ok (example.after_calls.1, example.after_calls.2).
Proof. vm_compute. reflexivity. Defined.

(** Three single allocations, a release and an array allocation on
    [pool_allocator<T, true, 4>(2)]: blocks 0 and 1 are created, and the
    destructor releases block 1, then block 0. *)
Lemma created_blocks_are_released_witness :
  pool.created example.after_calls.2 = [(0%nat, 2); (1%nat, 4)] ∧
  (pool.destroy example.after_calls.1).2 = [DeleteBlock 1; DeleteBlock 0] ∧
  (∀ b, DeleteBlock b ∉ example.after_calls.2).
Proof.
  destruct (created_blocks_are_released example.AllocBlockSize example_range
              true 2 example.calls example.after_calls.1 example.after_calls.2)
    as (H1 & _ & H2 & H3 & _).
  - vm_compute. reflexivity.
  - exact example_calls_run.
  - split; [exact H1|]. split; [exact H3|exact H2].
Defined.

(** The same calls on [pool_allocator<T, false, 4>(2)]: three single slots
    need two blocks. *)
Lemma bump_allocation_is_tight_witness :
  ∃ a evs,
    pool.run_calls false example.AllocBlockSize example.calls (pool.create 2)
      = Ok (a, evs) ∧
    pool.used a = 3 ∧ length (pool.pool a) = 2%nat.
Proof.
  destruct (bump_allocation_is_tight example.AllocBlockSize example_range 2
              example.calls) as (a & evs & H1 & H2 & H3 & _).
  - lia32.
  - exists a, evs. exact (conj H1 (conj H2 H3)).
Defined.

(** [pool_allocator<T, true, 4>(2)] after one allocation is moved from: its
    cursor stays at 1 of 2 with no chain, and the new allocator has the
    chain. *)
Lemma moved_from_allocator_witness :
  (pool.move (pool.mk [2] None ∅ 2 1)).1 = pool.mk [2] None ∅ 2 1 ∧
  ∃ what,
    pool.allocate true example.AllocBlockSize 1
      (pool.move (pool.mk [2] None ∅ 2 1)).2 = Undefined what.
Proof.
  destruct (moved_from_allocator example.AllocBlockSize example_range true 2
              (pool.mk [2] None ∅ 2 1)) as (H1 & _ & _ & _ & H2 & _).
  - lia32.
  - apply (pool.reachable_step true example.AllocBlockSize 2 (pool.Allocate 1)
             (pool.create 2) _ [NewBlock 0 2]); [constructor|reflexivity].
  - split; [exact H1|]. apply H2. vm_compute. intros ?; discriminate.
Defined.

(** [warm] holds two keys: two slots of each allocator are in use, in one
    block each. *)
Lemma cache_memory_is_tight_witness :
  pool.used (lru.l_alloc (lru.cache example.warm)) = 2 ∧
  pool.used (lru.m_alloc (lru.dict example.warm)) = 2 ∧
  (length (pool.pool (lru.l_alloc (lru.cache example.warm))) ≤ 1)%nat ∧
  (length (pool.pool (lru.m_alloc (lru.dict example.warm))) ≤ 1)%nat.
Proof.
  destruct (cache_memory_is_tight example.AllocBlockSize example_range 2
              example.fresh example.warm_up example.warm
              example_fresh_constructed example_warm_reached)
    as (H1 & H2 & _ & _ & _ & H3).
  destruct H3 as [H3 H4].
  - reflexivity.
  - vm_compute. intros ?; discriminate.
  - exact (conj H1 (conj H2 (conj H3 H4))).
Defined.

(** Slots 0 and 1 of block 0 are released in this order and come back in
    the opposite order. *)
Lemma free_list_is_a_stack_witness :
  ∃ a',
    pool.allocate_ones true example.AllocBlockSize 2
      (pool.deallocate_all true [Slot 0 0; Slot 0 1] (pool.mk [2] None ∅ 2 2))
    = Ok ([Slot 0 1; Slot 0 0], a', []) ∧
    pool.freeList a' = None ∧ pool.index a' = 2.
Proof.
  destruct (free_list_is_a_stack example.AllocBlockSize
              (pool.mk [2] None ∅ 2 2) [] [Slot 0 0; Slot 0 1])
    as (a' & _ & H1 & _ & H2 & _ & H3 & _).
  - reflexivity.
  - apply (bool_decide_unpack _). vm_compute. reflexivity.
  - intros p _. apply not_elem_of_nil.
  - exists a'. exact (conj H1 (conj H2 H3)).
Defined.


(** [fib(10, cache)] on a new [lru_cache<uint64_t, uint64_t, 4>(2)], left
    operand first. *)
Lemma fib_agrees_with_fibIt_witness :
  ∃ c',
    fibtest.fib example.AllocBlockSize true 10 (lru.empty 2 2)
      = Ok (fibtest.fibIt (N.of_nat 10), c') ∧
    fibtest.fibIt (N.of_nat 10) = fibtest.wrap64 (fibtest.fibonacci 10).
Proof.
  destruct (fib_agrees_with_fibIt example.AllocBlockSize example_range true 2
              (lru.empty 2 2) [] (lru.empty 2 2) 10)
    as (c' & H1 & H2 & _).
  - left. reflexivity.
  - reflexivity.
  - intros m v Hs. unfold lru.stored, lru.empty in Hs. cbn in Hs.
    rewrite lookup_empty in Hs. discriminate Hs.
  - vm_compute. reflexivity.
  - exists c'. exact (conj H1 H2).
Defined.

(** In the history of [warm], key 2 was inserted second and evicted; key 3,
    which is in the cache, was used after it. *)
Lemma cache_holds_most_recent_keys_witness :
  lru.bumped_before
    (lru.touches example.AllocBlockSize example.warm_up example.fresh)
    2%nat 3%nat.
Proof.
  apply (cache_holds_most_recent_keys example.AllocBlockSize example_range
           example.fresh example.warm_up example.warm 3%nat 2%nat
           example_warm_constructed example_warm_reached).
  - vm_compute. eexists. reflexivity.
  - vm_compute. by intros [? ?].
  - vm_compute. eexists. reflexivity.
Defined.

(** [lru_cache<unsigned, unsigned, 4>(2, 0)]: the first insert. *)
Lemma zero_initial_capacity_is_unusable_witness :
  lru.insert example.AllocBlockSize 1%nat 10%nat false (lru.empty 0 2)
    = Undefined "node constructed outside its block" ∧
  lru.get 1%nat (lru.empty (V:=nat) 0 2) = Ok (None, lru.empty 0 2).
Proof.
  destruct (zero_initial_capacity_is_unusable (K:=nat) (V:=nat)
              example.AllocBlockSize 2 (lru.empty 0 2) 1%nat 10%nat false)
    as (H1 & _ & H2 & _).
  - reflexivity.
  - exact (conj H1 H2).
Defined.

(** A copy of [pool_allocator<T, true, 4>(2)] after one allocation, and a
    copy of a new [pool_allocator<T, true, 4>(0)]. *)
Lemma copy_reserves_current_block_size_witness :
  (pool.copy (pool.mk [2] None ∅ 2 1) = pool.create 2 ∧
   ∃ a',
     pool.allocate true example.AllocBlockSize 1
       (pool.copy (pool.mk [2] None ∅ 2 1))
     = Ok (Slot 0 0, a', [NewBlock 0 2]) ∧
     pool.in_bounds a' (Slot 0 0) = true) ∧
  (pool.copy (pool.create 0) = pool.create 0 ∧
   ∃ a',
     pool.allocate true example.AllocBlockSize 1 (pool.copy (pool.create 0))
     = Ok (Slot 0 0, a', [NewBlock 0 0]) ∧
     pool.in_bounds a' (Slot 0 0) = false).
Proof.
  split.
  - destruct (copy_reserves_current_block_size example.AllocBlockSize
                example_range true 2 (pool.mk [2] None ∅ 2 1))
      as (H1 & _ & _ & a' & H2 & _ & _ & H3 & _).
    + lia32.
    + apply (pool.reachable_step true example.AllocBlockSize 2 (pool.Allocate 1)
               (pool.create 2) _ [NewBlock 0 2]); [constructor|reflexivity].
    + split; [exact H1|]. exists a'. split; [exact H2|]. apply H3. lia.
  - destruct (copy_reserves_current_block_size example.AllocBlockSize
                example_range true 0 (pool.create 0))
      as (H1 & _ & _ & a' & H2 & _ & _ & _ & H3).
    + lia32.
    + constructor.
    + split; [exact H1|]. exists a'. split; [exact H2|].
      apply H3; [reflexivity|simpl; lia].
Defined.


(** [insert(1, 99, true)] on [warm], then [get(1)]. *)
Lemma get_after_insert_witness :
  ∃ p inserted c1,
    lru.insert example.AllocBlockSize 1%nat 99%nat true example.warm
      = Ok ((p, inserted), c1) ∧
    lru.get 1%nat c1 = Ok (Some p, c1) ∧
    lru.deref c1 p = Some 99%nat.
Proof.
  destruct (get_after_insert example.AllocBlockSize example_range 2
              example.fresh example.warm_up example.warm 1%nat 99%nat true
              example_fresh_constructed example_warm_reached)
    as (p & b & c1 & H1 & H2 & _ & _ & H3).
  exists p, b, c1. exact (conj H1 (conj H2 H3)).
Defined.
